(** * qubits: a sparse quantum-circuit simulator and its compile pipeline

    A shallow embedding of the JavaScript sources: the optimizer and the
    transpiler of [src/compiler], the sparse simulator of [src/core], the
    qubit manager and the operation recorder of [src/api].

    JavaScript numbers are IEEE binary64 values, so they are Rocq's primitive
    floats; BigInt values are [Z], and a store into a [BigUint64Array] wraps
    modulo 2^64.  [Map] and [Set] objects are [gmap] and [gset]. *)

From Stdlib Require Import ZArith Floats.
From stdpp Require Import gmap strings list.

#[local] Set Warnings "-inexact-float,-register-all,-abstract-large-number".

(** ** JavaScript values and numbers *)

Module Js.

(** What can sit in a qubit position: a [Symbol] minted by the manager (or a
    foreign one), [null] (the [qubit] of a control block) or [undefined]. *)
Inductive JsVal := VNull | VUndef | VSym (n : nat).

#[export] Instance JsVal_eq_dec : EqDecision JsVal.
Proof. solve_decision. Defined.

Definition JsVal_code (v : JsVal) : nat + bool :=
  match v with VSym n => inl n | VNull => inr true | VUndef => inr false end.

Definition JsVal_decode (c : nat + bool) : JsVal :=
  match c with inl n => VSym n | inr true => VNull | inr false => VUndef end.

#[export] Instance JsVal_countable : Countable JsVal.
Proof.
  apply (inj_countable' JsVal_code JsVal_decode). by intros [].
Defined.

(** Errors the code raises itself, and the [TypeError] of the engine. *)
Inductive error :=
| TypeError
| UsageError (q : JsVal)      (* "Qubit ... is not allocated in this scope." *)
| PhysicsError (q : JsVal)    (* "Qubit ... cannot control itself." *)
| SwapSelfError               (* "Cannot swap a qubit with itself." *)
| FatalError (q : JsVal)      (* "... must be reset to |0> before release." *)
| HookError (code : nat).     (* whatever a flush hook throws *)

(** A call on a mutable object: it returns a value and the new state, or
    throws and leaves the state as it was when the exception was raised.
    [OutOfFuel] is the model's own: a loop that was cut short. *)
Inductive outcome (S A : Type) :=
| Ret (a : A) (s : S)
| Throw (e : error) (s : S)
| OutOfFuel.
Arguments Ret {S A} a s.
Arguments Throw {S A} e s.
Arguments OutOfFuel {S A}.

Definition M (S A : Type) : Type := S → outcome S A.

Definition ret {S A} (a : A) : M S A := fun s => Ret a s.
Definition throw {S A} (e : error) : M S A := fun s => Throw e s.
Definition bind {S A B} (m : M S A) (k : A → M S B) : M S B :=
  fun s => match m s with
           | Ret a s' => k a s'
           | Throw e s' => Throw e s'
           | OutOfFuel => OutOfFuel
           end.
Definition get {S} : M S S := fun s => Ret s s.
Definition put {S} (s : S) : M S unit := fun _ => Ret tt s.
Definition modify {S} (f : S → S) : M S unit := fun s => Ret tt (f s).

(** The call returns, with a value and a state that satisfy [P]. *)
Definition returns {S A} (o : outcome S A) (P : A → S → Prop) : Prop :=
match o with
| Ret a s => P a s
| _ => False
end.

(** The call ends, returning or throwing, in a state that satisfies [P]. *)
Definition ends_in {S A} (o : outcome S A) (P : S → Prop) : Prop :=
match o with
| Ret _ s | Throw _ s => P s
| OutOfFuel => False
end.

(** A [for] loop over the elements of a list. *)
Fixpoint forEach {S A} (l : list A) (f : A → M S unit) : M S unit :=
  match l with
  | [] => ret tt
  | x :: l' => bind (f x) (fun _ => forEach l' f)
  end.

(** [Math.PI] is the double nearest to π. *)
Definition Math_PI : float := 0x1.921fb54442d18p+1%float.

Definition Math_abs (x : float) : float := PrimFloat.abs x.
Definition Math_sqrt (x : float) : float := PrimFloat.sqrt x.

(** [Math.max(a, b)]: NaN when either is, and +0 above -0. *)
Definition Math_max (a b : float) : float :=
  if is_nan a || is_nan b then nan
  else if (a <? b)%float then b
  else if (b <? a)%float then a
  else if get_sign a then b else a.

(** [x ** 2] (what the engine's [pow] yields for the exponent 2). *)
Definition sq (x : float) : float := (x * x)%float.

(** [x % y] on numbers: the exact remainder, with the sign of [x]. *)
Definition rem (x y : float) : float :=
  match Prim2SF x, Prim2SF y with
  | S754_nan, _ | _, S754_nan => nan
  | S754_infinity _, _ => nan
  | _, S754_zero _ => nan
  | S754_zero _, _ => x
  | S754_finite _ _ _, S754_infinity _ => x
  | S754_finite sx mx ex, S754_finite _ my ey =>
      let e := Z.min ex ey in
      let a := (Z.pos mx * 2 ^ (ex - e))%Z in
      let b := (Z.pos my * 2 ^ (ey - e))%Z in
      match (a mod b)%Z with
      | Z.pos r => SF2Prim (S754_finite sx r e)
      | _ => if sx then neg_zero else zero
      end
  end.

(** Truthiness of a number: everything but 0, -0 and NaN. *)
Definition truthy (x : float) : bool := negb (is_zero x || is_nan x).

(** A JavaScript integer-valued number from a count. *)
Definition of_nat (n : nat) : float := of_uint63 (Uint63.of_Z (Z.of_nat n)).

(** [names.includes(s)] *)
Definition includes (names : list string) (s : string) : bool :=
  existsb (String.eqb s) names.

(** The functions of the engine that ECMAScript leaves to the
    implementation: the approximations behind [Math.cos] and [Math.sin],
    the values [Math.random()] yields, call after call, and the clock. *)
Class Engine := {
  Math_cos : float → float;
  Math_sin : float → float;
  Math_random : nat → float;
  Date_now : nat → Z;
}.

End Js.
Export Js.

Notation "'let*' x ':=' m 'in' k" := (bind m (fun x => k))
  (at level 10, x name, m at level 100, k at level 200).
Notation "'let*' ' p ':=' m 'in' k" := (bind m (fun x => match x with p => k end))
  (at level 10, p pattern, m at level 100, k at level 200).

(** ** The intermediate representation (src/compiler/ir-generator.js) *)

Module Ir.

(** [op.qubit]: one value, or an array of them. *)
Inductive QubitRef := QVal (v : JsVal) | QArr (l : list JsVal).

#[export] Instance QubitRef_eq_dec : EqDecision QubitRef.
Proof. solve_decision. Defined.

(** [op.condition]: the qubit whose cached result is tested and the value
    it is compared with ([None] is [undefined]). *)
Record Cond := { cqubit : JsVal; cvalue : option Z }.

(** An instruction object.  A field that is [null] or missing is [None]:
    the transpiler's output has no [condition], [body] or [timestamp], and its
    CNOTs have no [params].  The code reads a [null] and a missing field
    alike, but for one place: the [params = []] default of the transpiler
    covers the missing field only.  There [None] is the missing field;
    [addOp] always stores an array, and nothing in the pipeline makes a
    [params] that is [null]. *)
Inductive Instr := MkInstr {
  gate : string;
  qubit : QubitRef;
  params : option (list float);
  condition : option Cond;
  body : option (list Instr);
  timestamp : option Z;
}.

Definition with_gate (g : string) (op : Instr) : Instr :=
  MkInstr g (qubit op) (params op) (condition op) (body op) (timestamp op).

Definition with_params (ps : list float) (op : Instr) : Instr :=
  MkInstr (gate op) (qubit op) (Some ps) (condition op) (body op) (timestamp op).

(** [Array.isArray(op.qubit) ? op.qubit : [op.qubit]] *)
Definition qubits_of (op : Instr) : list JsVal :=
  match qubit op with QArr l => l | QVal v => [v] end.

Definition isArray (q : QubitRef) : bool :=
  match q with QArr _ => true | QVal _ => false end.

(** [arr[i]] on an array of numbers read in arithmetic: a missing element
    is [undefined], which arithmetic turns into NaN. *)
Definition num_at (l : list float) (i : nat) : float := nth i l nan.

(** The circuit buffer: [addOp] with its options, [clear],
    [getInstructions]. *)
Definition Circuit := list Instr.

Definition addOp_with (g : string) (q : QubitRef) (ps : list float)
    (c : option Cond) (b : option (list Instr)) (now : Z) (ops : Circuit) : Circuit :=
  ops ++ [MkInstr g q (Some ps) c b (Some now)].

Definition clear (ops : Circuit) : Circuit := [].
Definition getInstructions (ops : Circuit) : list Instr := ops.

End Ir.
Export Ir.

(** ** The optimizer (src/compiler/optimizer.js) *)

Module Optimizer.

Record Rule := { rgate : string; commutesWith : list string; role : string }.

Definition COMMUTATION_RULES : list Rule :=
  [ {| rgate := "Z"; commutesWith := ["CNOT"; "CZ"]; role := "control" |};
    {| rgate := "S"; commutesWith := ["CNOT"; "CZ"; "T"; "RZ"]; role := "control" |};
    {| rgate := "T"; commutesWith := ["CNOT"; "CZ"; "S"; "RZ"]; role := "control" |};
    {| rgate := "RZ"; commutesWith := ["CNOT"; "CZ"; "S"; "T"]; role := "control" |};
    {| rgate := "X"; commutesWith := ["CNOT"]; role := "target" |};
    {| rgate := "RX"; commutesWith := ["CNOT"]; role := "target" |} ].

Definition EPSILON : float := 1e-10%float.

Definition two_pi : float := (2 * Math_PI)%float.

Definition isIdentity (op : Instr) : bool :=
  match params op with
  | None | Some [] => false
  | Some ps =>
      if includes ["RX"; "RY"; "RZ"] (gate op) then
        let angle := Math_abs (rem (num_at ps 0) two_pi) in
        (angle <? EPSILON)%float || (Math_abs (angle - two_pi) <? EPSILON)%float
      else if String.eqb (gate op) "U3" then
        forallb (fun p => (Math_abs (rem p two_pi) <? EPSILON)%float) ps
      else false
  end.

Definition areQubitsEqual (q1 q2 : QubitRef) : bool :=
  match q1, q2 with
  | QVal a, QVal b => bool_decide (a = b)
  | QArr l1, QArr l2 =>
      if negb (length l1 =? length l2)%nat then false
      else forallb (fun p => bool_decide (fst p = snd p)) (combine l1 l2)
  | _, _ => false
  end.

(** [x.qubit[0]]: the first element of an array ([undefined] when it is
    empty), [undefined] on a symbol, and a [TypeError] ([None]) on [null]
    and [undefined]. *)
Definition qubit0 (q : QubitRef) : option JsVal :=
  match q with
  | QArr l => Some (nth 0 l VUndef)
  | QVal (VSym _) => Some VUndef
  | QVal _ => None
  end.

Definition rule_matches (gateA gateB : Instr) (r : Rule) : bool :=
  (String.eqb (rgate r) (gate gateA) && includes (commutesWith r) (gate gateB))
  || (String.eqb (rgate r) (gate gateB) && includes (commutesWith r) (gate gateA)).

(** [None] is the [TypeError] of [qubit0]. *)
Definition canCommute (gateA gateB : Instr) : option bool :=
  let qA := qubits_of gateA in
  let qB := qubits_of gateB in
  let shared := filter (fun q => q ∈ qB) qA in
  match shared with
  | [] => Some true
  | sharedQubit :: _ =>
      match find (rule_matches gateA gateB) COMMUTATION_RULES with
      | Some rule =>
          let multiQubitGate := if isArray (qubit gateA) then gateA else gateB in
          match qubit0 (qubit multiQubitGate) with
          | None => None
          | Some first =>
              let isControl := bool_decide (first = sharedQubit) in
              if String.eqb (role rule) "control" && isControl then Some true
              else if String.eqb (role rule) "target" && negb isControl then Some true
              else Some false
          end
      | None => Some false
      end
  end.

(** The optimizer's working state: the wire map and the output list, whose
    slots are instructions or [null]. *)
Record St := {
  wireMap : gmap JsVal (list nat);
  optimized : list (option Instr);
}.

(** The backward walk over a wire, most recent index first. *)
Fixpoint walk (op : Instr) (optimized : list (option Instr)) (wire_rev : list nat)
    : option (option nat) :=
  match wire_rev with
  | [] => Some None
  | checkIdx :: rest =>
      match optimized !! checkIdx with
      | Some (Some candidate) =>
          if String.eqb (gate candidate) (gate op)
             && areQubitsEqual (qubit candidate) (qubit op)
          then Some (Some checkIdx)
          else match canCommute op candidate with
               | None => None
               | Some true => walk op optimized rest
               | Some false => Some None
               end
      | _ => walk op optimized rest
      end
  end.

(** [Some None] is the source's [null], [None] a [TypeError]. *)
Definition findCommutingPartner (op : Instr) (st : St) : option (option nat) :=
  match qubits_of op with
  | [q] => walk op (optimized st) (rev (default [] (wireMap st !! q)))
  | _ => Some None
  end.

(** [wire.splice(wire.indexOf(idx), 1)] when [idx] is on the wire. *)
Fixpoint remove_first (idx : nat) (wire : list nat) : list nat :=
  match wire with
  | [] => []
  | i :: rest => if (i =? idx)%nat then rest else i :: remove_first idx rest
  end.

Fixpoint removeFromWires_go (idx : nat) (qs : list JsVal) (wm : gmap JsVal (list nat))
    : option (gmap JsVal (list nat)) :=
  match qs with
  | [] => Some wm
  | q :: rest =>
      match wm !! q with
      | None => None
      | Some wire => removeFromWires_go idx rest (<[q := remove_first idx wire]> wm)
      end
  end.

Definition removeFromWires (idx : nat) (op : Instr) (wm : gmap JsVal (list nat)) :=
  removeFromWires_go idx (qubits_of op) wm.

(** [arr[0] = v]: an empty array grows. *)
Definition set0 (ps : list float) (v : float) : list float :=
  match ps with [] => [v] | _ :: rest => v :: rest end.

Definition mergeGates (partnerIdx : nat) (op : Instr) (st : St) : option St :=
  match optimized st !! partnerIdx with
  | Some (Some partner) =>
      match params partner, params op with
      | Some pp, Some po =>
          let partner' :=
            if includes ["RX"; "RY"; "RZ"] (gate op)
            then with_params (set0 pp (rem (num_at pp 0 + num_at po 0) two_pi)) partner
            else partner in
          let opt' := <[partnerIdx := Some partner']> (optimized st) in
          if isIdentity partner' then
            match removeFromWires partnerIdx partner' (wireMap st) with
            | Some wm => Some {| wireMap := wm; optimized := <[partnerIdx := None]> opt' |}
            | None => None
            end
          else Some {| wireMap := wireMap st; optimized := opt' |}
      | _, _ => None
      end
  | _ => None
  end.

Definition push_wires (newIdx : nat) (qs : list JsVal) (wm : gmap JsVal (list nat)) :=
  foldl (fun m q => <[q := default [] (m !! q) ++ [newIdx]]> m) wm qs.

Definition append (op : Instr) (st : St) : St :=
  let newIdx := length (optimized st) in
  {| wireMap := push_wires newIdx (qubits_of op) (wireMap st);
     optimized := optimized st ++ [Some op] |}.

Definition selfInverses : list string := ["H"; "X"; "Y"; "Z"; "CNOT"; "CZ"; "SWAP"].

(** One turn of the loop of [prune]. *)
Definition step (st : St) (op : Instr) : option St :=
  if isIdentity op then Some st
  else
    match findCommutingPartner op st with
    | None => None
    | Some None => Some (append op st)
    | Some (Some partnerIdx) =>
        match optimized st !! partnerIdx with
        | Some (Some partner) =>
            if includes ["RX"; "RY"; "RZ"] (gate op) then mergeGates partnerIdx op st
            else if String.eqb (gate op) "S" && String.eqb (gate partner) "S" then
              Some {| wireMap := wireMap st;
                      optimized := <[partnerIdx := Some (with_gate "Z" partner)]> (optimized st) |}
            else if String.eqb (gate op) "T" && String.eqb (gate partner) "T" then
              Some {| wireMap := wireMap st;
                      optimized := <[partnerIdx := Some (with_gate "S" partner)]> (optimized st) |}
            else if String.eqb (gate op) (gate partner) && includes selfInverses (gate op) then
              match removeFromWires partnerIdx partner (wireMap st) with
              | Some wm => Some {| wireMap := wm; optimized := <[partnerIdx := None]> (optimized st) |}
              | None => None
              end
            else Some (append op st)
        | _ => None
        end
    end.

Fixpoint loop (st : St) (instructions : list Instr) : option St :=
  match instructions with
  | [] => Some st
  | op :: rest =>
      match step st op with
      | Some st' => loop st' rest
      | None => None
      end
  end.

Definition keep (slot : option Instr) : list Instr :=
  match slot with
  | Some op => if isIdentity op then [] else [op]
  | None => []
  end.

(** [Optimizer.prune]; [None] is a [TypeError].  The instruction objects of
    the input are taken by value: each position of the list is an object
    of its own, as [Circuit.addOp] and the transpiler create them. *)
Definition prune (instructions : list Instr) : option (list Instr) :=
  match loop {| wireMap := ∅; optimized := [] |} instructions with
  | Some st => Some (concat (map keep (optimized st)))
  | None => None
  end.

End Optimizer.

(** ** The transpiler (src/compiler/transpiler.js) *)

Module Transpiler.

(** The objects the decomposition creates have a gate, a qubit and, for
    U3, params; nothing else. *)
Definition U3 (q : QubitRef) (theta phi lambda : float) : Instr :=
  MkInstr "U3" q (Some [theta; phi; lambda]) None None None.

Definition CNOT (a b : JsVal) : Instr :=
  MkInstr "CNOT" (QArr [a; b]) None None None None.

(** [const [a, b] = qubit]: a [TypeError] ([None]) on what is not iterable. *)
Definition destructure2 (q : QubitRef) : option (JsVal * JsVal) :=
  match q with
  | QArr l => Some (nth 0 l VUndef, nth 1 l VUndef)
  | QVal _ => None
  end.

(** [const { gate, qubit, params = [] } = op]: the default is taken for
    a missing [params], which is what [None] is here (a [params] that is
    [null] would pass the default and make [params[0]] throw for RX, RY
    and RZ; no such instruction is modelled).  [params[0]] ends up in a
    new array; a missing element is kept as NaN, which is what every
    later use makes of [undefined]. *)
Definition decompose (op : Instr) : option (list Instr) :=
  let gate := gate op in
  let qubit := qubit op in
  let params := default [] (params op) in
  if String.eqb gate "H" then Some [U3 qubit (Math_PI / 2) 0 Math_PI]
  else if String.eqb gate "X" then Some [U3 qubit Math_PI 0 Math_PI]
  else if String.eqb gate "Y" then Some [U3 qubit Math_PI (Math_PI / 2) (Math_PI / 2)]
  else if String.eqb gate "Z" then Some [U3 qubit 0 0 Math_PI]
  else if String.eqb gate "RX" then
    Some [U3 qubit (num_at params 0) (- Math_PI / 2) (Math_PI / 2)]
  else if String.eqb gate "RY" then Some [U3 qubit (num_at params 0) 0 0]
  else if String.eqb gate "RZ" then Some [U3 qubit 0 0 (num_at params 0)]
  else if String.eqb gate "SWAP" then
    match destructure2 qubit with
    | Some (q1, q2) => Some [CNOT q1 q2; CNOT q2 q1; CNOT q1 q2]
    | None => None
    end
  else if String.eqb gate "CZ" then
    match destructure2 qubit with
    | Some (ctrl, trgt) =>
        Some [U3 (QVal trgt) (Math_PI / 2) 0 Math_PI;
              CNOT ctrl trgt;
              U3 (QVal trgt) (Math_PI / 2) 0 Math_PI]
    | None => None
    end
  else Some [op].

(** [Transpiler.transpile]; [None] is a [TypeError]. *)
Fixpoint transpile (instructions : list Instr) : option (list Instr) :=
  match instructions with
  | [] => Some []
  | op :: rest =>
      match decompose op with
      | Some decomposed =>
          match transpile rest with
          | Some nativeOps => Some (decomposed ++ nativeOps)
          | None => None
          end
      | None => None
      end
  end.

End Transpiler.

(** ** The compiler (src/compiler/compiler.js) *)

Module Compiler.

Definition compile (instructions : list Instr) : option (list Instr) :=
  match Optimizer.prune instructions with
  | Some processed =>
      match Transpiler.transpile processed with
      | Some processed' => Optimizer.prune processed'
      | None => None
      end
  | None => None
  end.

End Compiler.

(** ** The gate matrices (src/core/gate-defs.js) *)

Module Gates.

(** An entry of [GATES]: a [Float64Array], or a function of the angles. *)
Inductive GateDef :=
| Fixed (matrix : list float)
| Param (f : list float → list float).

Definition INV_SQRT2 : float := (1 / Math_sqrt 2)%float.

Section WithEngine.
Context `{Engine}.

Definition RX (ps : list float) : list float :=
  let theta := num_at ps 0 in
  let c := Math_cos (theta / 2) in
  let s := (- Math_sin (theta / 2))%float in
  [c; 0; 0; s; 0; s; c; 0]%float.

Definition RY (ps : list float) : list float :=
  let theta := num_at ps 0 in
  let c := Math_cos (theta / 2) in
  let s := Math_sin (theta / 2) in
  [c; 0; - s; 0; s; 0; c; 0]%float.

Definition RZ (ps : list float) : list float :=
  let theta := num_at ps 0 in
  let c := Math_cos (theta / 2) in
  let s := Math_sin (theta / 2) in
  [c; - s; 0; 0; 0; 0; c; s]%float.

Definition U3 (ps : list float) : list float :=
  let theta := num_at ps 0 in
  let phi := num_at ps 1 in
  let lambda := num_at ps 2 in
  let c := Math_cos (theta / 2) in
  let s := Math_sin (theta / 2) in
  [ c; 0;
    - s * Math_cos lambda; - s * Math_sin lambda;
    s * Math_cos phi; s * Math_sin phi;
    c * Math_cos (phi + lambda); c * Math_sin (phi + lambda) ]%float.

Definition RZZ (ps : list float) : list float :=
  let theta := num_at ps 0 in
  let c := Math_cos (theta / 2) in
  let s := Math_sin (theta / 2) in
  [ c; - s; 0; 0; 0; 0; 0; 0;
    0; 0; c; s; 0; 0; 0; 0;
    0; 0; 0; 0; c; s; 0; 0;
    0; 0; 0; 0; 0; 0; c; - s ]%float.

(** [GATES[name]] for the entries of the table; [None] is [undefined],
    which is what the lookup gives for every other name but those an
    object inherits from [Object.prototype] ([constructor], [toString],
    ...): the lookup of one of these finds the inherited value, and is
    not modelled. *)
Definition GATES (name : string) : option GateDef :=
  if String.eqb name "H" then
    Some (Fixed [ INV_SQRT2; 0; INV_SQRT2; 0;
                  INV_SQRT2; 0; - INV_SQRT2; 0 ]%float)
  else if String.eqb name "X" then Some (Fixed [0; 0; 1; 0; 1; 0; 0; 0]%float)
  else if String.eqb name "Y" then Some (Fixed [0; 0; 0; -1; 0; 1; 0; 0]%float)
  else if String.eqb name "Z" then Some (Fixed [1; 0; 0; 0; 0; 0; -1; 0]%float)
  else if String.eqb name "RX" then Some (Param RX)
  else if String.eqb name "RY" then Some (Param RY)
  else if String.eqb name "RZ" then Some (Param RZ)
  else if String.eqb name "U3" then Some (Param U3)
  else if String.eqb name "CNOT" then
    Some (Fixed [ 1; 0; 0; 0; 0; 0; 0; 0;
                  0; 0; 1; 0; 0; 0; 0; 0;
                  0; 0; 0; 0; 0; 0; 1; 0;
                  0; 0; 0; 0; 1; 0; 0; 0 ]%float)
  else if String.eqb name "CZ" then
    Some (Fixed [ 1; 0; 0; 0; 0; 0; 0; 0;
                  0; 0; 1; 0; 0; 0; 0; 0;
                  0; 0; 0; 0; 1; 0; 0; 0;
                  0; 0; 0; 0; 0; 0; -1; 0 ]%float)
  else if String.eqb name "SWAP" then
    Some (Fixed [ 1; 0; 0; 0; 0; 0; 0; 0;
                  0; 0; 0; 0; 1; 0; 0; 0;
                  0; 0; 1; 0; 0; 0; 0; 0;
                  0; 0; 0; 0; 0; 0; 1; 0 ]%float)
  else if String.eqb name "S" then Some (Fixed [1; 0; 0; 0; 0; 0; 0; 1]%float)
  else if String.eqb name "T" then
    Some (Fixed [ 1; 0; 0; 0;
                  0; 0; Math_cos (Math_PI / 4); Math_sin (Math_PI / 4) ]%float)
  else if String.eqb name "RZZ" then Some (Param RZZ)
  else if String.eqb name "CCX" then
    Some (Fixed [ 1;0;0;0;0;0;0;0;0;0;0;0;0;0;0;0;
                  0;0;1;0;0;0;0;0;0;0;0;0;0;0;0;0;
                  0;0;0;0;1;0;0;0;0;0;0;0;0;0;0;0;
                  0;0;0;0;0;0;1;0;0;0;0;0;0;0;0;0;
                  0;0;0;0;0;0;0;0;1;0;0;0;0;0;0;0;
                  0;0;0;0;0;0;0;0;0;0;1;0;0;0;0;0;
                  0;0;0;0;0;0;0;0;0;0;0;0;0;0;1;0;
                  0;0;0;0;0;0;0;0;0;0;0;0;1;0;0;0 ]%float)
  else None.

(** [let matrix = GATES[name]; if (typeof matrix === "function") matrix =
    matrix(...params)] *)
Definition matrix_of (name : string) (params : list float) : option (list float) :=
  match GATES name with
  | Some (Fixed m) => Some m
  | Some (Param f) => Some (f params)
  | None => None
  end.

End WithEngine.

End Gates.

(** ** The sparse simulator (src/core/simulator.js, src/core/noise-model.js) *)

Module Simulator.

Record NoiseModel := {
  gateError : float;
  readoutError : float;
  t1 : float;
  t2 : float;
}.

(** [new NoiseModel({...})]: an option left out is 0. *)
Definition NoiseModel_new (gateError readoutError t1 t2 : option float) : NoiseModel :=
  {| gateError := default 0%float gateError;
     readoutError := default 0%float readoutError;
     t1 := default 0%float t1;
     t2 := default 0%float t2 |}.

(** The third argument of the constructor; [None] is a missing [epsilon]. *)
Record Options := { opt_epsilon : option float }.

(** The private fields.  [draws] is not a field of the class: it counts
    the calls of [Math.random()] so far, which fixes the value the next
    call yields. *)
Record Sim := {
  indices : list Z;
  amplitudes : list float;
  indicesAux : list Z;
  amplitudesAux : list float;
  activeCount : nat;
  qubitMap : gmap JsVal nat;
  noiseModel : option NoiseModel;
  epsilon : option float;
  results : gmap JsVal Z;
  draws : nat;
}.

Definition memoryBudget : nat := 5000.

Definition set_primary (ix : list Z) (am : list float) (s : Sim) : Sim :=
  {| indices := ix; amplitudes := am;
     indicesAux := indicesAux s; amplitudesAux := amplitudesAux s;
     activeCount := activeCount s; qubitMap := qubitMap s;
     noiseModel := noiseModel s; epsilon := epsilon s;
     results := results s; draws := draws s |}.

Definition set_aux (ix : list Z) (am : list float) (s : Sim) : Sim :=
  {| indices := indices s; amplitudes := amplitudes s;
     indicesAux := ix; amplitudesAux := am;
     activeCount := activeCount s; qubitMap := qubitMap s;
     noiseModel := noiseModel s; epsilon := epsilon s;
     results := results s; draws := draws s |}.

Definition set_activeCount (n : nat) (s : Sim) : Sim :=
  {| indices := indices s; amplitudes := amplitudes s;
     indicesAux := indicesAux s; amplitudesAux := amplitudesAux s;
     activeCount := n; qubitMap := qubitMap s;
     noiseModel := noiseModel s; epsilon := epsilon s;
     results := results s; draws := draws s |}.

Definition set_results (r : gmap JsVal Z) (s : Sim) : Sim :=
  {| indices := indices s; amplitudes := amplitudes s;
     indicesAux := indicesAux s; amplitudesAux := amplitudesAux s;
     activeCount := activeCount s; qubitMap := qubitMap s;
     noiseModel := noiseModel s; epsilon := epsilon s;
     results := r; draws := draws s |}.

Definition set_draws (n : nat) (s : Sim) : Sim :=
  {| indices := indices s; amplitudes := amplitudes s;
     indicesAux := indicesAux s; amplitudesAux := amplitudesAux s;
     activeCount := activeCount s; qubitMap := qubitMap s;
     noiseModel := noiseModel s; epsilon := epsilon s;
     results := results s; draws := n |}.

(** *** Typed arrays *)

(** A store into a [BigUint64Array] keeps the low 64 bits; a store past the
    end of a typed array does nothing. *)
Definition wrap64 (v : Z) : Z := (v mod 2 ^ 64)%Z.
Definition idx_store (buf : list Z) (i : nat) (v : Z) : list Z := <[i := wrap64 v]> buf.
Definition amp_store (buf : list float) (i : nat) (v : float) : list float := <[i := v]> buf.

(** Reads.  An index buffer is only read below [activeCount], which never
    exceeds its length; an amplitude read past the end is [undefined],
    NaN in the arithmetic that follows. *)
Definition idx_at (buf : list Z) (i : nat) : Z := nth i buf 0%Z.
Definition amp_at (buf : list float) (i : nat) : float := nth i buf nan.

(** [idx & bit] as a condition: a BigInt is truthy unless it is [0n]. *)
Definition bit_set (idx bit : Z) : bool := negb (Z.land idx bit =? 0)%Z.

(** [new Map(qubits.map((q, i) => [q, i]))]: a later entry replaces an
    earlier one with the same key. *)
Fixpoint positions (qubits : list JsVal) (i : nat) (m : gmap JsVal nat) : gmap JsVal nat :=
  match qubits with
  | [] => m
  | q :: rest => positions rest (S i) (<[q := i]> m)
  end.

(** The constructor.  [options.epsilon || null]: an override that is 0 or
    NaN is dropped. *)
Definition new (qubits : list JsVal) (noiseModel : option NoiseModel) (options : Options) : Sim :=
  let initialCapacity := (memoryBudget * 2)%nat in
  {| qubitMap := positions qubits 0 ∅;
     noiseModel := noiseModel;
     epsilon := match opt_epsilon options with
                | Some e => if truthy e then Some e else None
                | None => None
                end;
     indices := idx_store (replicate initialCapacity 0%Z) 0 0;
     amplitudes := amp_store (amp_store (replicate (initialCapacity * 2) 0%float) 0 1) 1 0;
     indicesAux := replicate initialCapacity 0%Z;
     amplitudesAux := replicate (initialCapacity * 2) 0%float;
     activeCount := 1;
     results := ∅;
     draws := 0 |}.

Definition ensureCapacity (required : nat) (s : Sim) : Sim :=
  if (length (indices s) <? required)%nat then
    let newSize := Nat.max (length (indices s) * 2) required in
    {| indices := indices s ++ replicate (newSize - length (indices s)) 0%Z;
       amplitudes := amplitudes s ++ replicate (newSize * 2 - length (amplitudes s)) 0%float;
       indicesAux := replicate newSize 0%Z;
       amplitudesAux := replicate (newSize * 2) 0%float;
       activeCount := activeCount s; qubitMap := qubitMap s;
       noiseModel := noiseModel s; epsilon := epsilon s;
       results := results s; draws := draws s |}
  else s.

Definition swapBuffers (s : Sim) : Sim :=
  {| indices := indicesAux s; amplitudes := amplitudesAux s;
     indicesAux := indices s; amplitudesAux := amplitudes s;
     activeCount := activeCount s; qubitMap := qubitMap s;
     noiseModel := noiseModel s; epsilon := epsilon s;
     results := results s; draws := draws s |}.

Definition overBudgetMultiplier (s : Sim) : float :=
  Math_max 1 (of_nat (activeCount s) / of_nat memoryBudget).

Definition getEffectiveEpsilon (s : Sim) : float :=
  match epsilon s with
  | Some e => e
  | None =>
      let currentPruneThreshold := (1e-15 * overBudgetMultiplier s)%float in
      (currentPruneThreshold * 100)%float
  end.

(** [1n << BigInt(this.#qubitMap.get(q))]: [BigInt(undefined)] throws. *)
Definition bitOf (q : JsVal) : M Sim Z :=
  fun s => match qubitMap s !! q with
           | Some pos => Ret (Z.shiftl 1 (Z.of_nat pos)) s
           | None => Throw TypeError s
           end.

(** |amp|² of the entry in slot [i]. *)
Definition magnitude (am : list float) (i : nat) : float :=
  (sq (amp_at am (i * 2)) + sq (amp_at am (i * 2 + 1)))%float.

Definition getProb1_from (s : Sim) (target : Z) : float :=
  foldl (fun prob1 i =>
           if bit_set (idx_at (indices s) i) target
           then (prob1 + magnitude (amplitudes s) i)%float
           else prob1)
        0%float (seq 0 (activeCount s)).

Definition getProb1 (qubitId : JsVal) : M Sim float :=
  let* target := bitOf qubitId in
  fun s => Ret (getProb1_from s target) s.

Definition isZero (qubitId : JsVal) : M Sim bool :=
  let* p := getProb1 qubitId in
  fun s => Ret (p <? getEffectiveEpsilon s)%float s.

Definition getResult (qubitId : JsVal) (s : Sim) : option Z := results s !! qubitId.

(** The loop of [#prune] and of [#collapse]: the entries that pass are
    moved down to the write position, in place. *)
Record Compact := { c_indices : list Z; c_amplitudes : list float; writeIdx : nat }.

Definition prune_entry (threshold : float) (c : Compact) (i : nat) : Compact :=
  if (threshold <=? magnitude (c_amplitudes c) i)%float then
    if (writeIdx c =? i)%nat then
      {| c_indices := c_indices c; c_amplitudes := c_amplitudes c;
         writeIdx := S (writeIdx c) |}
    else
      {| c_indices := idx_store (c_indices c) (writeIdx c) (idx_at (c_indices c) i);
         c_amplitudes :=
           amp_store
             (amp_store (c_amplitudes c) (writeIdx c * 2) (amp_at (c_amplitudes c) (i * 2)))
             (writeIdx c * 2 + 1) (amp_at (c_amplitudes c) (i * 2 + 1));
         writeIdx := S (writeIdx c) |}
  else c.

Definition prune (s : Sim) : Sim :=
  let threshold := (1e-15 * overBudgetMultiplier s)%float in
  let c := foldl (prune_entry threshold)
             {| c_indices := indices s; c_amplitudes := amplitudes s; writeIdx := 0 |}
             (seq 0 (activeCount s)) in
  set_activeCount (writeIdx c) (set_primary (c_indices c) (c_amplitudes c) s).

Definition collapse_entry (target : Z) (result : Z) (norm : float) (c : Compact) (i : nat)
    : Compact :=
  let isBitSet := bit_set (idx_at (c_indices c) i) target in
  if ((result =? 1)%Z && isBitSet) || ((result =? 0)%Z && negb isBitSet) then
    {| c_indices := idx_store (c_indices c) (writeIdx c) (idx_at (c_indices c) i);
       c_amplitudes :=
         amp_store
           (amp_store (c_amplitudes c) (writeIdx c * 2)
              (amp_at (c_amplitudes c) (i * 2) / norm))
           (writeIdx c * 2 + 1) ((amp_at (c_amplitudes c) (i * 2 + 1)) / norm);
       writeIdx := S (writeIdx c) |}
  else c.

Definition collapse (qubitId : JsVal) (result : Z) (prob1 : float) : M Sim unit :=
  let* target := bitOf qubitId in
  fun s =>
    let norm := if (result =? 1)%Z then Math_sqrt prob1 else Math_sqrt (1 - prob1) in
    let c := foldl (collapse_entry target result norm)
               {| c_indices := indices s; c_amplitudes := amplitudes s; writeIdx := 0 |}
               (seq 0 (activeCount s)) in
    Ret tt (set_activeCount (writeIdx c) (set_primary (c_indices c) (c_amplitudes c) s)).

Definition normalize (s : Sim) : Sim :=
  let normSq := foldl (fun acc i => (acc + magnitude (amplitudes s) i)%float)
                  0%float (seq 0 (activeCount s)) in
  let norm := Math_sqrt normSq in
  let am := foldl (fun am i =>
                     amp_store (amp_store am (i * 2) (amp_at am (i * 2) / norm))
                       (i * 2 + 1) (amp_at am (i * 2 + 1) / norm))
              (amplitudes s) (seq 0 (activeCount s)) in
  set_primary (indices s) am s.

(** [for (...) this.#indices[i] ^= bit] *)
Definition flip_all (bit : Z) (s : Sim) : Sim :=
  let ix := foldl (fun ix i => idx_store ix i (Z.lxor (idx_at ix i) bit))
              (indices s) (seq 0 (activeCount s)) in
  set_primary ix (amplitudes s) s.

(** [for (...) if (this.#indices[i] & bit) { both components *= k }] *)
Definition scale_ones (bit : Z) (k : float) (s : Sim) : Sim :=
  let am := foldl (fun am i =>
                     if bit_set (idx_at (indices s) i) bit then
                       amp_store (amp_store am (i * 2) (amp_at am (i * 2) * k))
                         (i * 2 + 1) (amp_at am (i * 2 + 1) * k)
                     else am)
              (amplitudes s) (seq 0 (activeCount s)) in
  set_primary (indices s) am s.

(** The locals of a gate application: the collision map and the number of
    slots of the scratch buffers handed out so far. *)
Record Scatter := { collisionMap : gmap Z nat; nextCount : nat }.

(** [#updateState] on the scratch amplitudes. *)
Definition updateState (buffer : list float) (bIdx : nat) (re im gRe gIm : float)
    : list float :=
  let buffer1 := amp_store buffer bIdx (amp_at buffer bIdx + (re * gRe - im * gIm)) in
  amp_store buffer1 (bIdx + 1) (amp_at buffer1 (bIdx + 1) + (re * gIm + im * gRe)).

(** [#accumulate], always called on the scratch buffers; [count] is the
    value of [nextCount++]. *)
Definition accumulate (cmap : gmap Z nat) (idx : Z) (re im : float) (count : nat) (s : Sim)
    : gmap Z nat * Sim :=
  let '(bPos, map1, s1) :=
    match cmap !! idx with
    | Some bPos => (bPos, cmap, s)
    | None =>
        (count, <[idx := count]> cmap,
         set_aux (idx_store (indicesAux s) count idx)
           (amp_store (amp_store (amplitudesAux s) (count * 2) 0) (count * 2 + 1) 0) s)
    end in
  let am1 := amp_store (amplitudesAux s1) (bPos * 2) (amp_at (amplitudesAux s1) (bPos * 2) + re) in
  let am2 := amp_store am1 (bPos * 2 + 1) (amp_at am1 (bPos * 2 + 1) + im) in
  (map1, set_aux (indicesAux s1) am2 s1).

Definition accumulate_next (idx : Z) (re im : float) (loc : Scatter) : M Sim Scatter :=
  fun s =>
    let '(map1, s1) := accumulate (collisionMap loc) idx re im (nextCount loc) s in
    Ret {| collisionMap := map1; nextCount := S (nextCount loc) |} s1.

(** The inner [for (row ...)] loop shared by the three gate applications:
    [targets] are the destination indices row by row, [width] the number of
    columns of the matrix.  A missing matrix throws when its first element
    is read, after the slot of the row has been claimed. *)
Fixpoint scatter (width col : nat) (re im : float) (matrix : option (list float))
    (row : nat) (targets : list Z) (loc : Scatter) : M Sim Scatter :=
  match targets with
  | [] => ret loc
  | tIdx :: rest =>
      let gIdx := ((row * width + col) * 2)%nat in
      fun s =>
        let '(bPos, loc1, s1) :=
          match collisionMap loc !! tIdx with
          | Some bPos => (bPos, loc, s)
          | None =>
              let bPos := nextCount loc in
              (bPos,
               {| collisionMap := <[tIdx := bPos]> (collisionMap loc);
                  nextCount := S bPos |},
               set_aux (idx_store (indicesAux s) bPos tIdx)
                 (amp_store (amp_store (amplitudesAux s) (bPos * 2) 0) (bPos * 2 + 1) 0) s)
          end in
        match matrix with
        | None => Throw TypeError s1
        | Some m =>
            scatter width col re im matrix (S row) rest loc1
              (set_aux (indicesAux s1)
                 (updateState (amplitudesAux s1) (bPos * 2) re im
                    (num_at m gIdx) (num_at m (gIdx + 1))) s1)
        end
  end.

(** A [for (let i = 0; i < this.#activeCount; i++)] loop with locals. *)
Fixpoint for_entries {L} (body : nat → L → M Sim L) (slots : list nat) (loc : L) : M Sim L :=
  match slots with
  | [] => ret loc
  | i :: rest => let* loc1 := body i loc in for_entries body rest loc1
  end.

Definition finish_gate (loc : Scatter) : M Sim unit :=
  fun s => Ret tt (prune (swapBuffers (set_activeCount (nextCount loc) s))).

Definition no_entries : Scatter := {| collisionMap := ∅; nextCount := 0 |}.

Section WithEngine.
Context `{Engine}.

(** [Math.random()] *)
Definition random : M Sim float :=
  fun s => Ret (Math_random (draws s)) (set_draws (S (draws s)) s).

Definition applyGate_entry (gateName : string) (targetBit : Z)
    (matrix : option (list float)) (i : nat) (loc : Scatter) : M Sim Scatter :=
  fun s =>
    let idx := idx_at (indices s) i in
    let re := amp_at (amplitudes s) (i * 2) in
    let im := amp_at (amplitudes s) (i * 2 + 1) in
    if String.eqb gateName "Z" then
      let sign := if bit_set idx targetBit then (-1)%float else 1%float in
      accumulate_next idx (re * sign) (im * sign) loc s
    else
      let isBitSet := bit_set idx targetBit in
      let base := Z.land idx (Z.lnot targetBit) in
      let col := if isBitSet then 1 else 0 in
      let targets := [base; Z.lor base targetBit] in
      scatter 2 col re im matrix 0 targets loc s.

Definition applyGate (gateName : string) (qubitId : JsVal) (params : list float)
    : M Sim unit :=
  let* targetBit := bitOf qubitId in
  let matrix := Gates.matrix_of gateName params in
  let* _ := modify (fun s => ensureCapacity (activeCount s * 2) s) in
  let* n := (fun s => Ret (activeCount s) s) in
  let* loc := for_entries (applyGate_entry gateName targetBit matrix) (seq 0 n) no_entries in
  finish_gate loc.

Definition apply2QubitGate_entry (gateName : string) (bit1 bit2 : Z)
    (matrix : option (list float)) (i : nat) (loc : Scatter) : M Sim Scatter :=
  fun s =>
    let mask := Z.lor bit1 bit2 in
    let idx := idx_at (indices s) i in
    let re := amp_at (amplitudes s) (i * 2) in
    let im := amp_at (amplitudes s) (i * 2 + 1) in
    if String.eqb gateName "CZ" then
      let sign := if (Z.land idx mask =? mask)%Z then (-1)%float else 1%float in
      accumulate_next idx (re * sign) (im * sign) loc s
    else if String.eqb gateName "CNOT" || String.eqb gateName "SWAP" then
      let nextIdx :=
        if String.eqb gateName "CNOT" then
          if bit_set idx bit1 then Z.lxor idx bit2 else idx
        else
          if negb (Bool.eqb (bit_set idx bit1) (bit_set idx bit2))
          then Z.lxor idx mask else idx in
      accumulate_next nextIdx re im loc s
    else
      let col := ((if bit_set idx bit1 then 2 else 0) + (if bit_set idx bit2 then 1 else 0))%nat in
      let base := Z.land idx (Z.lnot mask) in
      let offsets := [0%Z; bit2; bit1; mask] in
      scatter 4 col re im matrix 0 (map (Z.lor base) offsets) loc s.

Definition apply2QubitGate (gateName : string) (q1 q2 : JsVal) (params : list float)
    : M Sim unit :=
  let* bit1 := bitOf q1 in
  let* bit2 := bitOf q2 in
  let matrix := Gates.matrix_of gateName params in
  let* _ := modify (fun s => ensureCapacity (activeCount s * 4) s) in
  let* n := (fun s => Ret (activeCount s) s) in
  let* loc := for_entries (apply2QubitGate_entry gateName bit1 bit2 matrix) (seq 0 n) no_entries in
  finish_gate loc.

Definition apply3QubitGate_entry (bit1 bit2 bit3 : Z)
    (matrix : option (list float)) (i : nat) (loc : Scatter) : M Sim Scatter :=
  fun s =>
    let mask := Z.lor (Z.lor bit1 bit2) bit3 in
    let idx := idx_at (indices s) i in
    let re := amp_at (amplitudes s) (i * 2) in
    let im := amp_at (amplitudes s) (i * 2 + 1) in
    let col := ((if bit_set idx bit1 then 4 else 0) + (if bit_set idx bit2 then 2 else 0)
                + (if bit_set idx bit3 then 1 else 0))%nat in
    let base := Z.land idx (Z.lnot mask) in
    let offsets := [0%Z; bit3; bit2; Z.lor bit2 bit3; bit1; Z.lor bit1 bit3;
                    Z.lor bit1 bit2; mask] in
    scatter 8 col re im matrix 0 (map (Z.lor base) offsets) loc s.

Definition apply3QubitGate (gateName : string) (q1 q2 q3 : JsVal) (params : list float)
    : M Sim unit :=
  let* bit1 := bitOf q1 in
  let* bit2 := bitOf q2 in
  let* bit3 := bitOf q3 in
  let matrix := Gates.matrix_of gateName params in
  let* _ := modify (fun s => ensureCapacity (activeCount s * 8) s) in
  let* n := (fun s => Ret (activeCount s) s) in
  let* loc := for_entries (apply3QubitGate_entry bit1 bit2 bit3 matrix) (seq 0 n) no_entries in
  finish_gate loc.

Definition measure (qubitId : JsVal) : M Sim Z :=
  let* prob1 := getProb1 qubitId in
  let* noisy := (fun s => Ret (noiseModel s) s) in
  let* prob1 :=
    match noisy with
    | Some nm =>
        let* r := random in
        ret (if (r <? readoutError nm)%float then (1 - prob1)%float else prob1)
    | None => ret prob1
    end in
  let* u := random in
  let result := if (u <? prob1)%float then 1%Z else 0%Z in
  let* _ := collapse qubitId result prob1 in
  ret result.

(** The body of the [forEach] of [#applyStochasticNoise]. *)
Definition noise_on (nm : NoiseModel) (q : JsVal) : M Sim unit :=
  let* bit := bitOf q in
  let* r := random in
  let* _ := (if (r <? gateError nm)%float then modify (flip_all bit) else ret tt) in
  let* r2 := random in
  let* _ := (if (r2 <? t2 nm)%float then modify (scale_ones bit (-1)) else ret tt) in
  if (0 <? t1 nm)%float then
    let* p1 := getProb1 q in
    let jumpProb := (t1 nm * p1)%float in
    let* r3 := random in
    if (r3 <? jumpProb)%float then
      let* _ := collapse q 1 p1 in
      modify (flip_all bit)
    else
      let scale := Math_sqrt (1 - t1 nm) in
      let* _ := modify (scale_ones bit scale) in
      modify normalize
  else ret tt.

(** [#applyStochasticNoise]; reading the fields of a missing noise model
    throws. *)
Definition applyStochasticNoise (qubit : QubitRef) : M Sim unit :=
  let targetQubits := match qubit with QArr l => l | QVal v => [v] end in
  let* noisy := (fun s => Ret (noiseModel s) s) in
  match noisy with
  | Some nm => forEach targetQubits (noise_on nm)
  | None => throw TypeError
  end.

Definition condition_holds (c : Cond) (s : Sim) : bool :=
  bool_decide (results s !! cqubit c = cvalue c).

(** One turn of the loop of [run], given how to run a body. *)
Definition run_op (run_body : list Instr → M Sim unit) (while_fuel : nat) (op : Instr)
    : M Sim unit :=
  let* shouldApplyNoise := (fun s => Ret (bool_decide (is_Some (noiseModel s))) s) in
  let params := default [] (params op) in
  if String.eqb (gate op) "IF" then
    match condition op with
    | None => throw TypeError
    | Some c =>
        let* holds := (fun s => Ret (condition_holds c s) s) in
        if holds then
          match body op with
          | Some b => run_body b
          | None => throw TypeError
          end
        else ret tt
    end
  else if String.eqb (gate op) "WHILE" then
    match condition op with
    | None => throw TypeError
    | Some c =>
        (fix iterate (n : nat) : M Sim unit :=
           let* holds := (fun s => Ret (condition_holds c s) s) in
           if holds then
             match n with
             | 0 => fun _ => OutOfFuel
             | S n' =>
                 match body op with
                 | Some b => let* _ := run_body b in iterate n'
                 | None => throw TypeError
                 end
             end
           else ret tt) while_fuel
    end
  else
    let* shouldApplyNoise :=
      match qubit op with
      | QArr l =>
          if (length l =? 3)%nat then
            let* _ := apply3QubitGate (gate op) (nth 0 l VUndef) (nth 1 l VUndef)
                        (nth 2 l VUndef) params in
            ret shouldApplyNoise
          else
            let* _ := apply2QubitGate (gate op) (nth 0 l VUndef) (nth 1 l VUndef) params in
            ret shouldApplyNoise
      | QVal q =>
          if String.eqb (gate op) "RESET" then
            let* res := measure q in
            let* _ := (if (res =? 1)%Z then applyGate "X" q [] else ret tt) in
            let* _ := modify prune in
            ret false
          else if String.eqb (gate op) "MEASURE" then
            let* res := measure q in
            let* _ := modify (fun s => set_results (<[q := res]> (results s)) s) in
            let* _ := modify prune in
            ret false
          else
            let* _ := applyGate (gate op) q params in
            ret shouldApplyNoise
      end in
    if shouldApplyNoise then
      let* _ := applyStochasticNoise (qubit op) in
      modify prune
    else ret tt.

(** [run].  The recursion into bodies and the [while] loops are bounded
    by [fuel]; a run that needs more ends in [OutOfFuel]. *)
Fixpoint run (fuel : nat) (instructions : list Instr) : M Sim unit :=
  match fuel with
  | 0 => fun _ => OutOfFuel
  | S fuel' => forEach instructions (run_op (run fuel') fuel')
  end.

End WithEngine.

End Simulator.

(** ** The qubit manager (src/api/qubit-manager.js) *)

Module QubitManager.

(** The registry, and the number of symbols minted so far: symbols are
    numbered in the order of their creation. *)
Record Manager := { registry : gset JsVal; minted : nat }.

Definition empty : Manager := {| registry := ∅; minted := 0 |}.

Definition allocate : M Manager JsVal :=
  fun mgr =>
    let id := VSym (minted mgr) in
    Ret id {| registry := {[id]} ∪ registry mgr; minted := S (minted mgr) |}.

Definition isAllocated (id : JsVal) (mgr : Manager) : bool :=
  bool_decide (id ∈ registry mgr).

(** [release(id, simulator)]: whatever [simulator.isZero] throws goes
    through. *)
Definition release (id : JsVal) (simulator : Simulator.Sim) : M Manager unit :=
  fun mgr =>
    match Simulator.isZero id simulator with
    | Ret zero _ =>
        if negb zero then Throw (FatalError id) mgr
        else Ret tt {| registry := registry mgr ∖ {[id]}; minted := minted mgr |}
    | Throw e _ => Throw e mgr
    | OutOfFuel => OutOfFuel
    end.

End QubitManager.

(** ** The objects of a scope *)

Module World.

(** The objects user code and the recorder share: the [Circuit] objects
    by identity, the module-wide manager, the simulator of the scope, and the
    number of [Date.now()] calls so far. *)
Record World := {
  circuits : gmap nat Circuit;
  manager : QubitManager.Manager;
  sim : Simulator.Sim;
  clock : nat;
}.

Definition set_circuits (c : gmap nat Circuit) (w : World) : World :=
  {| circuits := c; manager := manager w; sim := sim w; clock := clock w |}.
Definition set_manager (m : QubitManager.Manager) (w : World) : World :=
  {| circuits := circuits w; manager := m; sim := sim w; clock := clock w |}.
Definition set_sim (s : Simulator.Sim) (w : World) : World :=
  {| circuits := circuits w; manager := manager w; sim := s; clock := clock w |}.
Definition set_clock (n : nat) (w : World) : World :=
  {| circuits := circuits w; manager := manager w; sim := sim w; clock := n |}.

(** A method call on the simulator, or on the manager, of the world. *)
Definition on_sim {A} (m : M Simulator.Sim A) : M World A :=
  fun w => match m (sim w) with
           | Ret a s => Ret a (set_sim s w)
           | Throw e s => Throw e (set_sim s w)
           | OutOfFuel => OutOfFuel
           end.

Definition on_manager {A} (m : M QubitManager.Manager A) : M World A :=
  fun w => match m (manager w) with
           | Ret a s => Ret a (set_manager s w)
           | Throw e s => Throw e (set_manager s w)
           | OutOfFuel => OutOfFuel
           end.

(** [new Circuit()]: a circuit object nobody else holds. *)
Definition newCircuit : M World nat :=
  fun w =>
    let id := fresh (dom (circuits w)) in
    Ret id (set_circuits (<[id := []]> (circuits w)) w).

Definition instructions_of (circuit : nat) (w : World) : list Instr :=
  getInstructions (default [] (circuits w !! circuit)).

Section WithEngine.
Context `{Engine}.

(** [circuit.addOp(gate, qubit, options)] *)
Definition addOp (circuit : nat) (g : string) (q : QubitRef) (ps : option (list float))
    (c : option Cond) (b : option (list Instr)) : M World unit :=
  fun w =>
    let now := Date_now (clock w) in
    let ops := default [] (circuits w !! circuit) in
    Ret tt (set_clock (S (clock w))
              (set_circuits (<[circuit := addOp_with g q (default [] ps) c b now ops]>
                               (circuits w)) w)).

End WithEngine.

Definition clearCircuit (circuit : nat) : M World unit :=
  modify (fun w => set_circuits (<[circuit := clear (default [] (circuits w !! circuit))]>
                                   (circuits w)) w).

End World.
Export World.

(** ** The operation recorder (src/api/operations.js) *)

Module Operations.

(** What [createOperations(circuit, manager, onFlush)] closes over; the
    manager is the one of the world. *)
Record Recorder := {
  circuit : nat;
  onFlush : JsVal → M World (option Z);
}.

Definition validate (q : JsVal) : M World unit :=
  fun w =>
    if QubitManager.isAllocated q (manager w) then Ret tt w
    else Throw (UsageError q) w.

Section WithEngine.
Context `{Engine}.

Definition gate1 (name : string) (r : Recorder) (q : JsVal) : M World unit :=
  let* _ := validate q in
  addOp (circuit r) name (QVal q) None None None.

Definition h := gate1 "H".
Definition x := gate1 "X".
Definition y := gate1 "Y".
Definition z := gate1 "Z".
Definition s := gate1 "S".
Definition t := gate1 "T".

Definition rotation (name : string) (r : Recorder) (q : JsVal) (theta : float)
    : M World unit :=
  let* _ := validate q in
  addOp (circuit r) name (QVal q) (Some [theta]) None None.

Definition rx := rotation "RX".
Definition ry := rotation "RY".
Definition rz := rotation "RZ".

Definition u3 (r : Recorder) (q : JsVal) (theta phi lambda : float) : M World unit :=
  let* _ := validate q in
  addOp (circuit r) "U3" (QVal q) (Some [theta; phi; lambda]) None None.

Definition cnot (r : Recorder) (ctrl trgt : JsVal) : M World unit :=
  let* _ := validate ctrl in
  let* _ := validate trgt in
  if bool_decide (ctrl = trgt) then throw (PhysicsError ctrl)
  else addOp (circuit r) "CNOT" (QArr [ctrl; trgt]) None None None.

Definition cz (r : Recorder) (ctrl trgt : JsVal) : M World unit :=
  let* _ := validate ctrl in
  let* _ := validate trgt in
  if bool_decide (ctrl = trgt) then throw (PhysicsError ctrl)
  else addOp (circuit r) "CZ" (QArr [ctrl; trgt]) None None None.

Definition rzz (r : Recorder) (q1 q2 : JsVal) (theta : float) : M World unit :=
  let* _ := validate q1 in
  let* _ := validate q2 in
  addOp (circuit r) "RZZ" (QArr [q1; q2]) (Some [theta]) None None.

Definition swap (r : Recorder) (q1 q2 : JsVal) : M World unit :=
  let* _ := validate q1 in
  let* _ := validate q2 in
  if bool_decide (q1 = q2) then throw SwapSelfError
  else addOp (circuit r) "SWAP" (QArr [q1; q2]) None None None.

Definition ccx (r : Recorder) (c1 c2 trgt : JsVal) : M World unit :=
  let* _ := validate c1 in
  let* _ := validate c2 in
  let* _ := validate trgt in
  addOp (circuit r) "CCX" (QArr [c1; c2; trgt]) None None None.

Definition reset (r : Recorder) (q : JsVal) : M World unit :=
  let* _ := validate q in
  addOp (circuit r) "RESET" (QVal q) None None None.

(** [if] and [while]: the callback is user code; it is handed the
    recorder of a new circuit, with the same flush hook. *)
Definition block (name : string) (r : Recorder) (qubit : JsVal) (value : option Z)
    (callback : Recorder → M World unit) : M World unit :=
  let* _ := validate qubit in
  let* subCircuit := newCircuit in
  let subOps := {| circuit := subCircuit; onFlush := onFlush r |} in
  let* _ := callback subOps in
  let* body := (fun w => Ret (instructions_of subCircuit w) w) in
  addOp (circuit r) name (QVal VNull) None
    (Some {| cqubit := qubit; cvalue := value |}) (Some body).

Definition if_ := block "IF".
Definition while_ := block "WHILE".

Definition m (r : Recorder) (q : JsVal) : M World (option Z) :=
  let* _ := validate q in
  let* _ := addOp (circuit r) "MEASURE" (QVal q) None None None in
  onFlush r q.

(** A call [ops.name(...args)] as a value, and the method it invokes. *)
Inductive Call :=
| call_h (q : JsVal)
| call_x (q : JsVal)
| call_y (q : JsVal)
| call_z (q : JsVal)
| call_s (q : JsVal)
| call_t (q : JsVal)
| call_rx (q : JsVal) (theta : float)
| call_ry (q : JsVal) (theta : float)
| call_rz (q : JsVal) (theta : float)
| call_u3 (q : JsVal) (theta phi lambda : float)
| call_cnot (ctrl trgt : JsVal)
| call_cz (ctrl trgt : JsVal)
| call_rzz (q1 q2 : JsVal) (theta : float)
| call_swap (q1 q2 : JsVal)
| call_ccx (c1 c2 trgt : JsVal)
| call_reset (q : JsVal)
| call_if (qubit : JsVal) (value : option Z) (callback : Recorder → M World unit)
| call_while (qubit : JsVal) (value : option Z) (callback : Recorder → M World unit)
| call_m (q : JsVal).

Definition void (m : M World unit) : M World (option Z) :=
  let* _ := m in ret None.

Definition invoke (r : Recorder) (c : Call) : M World (option Z) :=
  match c with
  | call_h q => void (h r q)
  | call_x q => void (x r q)
  | call_y q => void (y r q)
  | call_z q => void (z r q)
  | call_s q => void (s r q)
  | call_t q => void (t r q)
  | call_rx q theta => void (rx r q theta)
  | call_ry q theta => void (ry r q theta)
  | call_rz q theta => void (rz r q theta)
  | call_u3 q theta phi lambda => void (u3 r q theta phi lambda)
  | call_cnot ctrl trgt => void (cnot r ctrl trgt)
  | call_cz ctrl trgt => void (cz r ctrl trgt)
  | call_rzz q1 q2 theta => void (rzz r q1 q2 theta)
  | call_swap q1 q2 => void (swap r q1 q2)
  | call_ccx c1 c2 trgt => void (ccx r c1 c2 trgt)
  | call_reset q => void (reset r q)
  | call_if qubit value callback => void (if_ r qubit value callback)
  | call_while qubit value callback => void (while_ r qubit value callback)
  | call_m q => m r q
  end.

End WithEngine.

(** The handles a call refers to, in the order the method validates them. *)
Definition handles (c : Call) : list JsVal :=
  match c with
  | call_h q | call_x q | call_y q | call_z q | call_s q | call_t q
  | call_rx q _ | call_ry q _ | call_rz q _ | call_u3 q _ _ _
  | call_reset q | call_m q => [q]
  | call_if q _ _ | call_while q _ _ => [q]
  | call_cnot a b | call_cz a b | call_rzz a b _ | call_swap a b => [a; b]
  | call_ccx a b c => [a; b; c]
  end.

(** The check of a call that fails first, if one does: a referenced handle
    that is not allocated, then control = target for [cnot] and [cz], the
    two qubits of a [swap] being the same. *)
Definition failed_check (c : Call) (mgr : QubitManager.Manager) : option error :=
  match find (fun q => negb (QubitManager.isAllocated q mgr)) (handles c) with
  | Some q => Some (UsageError q)
  | None =>
      match c with
      | call_cnot ctrl trgt | call_cz ctrl trgt =>
          if bool_decide (ctrl = trgt) then Some (PhysicsError ctrl) else None
      | call_swap q1 q2 => if bool_decide (q1 = q2) then Some SwapSelfError else None
      | _ => None
      end
  end.

(** The calls that run no user callback and no flush hook. *)
Definition records_one (c : Call) : bool :=
  match c with
  | call_if _ _ _ | call_while _ _ _ | call_m _ => false
  | _ => true
  end.

End Operations.

(** ** The scope entry point (src/index.js) *)

Module Q.

Section WithEngine.
Context `{Engine}.

(** The flush hook of a scope.  [fuel] bounds the run of the compiled
    program.  When the run throws, the buffer is left as it was
    recorded: what [prune] rewrote in place in the recorded objects is
    not carried back into it. *)
Definition flush (fuel : nat) (circuit : nat) (measureQubit : JsVal)
    : M World (option Z) :=
  let* ir := (fun w => Ret (instructions_of circuit w) w) in
  match Compiler.compile ir with
  | None => throw TypeError
  | Some compiled =>
      let* _ := on_sim (Simulator.run fuel compiled) in
      let* _ := clearCircuit circuit in
      match measureQubit with
      | VSym _ => fun w => Ret (Simulator.getResult measureQubit (sim w)) w
      | _ => ret None
      end
  end.

Fixpoint allocate_all (count : nat) : M World (list JsVal) :=
  match count with
  | 0 => ret []
  | S n =>
      let* q := on_manager QubitManager.allocate in
      let* qs := allocate_all n in
      ret (q :: qs)
  end.

Definition release_in_world (q : JsVal) : M World unit :=
  fun w => on_manager (QubitManager.release q (sim w)) w.

(** [try { body } finally { cleanup }] *)
Definition try_finally (body cleanup : M World unit) : M World unit :=
  fun w =>
    match body w with
    | Ret _ w1 => cleanup w1
    | Throw e w1 =>
        match cleanup w1 with
        | Ret _ w2 => Throw e w2
        | other => other
        end
    | OutOfFuel => OutOfFuel
    end.

(** [Q.use(count, callback, noiseModel)], one scope at a time: the world
    holds the simulator of the scope that is open, where the source
    closes over one simulator a scope, so a [Q.use] called from inside
    the callback of another is not modelled. *)
Definition use (fuel : nat) (count : nat)
    (callback : list JsVal → Operations.Recorder → M World unit)
    (noiseModel : option Simulator.NoiseModel) : M World unit :=
  let* qubits := allocate_all count in
  let* _ := modify (set_sim (Simulator.new qubits noiseModel
                               {| Simulator.opt_epsilon := None |})) in
  let* circuit := newCircuit in
  let ops := {| Operations.circuit := circuit;
                Operations.onFlush := flush fuel circuit |} in
  try_finally (callback qubits ops)
    (let* _ := flush fuel circuit VNull in
     forEach qubits release_in_world).

End WithEngine.

End Q.

(** ** Sample engines *)

Module Samples.

(** Truncated power series stand in for the engine's [Math.cos] and
    [Math.sin]; [terms] terms of each are summed. *)
Fixpoint series (terms : nat) (x2 term : float) (k : Z) (acc : float) : float :=
  match terms with
  | 0 => acc
  | S n =>
      let next := (- term * x2 / (of_uint63 (Uint63.of_Z ((k + 1) * (k + 2)))))%float in
      series n x2 next (k + 2) (acc + next)%float
  end.

Definition cos_series (x : float) : float := series 12 (x * x) 1 0 1.
Definition sin_series (x : float) : float := series 12 (x * x) x 1 x.

(** An engine whose [Math.random()] always yields [r], and whose clock
    ticks once per reading. *)
Definition constant_engine (r : float) : Engine :=
  {| Math_cos := cos_series;
     Math_sin := sin_series;
     Math_random := fun _ => r;
     Date_now := fun i => Z.of_nat i |}.

(** An engine that replays the given values of [Math.random()], then 0. *)
Definition replay_engine (values : list float) : Engine :=
  {| Math_cos := cos_series;
     Math_sin := sin_series;
     Math_random := fun i => nth i values 0%float;
     Date_now := fun i => Z.of_nat i |}.

Definition no_options : Simulator.Options := {| Simulator.opt_epsilon := None |}.

(** Instructions the way the tests write them: a gate and a qubit. *)
Definition on (g : string) (q : JsVal) : Instr := MkInstr g (QVal q) None None None None.
Definition on2 (g : string) (q1 q2 : JsVal) : Instr :=
  MkInstr g (QArr [q1; q2]) None None None None.

End Samples.

(** ** The algorithm library (src/api/algorithms.js) *)

Module Algorithms.
Import Operations.

(** [qubits[i]]: [undefined] past the end of the array. *)
Definition at_index (qubits : list JsVal) (i : nat) : JsVal := nth i qubits VUndef.

(** [for (let i = a; i < b; i++) body(i)] on integers. *)
Definition for_range (a b : nat) (body : nat → M World unit) : M World unit :=
  forEach (seq a (b - a)) body.

(** [for (let i = b - 1; i >= a; i--) body(i)] on integers. *)
Definition for_range_down (a b : nat) (body : nat → M World unit) : M World unit :=
  forEach (rev (seq a (b - a))) body.

(** A [forEach] whose callback advances a counter that lives outside
    it. *)
Fixpoint forEach_counting {A} (l : list A) (f : A → nat → M World nat) (count : nat)
    : M World nat :=
  match l with
  | [] => ret count
  | x :: rest => let* count1 := f x count in forEach_counting rest f count1
  end.

Section WithEngine.
Context `{Engine}.

(** [Math.pow]: ECMAScript leaves its values to the implementation. *)
Context (Math_pow : float → float → float).

(** [vqeAnsatz(qops, qubits, params)]: two layers of RY and RZ on every
    qubit, each followed by a chain of CNOTs.  [params[pIdx++]] past the
    end of [params] is [undefined], NaN in every use made of it. *)
Definition vqeAnsatz_layer (qops : Recorder) (qubits : list JsVal) (params : list float)
    (pIdx : nat) : M World nat :=
  let* pIdx :=
    forEach_counting qubits
      (fun q pIdx =>
         let* _ := ry qops q (num_at params pIdx) in
         let* _ := rz qops q (num_at params (pIdx + 1)) in
         ret (pIdx + 2))
      pIdx in
  let* _ := for_range 0 (length qubits - 1)
              (fun i => cnot qops (at_index qubits i) (at_index qubits (i + 1))) in
  ret pIdx.

Definition vqeAnsatz (qops : Recorder) (qubits : list JsVal) (params : list float)
    : M World unit :=
  let* pIdx := vqeAnsatz_layer qops qubits params 0 in
  let* _ := vqeAnsatz_layer qops qubits params pIdx in
  ret tt.

(** [qaoaLayer(qops, qubits, edges, gamma, beta)]; an edge is an array
    of two qubits. *)
Definition qaoaLayer (qops : Recorder) (qubits : list JsVal) (edges : list (JsVal * JsVal))
    (gamma beta : float) : M World unit :=
  let* _ := forEach edges
              (fun edge =>
                 let u := fst edge in
                 let v := snd edge in
                 let* _ := cnot qops u v in
                 let* _ := rz qops v (2 * gamma) in
                 cnot qops u v) in
  forEach qubits (fun q => rx qops q (2 * beta)).

(** The controlled phase of [qft] and [inverseQft], by three U3 and two
    CNOT. *)
Definition controlled_phase (qops : Recorder) (qi qj : JsVal) (theta : float)
    : M World unit :=
  let* _ := u3 qops qi 0 0 (theta / 2) in
  let* _ := cnot qops qi qj in
  let* _ := u3 qops qj 0 0 (- theta / 2) in
  let* _ := cnot qops qi qj in
  u3 qops qj 0 0 (theta / 2).

(** [qft(qops, qubits)] *)
Definition qft (qops : Recorder) (qubits : list JsVal) : M World unit :=
  let n := length qubits in
  let* _ := for_range 0 n
              (fun i =>
                 let* _ := h qops (at_index qubits i) in
                 for_range (i + 1) n
                   (fun j =>
                      let theta := (Math_PI / Math_pow 2 (of_nat (j - i)))%float in
                      controlled_phase qops (at_index qubits i) (at_index qubits j) theta)) in
  for_range 0 (n / 2)
    (fun i => swap qops (at_index qubits i) (at_index qubits (n - 1 - i))).

(** [inverseQft(qops, qubits)] *)
Definition inverseQft (qops : Recorder) (qubits : list JsVal) : M World unit :=
  let n := length qubits in
  let* _ := for_range 0 (n / 2)
              (fun i => swap qops (at_index qubits i) (at_index qubits (n - 1 - i))) in
  for_range_down 0 n
    (fun i =>
       let* _ := for_range_down (i + 1) n
                   (fun j =>
                      let theta := (- Math_PI / Math_pow 2 (of_nat (j - i)))%float in
                      controlled_phase qops (at_index qubits i) (at_index qubits j) theta) in
       h qops (at_index qubits i)).

End WithEngine.

End Algorithms.

(** * What is stated about the program *)

(** The vocabulary of the statements below: relations between states,
    invariants of the simulator, and the shapes of its inputs. *)

Module Properties.
Import Simulator.

(** The gates the switch of [decompose] has a case for. *)
Definition decomposed_gates : list string :=
  ["H"; "X"; "Y"; "Z"; "RX"; "RY"; "RZ"; "SWAP"; "CZ"].

(** The operation ends, and the state it ends in, returned or thrown from,
    is related to the state it started in. *)
Definition keeps {A} (R : Sim → Sim → Prop) (m : M Sim A) : Prop :=
  ∀ s, match m s with
       | Ret _ s' | Throw _ s' => R s s'
       | OutOfFuel => False
       end.

(** The fields no operation but the constructor writes, and the result
    cache. *)
Definition same_setup (s s' : Sim) : Prop :=
  qubitMap s' = qubitMap s ∧ noiseModel s' = noiseModel s ∧ epsilon s' = epsilon s.

Definition same_cache (s s' : Sim) : Prop :=
  same_setup s s' ∧ results s' = results s.

(** The default of the effective epsilon, in the order the code multiplies. *)
Definition default_epsilon (activeCount : nat) : float :=
  (1e-15 * Math_max 1 (of_nat activeCount / of_nat 5000) * 100)%float.

(** [Math.random()] yields a number in [0, 1). *)
Definition unit_interval (r : float) : Prop :=
  (0 <=? r)%float = true ∧ (r <? 1)%float = true.

Definition uniform_source (E : Engine) : Prop := ∀ i, unit_interval (Math_random i).

(** The saturated profile: a gate error of 1, everything else 0. *)
Definition saturated_gate_error : NoiseModel :=
  NoiseModel_new (Some 1%float) None None None.

(** On a simulator that knows the qubit [q], the operation returns. *)
Definition succeeds (q : JsVal) {A} (m : M Sim A) : Prop :=
  ∀ s, is_Some (qubitMap s !! q) → ∃ a s', m s = Ret a s' ∧ same_cache s s'.

(** What a [BigUint64Array] holds. *)
Definition in_range (v : Z) : Prop := (0 ≤ v < 2 ^ 64)%Z.

(** The bit of a position: [1n << BigInt(pos)]. *)
Definition bit_at (pos : nat) : Z := Z.shiftl 1 (Z.of_nat pos).

(** The index map of the CNOT fast path, control bit and target bit. *)
Definition cnot_index (bit1 bit2 idx : Z) : Z :=
  if bit_set idx bit1 then Z.lxor idx bit2 else idx.

(** The index map of the SWAP fast path. *)
Definition swap_index (bit1 bit2 idx : Z) : Z :=
  if negb (Bool.eqb (bit_set idx bit1) (bit_set idx bit2))
  then Z.lxor idx (Z.lor bit1 bit2) else idx.

(** The basis indices of the active entries. *)
Definition active (s : Sim) : list Z := take (activeCount s) (indices s).

(** What every operation maintains on a simulator of at most 64 qubits. *)
Record well_formed (s : Sim) : Prop := {
  wf_count : activeCount s ≤ length (indices s);
  wf_aux : length (indicesAux s) = length (indices s);
  wf_range : Forall in_range (indices s);
  wf_range_aux : Forall in_range (indicesAux s);
  wf_positions : ∀ q pos, qubitMap s !! q = Some pos → pos < 64;
  wf_injective : ∀ q1 q2 pos,
      qubitMap s !! q1 = Some pos → qubitMap s !! q2 = Some pos → q1 = q2;
  wf_distinct : NoDup (active s);
}.

(** One turn of a compaction loop either skips the entry in slot [k] or
    copies its index down to the write position. *)
Definition moves_down (c c' : Compact) (k : nat) : Prop :=
  (c_indices c' = c_indices c ∧ writeIdx c' = writeIdx c)
  ∨ (c_indices c' = <[writeIdx c := idx_at (c_indices c) k]> (c_indices c)
     ∧ writeIdx c' = S (writeIdx c)).

(** The state a compaction loop leaves behind. *)
Definition compacted (c : Compact) (s : Sim) : Sim :=
  set_activeCount (writeIdx c) (set_primary (c_indices c) (c_amplitudes c) s).

(** The divergence allowed to [run] is [D]; everything else ends. *)
Definition maintains (D : Prop) {A} (m : M Sim A) : Prop :=
  ∀ s, well_formed s →
       match m s with
       | Ret _ s' | Throw _ s' => well_formed s'
       | OutOfFuel => D
       end.

(** Only the scratch buffers have been written. *)
Definition aux_only (s s' : Sim) : Prop :=
  indices s' = indices s ∧ activeCount s' = activeCount s ∧ qubitMap s' = qubitMap s
  ∧ length (indicesAux s') = length (indicesAux s).

(** The collision map and the scratch indices agree: a key owns the slot
    the map gives it, and every slot handed out so far is owned. *)
Record scatter_ok (loc : Scatter) (aux : list Z) : Prop := {
  so_slots : ∀ k p, collisionMap loc !! k = Some p → p < nextCount loc ∧ aux !! p = Some k;
  so_owned : ∀ p, p < nextCount loc → ∃ k, collisionMap loc !! k = Some p;
}.

(** What the loop over the entries of a gate application leaves in the
    scratch buffers. *)
Definition loop_ok {A} (s1 : Sim) (o : outcome Sim A) (count : A → nat) : Prop :=
  match o with
  | Ret loc st =>
      aux_only s1 st ∧ NoDup (take (count loc) (indicesAux st))
      ∧ Forall in_range (indicesAux st) ∧ count loc ≤ length (indicesAux st)
  | Throw _ st => aux_only s1 st ∧ Forall in_range (indicesAux st)
  | OutOfFuel => False
  end.

(** A CNOT instruction that goes to [apply2QubitGate] names two
    different qubits. *)
Definition cnot_here (g : string) (q : QubitRef) : bool :=
  if String.eqb g "CNOT" then
    match q with
    | QArr l => (length l =? 3)%nat || negb (bool_decide (nth 0 l VUndef = nth 1 l VUndef))
    | QVal _ => true
    end
  else true.

(** The same of every instruction [run] can reach: the bodies of IF and
    WHILE instructions are looked into. *)
Fixpoint cnot_ok (op : Instr) : bool :=
  match op with
  | MkInstr g q _ _ b _ =>
      cnot_here g q
      && (if String.eqb g "IF" || String.eqb g "WHILE" then
            match b with
            | Some l => forallb cnot_ok l
            | None => true
            end
          else true)
  end.

(** The call ends, returning or throwing, and leaves the simulator in
    the state [s']. *)
Definition leaves {A} (o : outcome Sim A) (s' : Sim) : Prop :=
  ends_in o (fun s => s = s').

(** What [addOp] leaves behind. *)
Definition recorded (circuit : nat) (op : Instr) (w : World.World) : World.World :=
  World.set_clock (S (World.clock w))
    (World.set_circuits (<[circuit := default [] (World.circuits w !! circuit) ++ [op]]> (World.circuits w)) w).

Section WithEngine.
Context `{Engine}.

(** RESET as [measure; apply X if the result was 1; prune]. *)
Definition reset_steps (q : JsVal) : M Sim unit :=
  let* res := measure q in
  let* _ := (if (res =? 1)%Z then applyGate "X" q [] else ret tt) in
  modify prune.

(** MEASURE as [measure; cache the result; prune]. *)
Definition measure_steps (q : JsVal) : M Sim unit :=
  let* res := measure q in
  let* _ := modify (fun s => set_results (<[q := res]> (results s)) s) in
  modify prune.

(** The states of a simulator of at most 64 qubits: the one the
    constructor builds, and the one each state-mutating method leaves
    behind, whether it returns or throws.  A CNOT names two different
    qubits, in a direct call as in the instructions given to [run]. *)
Inductive reachable : Sim → Prop :=
| after_new qubits nm o :
    length qubits ≤ 64 → reachable (new qubits nm o)
| after_applyGate s g q ps s' :
    reachable s → leaves (applyGate g q ps s) s' → reachable s'
| after_apply2QubitGate s g q1 q2 ps s' :
    reachable s → (g = "CNOT" → q1 ≠ q2) →
    leaves (apply2QubitGate g q1 q2 ps s) s' → reachable s'
| after_apply3QubitGate s g q1 q2 q3 ps s' :
    reachable s → leaves (apply3QubitGate g q1 q2 q3 ps s) s' → reachable s'
| after_measure s q s' :
    reachable s → leaves (measure q s) s' → reachable s'
| after_run s fuel instructions s' :
    reachable s → forallb cnot_ok instructions = true →
    leaves (run fuel instructions s) s' → reachable s'.

End WithEngine.

End Properties.

(** * More of what is stated about the program *)

#[local] Set Warnings "-clear-no-such-hyp".

Module Vocabulary.
Import Simulator Properties.

(** As [keeps], for a call that may also never end. *)
Definition holds (R : Sim → Sim → Prop) {A} (m : M Sim A) : Prop :=
  ∀ s, match m s with
       | Ret _ s' | Throw _ s' => R s s'
       | OutOfFuel => True
       end.

(** The call does not return: it throws, or it is still going when the
    fuel is spent. *)
Definition never_returns {S A} (o : outcome S A) : Prop :=
  match o with
  | Ret _ _ => False
  | _ => True
  end.

(** No instruction, at any depth [run] reaches, is a MEASURE. *)
Fixpoint measure_free (op : Instr) : bool :=
  match op with
  | MkInstr g _ _ _ b _ =>
      negb (String.eqb g "MEASURE")
      && (if String.eqb g "IF" || String.eqb g "WHILE" then
            match b with
            | Some l => forallb measure_free l
            | None => true
            end
          else true)
  end.

(** The active entries are where they were, with the amplitudes they
    had: every read the code makes of the primary buffers below the
    active count gives what it gave. *)
Definition primary_kept (s s' : Sim) : Prop :=
  activeCount s' = activeCount s
  ∧ (∀ i, idx_at (indices s') i = idx_at (indices s) i)
  ∧ (∀ i, i < length (amplitudes s) → amp_at (amplitudes s') i = amp_at (amplitudes s) i).

(** The entries [#collapse] keeps for the result [result]. *)
Definition collapse_keeps_index (target result idx : Z) : bool :=
  ((result =? 1)%Z && bit_set idx target) || ((result =? 0)%Z && negb (bit_set idx target)).

(** The symbols in the registry were minted by this manager: they are
    numbered below the number of symbols minted so far. *)
Definition minted_above (mgr : QubitManager.Manager) : Prop :=
  ∀ n, VSym n ∈ QubitManager.registry mgr → n < QubitManager.minted mgr.

(** The active entries of the simulator, in order: the basis index and
    the real and the imaginary part of the amplitude of each. *)
Definition entries (s : Sim) : list (Z * float * float) :=
  (fun i => (idx_at (indices s) i,
             amp_at (amplitudes s) (i * 2),
             amp_at (amplitudes s) (i * 2 + 1))) <$> seq 0 (activeCount s).

(** The summed probability of the qubit at position [pos] being 1: the
    squares re² + im² of the entries whose index has the bit [pos],
    added up from 0 in the order of the entries. *)
Definition summed_probability (s : Sim) (pos : nat) : float :=
  foldl (fun sum e => (sum + (e.1.2 * e.1.2 + e.2 * e.2))%float) 0%float
    (filter (fun e => Z.testbit e.1.1 (Z.of_nat pos) = true) (entries s)).

(** The names every object inherits from [Object.prototype]: the lookup
    [GATES[name]] of one of them finds the inherited value, not
    [undefined]. *)
Definition Object_prototype_names : list string :=
  ["constructor"; "hasOwnProperty"; "isPrototypeOf"; "propertyIsEnumerable";
   "toLocaleString"; "toString"; "valueOf"; "__proto__";
   "__defineGetter__"; "__defineSetter__"; "__lookupGetter__"; "__lookupSetter__"].

(** A gate as a method of the recorder hands it to [addOp]: its name,
    its qubits and its parameters. *)
Definition Shape : Type := string * QubitRef * list float.

Section WithEngine.
Context `{Engine}.

(** The instructions [addOp] makes of a run of gates, the first one at
    the clock [now]. *)
Definition stamped (now : nat) (shapes : list Shape) : list Instr :=
  imap (fun k sh => MkInstr sh.1.1 sh.1.2 (Some sh.2) None None
                      (Some (Date_now (now + k)))) shapes.

(** Between [w] and [w'] the gates [shapes] were appended to the buffer
    [c], and nothing else has happened: no other buffer, the simulator
    and the manager are as they were. *)
Definition appended (c : nat) (shapes : list Shape) (w w' : World.World) : Prop :=
  World.instructions_of c w' = World.instructions_of c w ++ stamped (World.clock w) shapes
  ∧ (∀ c', c' ≠ c → World.instructions_of c' w' = World.instructions_of c' w)
  ∧ World.sim w' = World.sim w
  ∧ World.manager w' = World.manager w
  ∧ World.clock w' = World.clock w + length shapes.

(** What a simulator that was [s0] has become after any number of calls
    of its public methods, each of which returned or threw. *)
Inductive descends (s0 : Sim) : Sim → Prop :=
| descends_itself : descends s0 s0
| descends_applyGate s g q ps s' :
    descends s0 s → leaves (applyGate g q ps s) s' → descends s0 s'
| descends_apply2QubitGate s g q1 q2 ps s' :
    descends s0 s → leaves (apply2QubitGate g q1 q2 ps s) s' → descends s0 s'
| descends_apply3QubitGate s g q1 q2 q3 ps s' :
    descends s0 s → leaves (apply3QubitGate g q1 q2 q3 ps s) s' → descends s0 s'
| descends_measure s q s' :
    descends s0 s → leaves (measure q s) s' → descends s0 s'
| descends_isZero s q s' :
    descends s0 s → leaves (isZero q s) s' → descends s0 s'
| descends_run s fuel instructions s' :
    descends s0 s → leaves (run fuel instructions s) s' → descends s0 s'.

(** With the manager [mgr], the call returns [a] having appended the
    gates [shapes]. *)
Definition writes (mgr : QubitManager.Manager) (c : nat) (shapes : list Shape)
    {A} (m : M World.World A) (a : A) : Prop :=
  ∀ w, World.manager w = mgr → ∃ w', m w = Ret a w' ∧ appended c shapes w w'.

(** The call ends, by a return or by a throw, and has done nothing but
    append gates to the buffer [c]. *)
Definition only_appends (c : nat) {A} (m : M World.World A) : Prop :=
  ∀ w, ends_in (m w) (fun w' => ∃ shapes, appended c shapes w w').

End WithEngine.

End Vocabulary.


(** * Properties *)

(** ** The optimizer *)

Module OptimizerFacts.
Import Optimizer.
Import Properties.

(** Only rotations and U3 can be identities. *)
Lemma isIdentity_other g q ps c b ts :
  includes ["RX"; "RY"; "RZ"; "U3"] g = false →
  isIdentity (MkInstr g q ps c b ts) = false.
Proof.
  intros Hg. unfold isIdentity; simpl.
  destruct ps as [[|p ps]|]; try reflexivity.
  unfold includes in *; simpl in *.
  repeat (apply orb_false_elim in Hg as [? Hg]).
  rewrite (String.eqb_sym g "RX"), (String.eqb_sym g "RY"),
    (String.eqb_sym g "RZ"), (String.eqb_sym g "U3") in *.
  now repeat match goal with E : _ = false |- _ => rewrite E; clear E end.
Qed.

Lemma shared_same_wire (q : JsVal) : filter (fun v => v ∈ [q]) [q] = [q].
Proof. rewrite filter_cons_True by set_solver. reflexivity. Qed.

(** Two single-qubit gates on the same symbol: whatever rule is found, the
    "control" role is never recognised, because the first element of a
    symbol is [undefined]. *)
Lemma canCommute_same_symbol opA opB n :
  qubit opA = QVal (VSym n) → qubit opB = QVal (VSym n) →
  canCommute opA opB =
    Some (match find (rule_matches opA opB) COMMUTATION_RULES with
          | Some rule => String.eqb (role rule) "target"
          | None => false
          end).
Proof.
  intros HA HB. unfold canCommute, qubits_of. rewrite HA, HB.
  rewrite shared_same_wire. cbn [isArray]. rewrite HB. cbn [qubit0].
  destruct (find (rule_matches opA opB) COMMUTATION_RULES) as [rule|]; [|reflexivity].
  rewrite bool_decide_eq_false_2 by discriminate.
  rewrite andb_false_r, andb_true_r.
  destruct (String.eqb (role rule) "target"); reflexivity.
Qed.

Lemma RZ_S_do_not_commute n psa ca ba ta psb cb bb tb :
  canCommute (MkInstr "RZ" (QVal (VSym n)) psa ca ba ta)
             (MkInstr "S" (QVal (VSym n)) psb cb bb tb) = Some false
  ∧ canCommute (MkInstr "S" (QVal (VSym n)) psb cb bb tb)
               (MkInstr "RZ" (QVal (VSym n)) psa ca ba ta) = Some false.
Proof. split; rewrite (canCommute_same_symbol _ _ n) by reflexivity; reflexivity. Qed.

(** C2, what the code does: on [RZ(q, a); S(q); RZ(q, b)] with neither
    angle an identity, [prune] merges nothing: the S closes the lookback
    window of the second RZ, and the three instructions come back as they
    were.  The table of [COMMUTATION_RULES] lists S and RZ as commuting, but
    [canCommute] tests the "control" role on [qubit[0]] of a gate whose
    qubit is a symbol, not an array. *)
Theorem prune_RZ_S_RZ_not_merged (n : nat) (a b : float) ca ba ta ps cs bs ts cb bb tb :
  let rza := MkInstr "RZ" (QVal (VSym n)) (Some [a]) ca ba ta in
  let sq := MkInstr "S" (QVal (VSym n)) ps cs bs ts in
  let rzb := MkInstr "RZ" (QVal (VSym n)) (Some [b]) cb bb tb in
  isIdentity rza = false → isIdentity rzb = false →
  prune [rza; sq; rzb] = Some [rza; sq; rzb].
Proof.
  intros rza sq rzb Ha Hb.
  assert (Hs : isIdentity sq = false) by (apply isIdentity_other; reflexivity).
  destruct (RZ_S_do_not_commute n (Some [a]) ca ba ta ps cs bs ts) as [_ Hsa].
  destruct (RZ_S_do_not_commute n (Some [b]) cb bb tb ps cs bs ts) as [Hbs _].
  subst rza sq rzb.
  unfold prune, loop, step, findCommutingPartner, append, push_wires.
  repeat (cbn -[isIdentity canCommute insert];
          rewrite ?Ha, ?Hs, ?Hb, ?Hsa, ?Hbs, ?lookup_empty, ?lookup_insert_eq).
  reflexivity.
Qed.

(** The failing input of C2: both angles 0.5. *)
Lemma prune_RZ_S_RZ_not_merged_witness :
  prune [MkInstr "RZ" (QVal (VSym 0)) (Some [0.5%float]) None None None;
         MkInstr "S" (QVal (VSym 0)) None None None None;
         MkInstr "RZ" (QVal (VSym 0)) (Some [0.5%float]) None None None]
  = Some [MkInstr "RZ" (QVal (VSym 0)) (Some [0.5%float]) None None None;
          MkInstr "S" (QVal (VSym 0)) None None None None;
          MkInstr "RZ" (QVal (VSym 0)) (Some [0.5%float]) None None None].
Proof.
  apply (prune_RZ_S_RZ_not_merged 0 0.5 0.5 None None None None None None None None None None);
    vm_compute; reflexivity.
Defined.

(** C3: [S(q); S(q)] is pruned to the single instruction Z on [q], and
    [T(q); T(q)] to the single instruction S on [q]; the instruction kept
    is the first one, with its gate rewritten. *)
Theorem prune_S_S_and_T_T (q : JsVal) ps1 c1 b1 ts1 ps2 c2 b2 ts2 :
  prune [MkInstr "S" (QVal q) ps1 c1 b1 ts1; MkInstr "S" (QVal q) ps2 c2 b2 ts2]
    = Some [MkInstr "Z" (QVal q) ps1 c1 b1 ts1]
  ∧ prune [MkInstr "T" (QVal q) ps1 c1 b1 ts1; MkInstr "T" (QVal q) ps2 c2 b2 ts2]
    = Some [MkInstr "S" (QVal q) ps1 c1 b1 ts1].
Proof.
  assert (HS : ∀ ps c b ts, isIdentity (MkInstr "S" (QVal q) ps c b ts) = false)
    by (intros; apply isIdentity_other; reflexivity).
  assert (HT : ∀ ps c b ts, isIdentity (MkInstr "T" (QVal q) ps c b ts) = false)
    by (intros; apply isIdentity_other; reflexivity).
  assert (HZ : ∀ ps c b ts, isIdentity (MkInstr "Z" (QVal q) ps c b ts) = false)
    by (intros; apply isIdentity_other; reflexivity).
  split; unfold prune, loop, step, findCommutingPartner, append, push_wires, keep, with_gate;
    repeat (cbn -[isIdentity insert];
            rewrite ?HS, ?HT, ?HZ, ?lookup_empty, ?lookup_insert_eq,
              ?bool_decide_eq_true_2 by done);
    cbn -[isIdentity]; rewrite ?HS, ?HZ; reflexivity.
Qed.

End OptimizerFacts.


(** ** The transpiler *)

Module TranspilerFacts.
Import Transpiler.
Import Properties.

Lemma transpile_app (l1 l2 : list Instr) :
  transpile (l1 ++ l2) =
    match transpile l1, transpile l2 with
    | Some n1, Some n2 => Some (n1 ++ n2)
    | _, _ => None
    end.
Proof.
  induction l1 as [|op l1 IH]; simpl.
  - destruct (transpile l2); reflexivity.
  - destruct (decompose op) as [d|]; [|reflexivity].
    rewrite IH. destruct (transpile l1), (transpile l2); try reflexivity.
    now rewrite app_assoc.
Qed.

Lemma transpile_one (op : Instr) : transpile [op] = decompose op.
Proof. simpl. destruct (decompose op); [now rewrite app_nil_r | reflexivity]. Qed.

Lemma decompose_default (op : Instr) :
  includes decomposed_gates (gate op) = false → decompose op = Some [op].
Proof.
  intros Hg. unfold decompose.
  unfold includes, decomposed_gates in Hg; simpl in Hg.
  repeat (apply orb_false_elim in Hg as [? Hg]).
  repeat match goal with E : String.eqb ?g ?c = false |- _ => rewrite E; clear E end.
  reflexivity.
Qed.

(** C4: [transpile] expands the instructions one by one, in order (the
    output of a list is the outputs of its instructions, concatenated), by
    the fixed table; a gate name the table does not have is passed through
    unchanged.  An instruction the table makes has a gate, a qubit and,
    for U3, the three angles, and no other field; [θ] is the first
    parameter of a rotation. *)
Theorem transpile_table :
  (∀ l1 l2, transpile (l1 ++ l2) =
              match transpile l1, transpile l2 with
              | Some n1, Some n2 => Some (n1 ++ n2)
              | _, _ => None
              end)
  ∧ (∀ op, transpile [op] = decompose op)
  ∧ (∀ q ps c b ts,
       decompose (MkInstr "H" q ps c b ts)
       = Some [MkInstr "U3" q (Some [Math_PI / 2; 0; Math_PI]%float) None None None])
  ∧ (∀ q ps c b ts,
       decompose (MkInstr "X" q ps c b ts)
       = Some [MkInstr "U3" q (Some [Math_PI; 0; Math_PI]%float) None None None])
  ∧ (∀ q ps c b ts,
       decompose (MkInstr "Y" q ps c b ts)
       = Some [MkInstr "U3" q (Some [Math_PI; Math_PI / 2; Math_PI / 2]%float)
                 None None None])
  ∧ (∀ q ps c b ts,
       decompose (MkInstr "Z" q ps c b ts)
       = Some [MkInstr "U3" q (Some [0; 0; Math_PI]%float) None None None])
  ∧ (∀ q θ ps c b ts,
       decompose (MkInstr "RX" q (Some (θ :: ps)) c b ts)
       = Some [MkInstr "U3" q (Some [θ; - Math_PI / 2; Math_PI / 2]%float) None None None])
  ∧ (∀ q θ ps c b ts,
       decompose (MkInstr "RY" q (Some (θ :: ps)) c b ts)
       = Some [MkInstr "U3" q (Some [θ; 0; 0]%float) None None None])
  ∧ (∀ q θ ps c b ts,
       decompose (MkInstr "RZ" q (Some (θ :: ps)) c b ts)
       = Some [MkInstr "U3" q (Some [0; 0; θ]%float) None None None])
  ∧ (∀ a b ps c bd ts,
       decompose (MkInstr "SWAP" (QArr [a; b]) ps c bd ts)
       = Some [MkInstr "CNOT" (QArr [a; b]) None None None None;
               MkInstr "CNOT" (QArr [b; a]) None None None None;
               MkInstr "CNOT" (QArr [a; b]) None None None None])
  ∧ (∀ ctrl trgt ps c b ts,
       decompose (MkInstr "CZ" (QArr [ctrl; trgt]) ps c b ts)
       = Some [MkInstr "U3" (QVal trgt) (Some [Math_PI / 2; 0; Math_PI]%float)
                 None None None;
               MkInstr "CNOT" (QArr [ctrl; trgt]) None None None None;
               MkInstr "U3" (QVal trgt) (Some [Math_PI / 2; 0; Math_PI]%float)
                 None None None])
  ∧ (∀ op, includes decomposed_gates (gate op) = false → decompose op = Some [op]).
Proof.
  repeat split; try reflexivity.
  - apply transpile_app.
  - apply transpile_one.
  - apply decompose_default.
Qed.

(** The table at work: the gates that are passed through, and an
    unknown one, in one list with an H and a SWAP. *)
Lemma transpile_table_witness :
  let q := QVal (VSym 0) in
  let pass g := MkInstr g q (Some []) None None (Some 7%Z) in
  let passed := map pass ["S"; "T"; "RZZ"; "CCX"; "CNOT"; "MEASURE"; "RESET"; "IF"; "WHILE"; "GHOST"] in
  Forall (fun op => decompose op = Some [op]) passed
  ∧ transpile (pass "H" :: passed ++ [MkInstr "SWAP" (QArr [VSym 0; VSym 1]) None None None None])
    = Some (MkInstr "U3" q (Some [Math_PI / 2; 0; Math_PI]%float) None None None
            :: passed
            ++ [MkInstr "CNOT" (QArr [VSym 0; VSym 1]) None None None None;
                MkInstr "CNOT" (QArr [VSym 1; VSym 0]) None None None None;
                MkInstr "CNOT" (QArr [VSym 0; VSym 1]) None None None None]).
Proof.
  split.
  - apply Forall_forall. intros op Hop.
    apply (proj2 (proj2 (proj2 (proj2 (proj2 (proj2 (proj2 (proj2 (proj2 (proj2 (proj2
             transpile_table))))))))))).
    repeat (apply elem_of_cons in Hop as [->|Hop]; [reflexivity|]). inversion Hop.
  - reflexivity.
Defined.

End TranspilerFacts.


(** ** The simulator: what an operation leaves alone *)

Module SimulatorFrame.
Import Simulator.
Import Properties Vocabulary.

Section Keeps.
Context (R : Sim → Sim → Prop) `{!PreOrder R}.

Lemma keeps_ret {A} (a : A) : keeps R (ret a).
Proof. intros s. simpl. reflexivity. Qed.

Lemma keeps_throw {A} e : keeps R (@throw Sim A e).
Proof. intros s. simpl. reflexivity. Qed.

Lemma keeps_pure {A} (f : Sim → A) : keeps R (fun s => Ret (f s) s).
Proof. intros s. simpl. reflexivity. Qed.

Lemma keeps_modify (f : Sim → Sim) : (∀ s, R s (f s)) → keeps R (modify f).
Proof. intros Hf s. apply Hf. Qed.

Lemma keeps_bind {A B} (m : M Sim A) (k : A → M Sim B) :
  keeps R m → (∀ a, keeps R (k a)) → keeps R (bind m k).
Proof.
  intros Hm Hk s. unfold bind. specialize (Hm s).
  destruct (m s) as [a s1|e s1|]; [|exact Hm|exact Hm].
  specialize (Hk a s1). destruct (k a s1); try exact Hk; etransitivity; eassumption.
Qed.

Lemma keeps_if {A} (b : bool) (m1 m2 : M Sim A) :
  keeps R m1 → keeps R m2 → keeps R (if b then m1 else m2).
Proof. destruct b; auto. Qed.

Lemma keeps_forEach {A} (l : list A) (f : A → M Sim unit) :
  (∀ x, keeps R (f x)) → keeps R (forEach l f).
Proof.
  intros Hf. induction l as [|x l IH]; simpl.
  - apply keeps_ret.
  - apply keeps_bind; auto.
Qed.

Lemma keeps_for_entries {L} (body : nat → L → M Sim L) (slots : list nat) (loc : L) :
  (∀ i l, keeps R (body i l)) → keeps R (for_entries body slots loc).
Proof.
  intros Hb. revert loc. induction slots as [|i slots IH]; intros loc; simpl.
  - apply keeps_ret.
  - apply keeps_bind; auto.
Qed.

End Keeps.

Lemma keeps_weaken (R R' : Sim → Sim → Prop) {A} (m : M Sim A) :
  (∀ s s', R s s' → R' s s') → keeps R m → keeps R' m.
Proof.
  intros Hw Hm s. specialize (Hm s). destruct (m s); try exact Hm; now apply Hw.
Qed.

Section Holds.
Context (R : Sim → Sim → Prop) `{!PreOrder R}.

Lemma holds_of_keeps {A} (m : M Sim A) : keeps R m → holds R m.
Proof. intros Hm s. specialize (Hm s). destruct (m s); try exact Hm. exact I. Qed.

Lemma holds_ret {A} (a : A) : holds R (ret a).
Proof. intros s. simpl. reflexivity. Qed.

Lemma holds_throw {A} e : holds R (@throw Sim A e).
Proof. intros s. simpl. reflexivity. Qed.

Lemma holds_bind {A B} (m : M Sim A) (k : A → M Sim B) :
  holds R m → (∀ a, holds R (k a)) → holds R (bind m k).
Proof.
  intros Hm Hk s. unfold bind. specialize (Hm s).
  destruct (m s) as [a s1|e s1|]; [|exact Hm|exact I].
  specialize (Hk a s1). destruct (k a s1); try exact I; etransitivity; eassumption.
Qed.

Lemma holds_if {A} (b : bool) (m1 m2 : M Sim A) :
  holds R m1 → holds R m2 → holds R (if b then m1 else m2).
Proof. destruct b; auto. Qed.

Lemma holds_forEach {A} (l : list A) (f : A → M Sim unit) :
  (∀ x, x ∈ l → holds R (f x)) → holds R (forEach l f).
Proof.
  induction l as [|x l IH]; intros Hf; simpl.
  - apply holds_ret.
  - apply holds_bind.
    + apply Hf. left.
    + intros _. apply IH. intros y Hy. apply Hf. now right.
Qed.

End Holds.

#[export] Instance same_setup_preorder : PreOrder same_setup.
Proof.
  split.
  - intros s. repeat split.
  - intros s1 s2 s3 (?&?&?) (?&?&?). repeat split; congruence.
Qed.

#[export] Instance same_cache_preorder : PreOrder same_cache.
Proof.
  split.
  - intros s. repeat split.
  - intros s1 s2 s3 [H1 ?] [H2 ?]. split; [etransitivity; eassumption | congruence].
Qed.

Create HintDb frame.

Ltac solve_preorder :=
  lazymatch goal with
  | |- PreOrder _ => typeclasses eauto
  | |- _ => idtac
  end.

Ltac frame_step :=
  lazymatch goal with
  | |- keeps _ (bind _ _) => apply keeps_bind; solve_preorder; [ | intros ?]
  | |- keeps _ (ret _) => apply keeps_ret; solve_preorder
  | |- keeps _ (throw _) => apply keeps_throw; solve_preorder
  | |- keeps _ (if _ then _ else _) => apply keeps_if
  | |- keeps _ (match ?x with Some _ => _ | None => _ end) => destruct x
  | |- keeps _ (modify _) => apply keeps_modify; intros ?
  | |- keeps _ (fun s => Ret (@?f s) s) => apply keeps_pure; solve_preorder
  | |- keeps _ (for_entries _ _ _) => apply keeps_for_entries; solve_preorder; intros ? ?
  | |- keeps _ (forEach _ _) => apply keeps_forEach; solve_preorder; intros ?
  end.

Ltac frame := repeat frame_step; eauto with frame.

Lemma ensureCapacity_same_cache n s : same_cache s (ensureCapacity n s).
Proof. unfold ensureCapacity. destruct (_ <? _)%nat; repeat split. Qed.
#[export] Hint Resolve ensureCapacity_same_cache : frame.
#[export] Hint Extern 2 (same_cache _ _) => solve [repeat split] : frame.

Lemma bitOf_keeps q : keeps same_cache (bitOf q).
Proof. intros s. unfold bitOf. destruct (qubitMap s !! q); reflexivity. Qed.
#[export] Hint Resolve bitOf_keeps : frame.

Lemma getProb1_keeps q : keeps same_cache (getProb1 q).
Proof. unfold getProb1. frame. Qed.
#[export] Hint Resolve getProb1_keeps : frame.

Lemma collapse_keeps q r p : keeps same_cache (collapse q r p).
Proof. unfold collapse. frame. intros s. repeat split. Qed.
#[export] Hint Resolve collapse_keeps : frame.

Lemma scatter_keeps width col re im matrix row targets loc :
  keeps same_cache (scatter width col re im matrix row targets loc).
Proof.
  revert row loc. induction targets as [|tIdx rest IH]; intros row loc; simpl.
  - apply keeps_ret; typeclasses eauto.
  - intros s.
    destruct (collisionMap loc !! tIdx) as [bPos|]; destruct matrix as [mx|].
    + match goal with |- context [scatter ?w ?c ?r ?i ?m ?ro ?t ?l ?st] =>
        specialize (IH ro l st); destruct (scatter w c r i m ro t l st) end;
        try exact IH; destruct IH as [(?&?&?) ?]; repeat split; assumption.
    + repeat split.
    + match goal with |- context [scatter ?w ?c ?r ?i ?m ?ro ?t ?l ?st] =>
        specialize (IH ro l st); destruct (scatter w c r i m ro t l st) end;
        try exact IH; destruct IH as [(?&?&?) ?]; repeat split; assumption.
    + repeat split.
Qed.
#[export] Hint Resolve scatter_keeps : frame.

Lemma accumulate_next_keeps idx re im loc : keeps same_cache (accumulate_next idx re im loc).
Proof.
  intros s. unfold accumulate_next, accumulate.
  destruct (collisionMap loc !! idx); repeat split.
Qed.
#[export] Hint Resolve accumulate_next_keeps : frame.

Lemma finish_gate_keeps loc : keeps same_cache (finish_gate loc).
Proof. intros s. repeat split. Qed.
#[export] Hint Resolve finish_gate_keeps : frame.

Lemma prune_same_cache s : same_cache s (prune s).
Proof. repeat split. Qed.

Section WithEngine.
Context `{Engine}.

Lemma random_keeps : keeps same_cache random.
Proof. intros s. repeat split. Qed.
Hint Resolve random_keeps : frame.

Lemma applyGate_keeps g q ps : keeps same_cache (applyGate g q ps).
Proof.
  unfold applyGate. frame.
  unfold applyGate_entry. intros st.
  destruct (String.eqb g "Z"); [apply accumulate_next_keeps | apply scatter_keeps].
Qed.
Hint Resolve applyGate_keeps : frame.

Lemma apply2QubitGate_keeps g q1 q2 ps : keeps same_cache (apply2QubitGate g q1 q2 ps).
Proof.
  unfold apply2QubitGate. frame.
  unfold apply2QubitGate_entry. intros st.
  destruct (String.eqb g "CZ"); [apply accumulate_next_keeps|].
  destruct (String.eqb g "CNOT" || String.eqb g "SWAP"); [apply accumulate_next_keeps|].
  apply scatter_keeps.
Qed.
Hint Resolve apply2QubitGate_keeps : frame.

Lemma apply3QubitGate_keeps g q1 q2 q3 ps : keeps same_cache (apply3QubitGate g q1 q2 q3 ps).
Proof.
  unfold apply3QubitGate. frame.
  unfold apply3QubitGate_entry. intros st. apply scatter_keeps.
Qed.
Hint Resolve apply3QubitGate_keeps : frame.

Lemma measure_keeps q : keeps same_cache (measure q).
Proof. unfold measure. frame. Qed.
Hint Resolve measure_keeps : frame.

Lemma noise_on_keeps nm q : keeps same_cache (noise_on nm q).
Proof. unfold noise_on. frame. Qed.
Hint Resolve noise_on_keeps : frame.

Lemma applyStochasticNoise_keeps qr : keeps same_cache (applyStochasticNoise qr).
Proof. unfold applyStochasticNoise. frame. Qed.

Lemma isZero_keeps q : keeps same_cache (isZero q).
Proof. unfold isZero. frame. Qed.

End WithEngine.

#[export] Hint Resolve random_keeps applyGate_keeps apply2QubitGate_keeps apply3QubitGate_keeps
  measure_keeps noise_on_keeps applyStochasticNoise_keeps isZero_keeps : frame.

End SimulatorFrame.


(** ** Basis indices as 64-bit values *)

Module IndexBits.
Import Simulator.
Import Properties.

Lemma in_range_high_bits v : in_range v → ∀ i, (64 ≤ i)%Z → Z.testbit v i = false.
Proof.
  intros Hv i Hi. rewrite <- (Z.mod_small v (2 ^ 64)) by exact Hv.
  apply Z.mod_pow2_bits_high. lia.
Qed.

Lemma in_range_of_bits v :
  (0 ≤ v)%Z → (∀ i, (64 ≤ i)%Z → Z.testbit v i = false) → in_range v.
Proof.
  intros Hv Hhigh. assert (Heq : (v mod 2 ^ 64 = v)%Z).
  { apply Z.bits_inj'. intros i Hi. destruct (Z.lt_ge_cases i 64) as [Hlt|Hge].
    - now apply Z.mod_pow2_bits_low.
    - rewrite Z.mod_pow2_bits_high by lia. symmetry. now apply Hhigh. }
  unfold in_range. rewrite <- Heq. apply Z.mod_pos_bound. lia.
Qed.

Lemma wrap64_in_range v : in_range (wrap64 v).
Proof. unfold wrap64, in_range. apply Z.mod_pos_bound. lia. Qed.

Lemma wrap64_small v : in_range v → wrap64 v = v.
Proof. intros Hv. unfold wrap64. now apply Z.mod_small. Qed.

Lemma in_range_0 : in_range 0.
Proof. unfold in_range. lia. Qed.

Lemma bit_at_testbit pos i : (0 ≤ i)%Z → Z.testbit (bit_at pos) i = (Z.of_nat pos =? i)%Z.
Proof.
  intros Hi. unfold bit_at. rewrite Z.shiftl_1_l. apply Z.pow2_bits_eqb. lia.
Qed.

Lemma bit_at_nonneg pos : (0 ≤ bit_at pos)%Z.
Proof. unfold bit_at. rewrite Z.shiftl_1_l. apply Z.pow_nonneg. lia. Qed.

Lemma bit_at_in_range pos : pos < 64 → in_range (bit_at pos).
Proof.
  intros Hpos. apply in_range_of_bits; [apply bit_at_nonneg|].
  intros i Hi. rewrite bit_at_testbit by lia. apply Z.eqb_neq. lia.
Qed.

Lemma lxor_in_range a b : in_range a → in_range b → in_range (Z.lxor a b).
Proof.
  intros Ha Hb. apply in_range_of_bits.
  - apply Z.lxor_nonneg. unfold in_range in *. lia.
  - intros i Hi. rewrite Z.lxor_spec.
    now rewrite (in_range_high_bits a Ha i Hi), (in_range_high_bits b Hb i Hi).
Qed.

Lemma lor_in_range a b : in_range a → in_range b → in_range (Z.lor a b).
Proof.
  intros Ha Hb. apply in_range_of_bits.
  - apply Z.lor_nonneg. unfold in_range in *. lia.
  - intros i Hi. rewrite Z.lor_spec.
    now rewrite (in_range_high_bits a Ha i Hi), (in_range_high_bits b Hb i Hi).
Qed.

Lemma land_in_range a b : in_range a → in_range (Z.land a b).
Proof.
  intros Ha. apply in_range_of_bits.
  - apply Z.land_nonneg. left. unfold in_range in *. lia.
  - intros i Hi. rewrite Z.land_spec.
    now rewrite (in_range_high_bits a Ha i Hi).
Qed.

(** [idx & bit] is truthy exactly when the bit of the position is set. *)
Lemma bit_set_testbit idx pos : bit_set idx (bit_at pos) = Z.testbit idx (Z.of_nat pos).
Proof.
  unfold bit_set.
  assert (Hland : Z.land idx (bit_at pos)
                  = if Z.testbit idx (Z.of_nat pos) then bit_at pos else 0%Z).
  { apply Z.bits_inj'. intros i Hi. rewrite Z.land_spec, bit_at_testbit by lia.
    destruct (Z.eqb_spec (Z.of_nat pos) i) as [<-|Hne].
    - destruct (Z.testbit idx (Z.of_nat pos)); simpl.
      + rewrite bit_at_testbit by lia. symmetry. apply Z.eqb_refl.
      + now rewrite Z.bits_0.
    - rewrite andb_false_r. destruct (Z.testbit idx (Z.of_nat pos)).
      + rewrite bit_at_testbit by lia. symmetry. now apply Z.eqb_neq.
      + now rewrite Z.bits_0. }
  rewrite Hland. destruct (Z.testbit idx (Z.of_nat pos)); [|reflexivity].
  apply negb_true_iff, Z.eqb_neq. unfold bit_at. rewrite Z.shiftl_1_l.
  apply Z.pow_nonzero; lia.
Qed.

Lemma testbit_lxor_bit idx pos i :
  (0 ≤ i)%Z →
  Z.testbit (Z.lxor idx (bit_at pos)) i = xorb (Z.testbit idx i) (Z.of_nat pos =? i)%Z.
Proof. intros Hi. now rewrite Z.lxor_spec, bit_at_testbit. Qed.

Lemma lxor_cancel a b c : Z.lxor a c = Z.lxor b c → a = b.
Proof.
  intros Heq.
  assert (Hback : ∀ x, Z.lxor (Z.lxor x c) c = x)
    by (intros x; now rewrite Z.lxor_assoc, Z.lxor_nilpotent, Z.lxor_0_r).
  rewrite <- (Hback a), Heq. apply Hback.
Qed.

Lemma cnot_index_control p1 p2 idx :
  p1 ≠ p2 →
  bit_set (cnot_index (bit_at p1) (bit_at p2) idx) (bit_at p1) = bit_set idx (bit_at p1).
Proof.
  intros Hne. unfold cnot_index. destruct (bit_set idx (bit_at p1)) eqn:Hset; [|exact Hset].
  rewrite bit_set_testbit in *. rewrite testbit_lxor_bit by lia.
  rewrite Hset. replace (Z.of_nat p2 =? Z.of_nat p1)%Z with false; [reflexivity|].
  symmetry. apply Z.eqb_neq. lia.
Qed.

Lemma cnot_index_inj p1 p2 a b :
  p1 ≠ p2 →
  cnot_index (bit_at p1) (bit_at p2) a = cnot_index (bit_at p1) (bit_at p2) b → a = b.
Proof.
  intros Hne Heq.
  pose proof (cnot_index_control p1 p2 a Hne) as Ha.
  pose proof (cnot_index_control p1 p2 b Hne) as Hb.
  rewrite Heq, Hb in Ha. unfold cnot_index in Heq. rewrite Ha in Heq.
  destruct (bit_set a (bit_at p1)); [now apply lxor_cancel in Heq | exact Heq].
Qed.

Lemma cnot_index_in_range p1 p2 idx :
  p2 < 64 → in_range idx → in_range (cnot_index (bit_at p1) (bit_at p2) idx).
Proof.
  intros Hp Hidx. unfold cnot_index. destruct (bit_set idx (bit_at p1)); [|exact Hidx].
  apply lxor_in_range; [exact Hidx | now apply bit_at_in_range].
Qed.

Lemma testbit_lor_bits p1 p2 i :
  (0 ≤ i)%Z →
  Z.testbit (Z.lor (bit_at p1) (bit_at p2)) i = (Z.of_nat p1 =? i)%Z || (Z.of_nat p2 =? i)%Z.
Proof. intros Hi. now rewrite Z.lor_spec, !bit_at_testbit. Qed.

(** Swapping two bits twice gives the index back. *)
Lemma swap_index_involutive p1 p2 idx :
  swap_index (bit_at p1) (bit_at p2) (swap_index (bit_at p1) (bit_at p2) idx) = idx.
Proof.
  unfold swap_index at 2.
  destruct (negb (Bool.eqb (bit_set idx (bit_at p1)) (bit_set idx (bit_at p2)))) eqn:Hdiff.
  - unfold swap_index.
    assert (H1 : bit_set (Z.lxor idx (Z.lor (bit_at p1) (bit_at p2))) (bit_at p1)
                 = negb (bit_set idx (bit_at p1))).
    { rewrite !bit_set_testbit, Z.lxor_spec, testbit_lor_bits by lia.
      rewrite Z.eqb_refl. simpl. now rewrite xorb_true_r. }
    assert (H2 : bit_set (Z.lxor idx (Z.lor (bit_at p1) (bit_at p2))) (bit_at p2)
                 = negb (bit_set idx (bit_at p2))).
    { rewrite !bit_set_testbit, Z.lxor_spec, testbit_lor_bits by lia.
      rewrite Z.eqb_refl, orb_true_r. now rewrite xorb_true_r. }
    rewrite H1, H2.
    replace (negb (Bool.eqb (negb (bit_set idx (bit_at p1))) (negb (bit_set idx (bit_at p2)))))
      with true by (destruct (bit_set idx (bit_at p1)), (bit_set idx (bit_at p2));
                    simpl in *; congruence).
    now rewrite Z.lxor_assoc, Z.lxor_nilpotent, Z.lxor_0_r.
  - unfold swap_index. now rewrite Hdiff.
Qed.

Lemma swap_index_inj p1 p2 a b :
  swap_index (bit_at p1) (bit_at p2) a = swap_index (bit_at p1) (bit_at p2) b → a = b.
Proof.
  intros Heq. rewrite <- (swap_index_involutive p1 p2 a), Heq.
  apply swap_index_involutive.
Qed.

Lemma swap_index_in_range p1 p2 idx :
  p1 < 64 → p2 < 64 → in_range idx → in_range (swap_index (bit_at p1) (bit_at p2) idx).
Proof.
  intros Hp1 Hp2 Hidx. unfold swap_index. destruct (negb _); [|exact Hidx].
  apply lxor_in_range; [exact Hidx|]. apply lor_in_range; now apply bit_at_in_range.
Qed.

End IndexBits.


(** ** The simulator: epsilon, RESET and the result cache *)

Module SimulatorFacts.
Import Simulator SimulatorFrame IndexBits Samples.
Import Properties Vocabulary.

Lemma bitOf_mapped q pos s :
  qubitMap s !! q = Some pos → bitOf q s = Ret (Z.shiftl 1 (Z.of_nat pos)) s.
Proof. intros Hq. unfold bitOf. now rewrite Hq. Qed.

Lemma bitOf_unmapped q s : qubitMap s !! q = None → bitOf q s = Throw TypeError s.
Proof. intros Hq. unfold bitOf. now rewrite Hq. Qed.

(** The sum of [#getProb1], entry by entry. *)
Lemma getProb1_from_summed s pos :
  getProb1_from s (Z.shiftl 1 (Z.of_nat pos)) = summed_probability s pos.
Proof.
  unfold getProb1_from, summed_probability, entries.
  generalize (seq 0 (activeCount s)) as l. generalize 0%float as acc.
  intros acc l. revert acc. induction l as [|i l IH]; intros acc; [reflexivity|].
  rewrite fmap_cons. cbn [foldl].
  change (Z.shiftl 1 (Z.of_nat pos)) with (bit_at pos). rewrite bit_set_testbit.
  destruct (Z.testbit (idx_at (indices s) i) (Z.of_nat pos)) eqn:Hb.
  - rewrite filter_cons_True by exact Hb. cbn [foldl]. apply IH.
  - rewrite filter_cons_False by (cbn; congruence). apply IH.
Qed.

Lemma same_cache_setup s s' : same_cache s s' → same_setup s s'.
Proof. now intros [Hs _]. Qed.

Lemma leaves_keeps (R : Sim → Sim → Prop) {A} (m : M Sim A) s s' :
  keeps R m → leaves (m s) s' → R s s'.
Proof.
  intros Hm Hl. specialize (Hm s). unfold leaves, ends_in in Hl.
  destruct (m s); [now subst | now subst | destruct Hl].
Qed.

Lemma leaves_holds (R : Sim → Sim → Prop) {A} (m : M Sim A) s s' :
  holds R m → leaves (m s) s' → R s s'.
Proof.
  intros Hm Hl. specialize (Hm s). unfold leaves, ends_in in Hl.
  destruct (m s); [now subst | now subst | destruct Hl].
Qed.

(** The steps of a proof that a call keeps the setup. *)
Ltac setup_step :=
  lazymatch goal with
  | |- keeps _ (bind _ _) => apply keeps_bind; [typeclasses eauto | | intros ?]
  | |- keeps _ (ret _) => apply keeps_ret; typeclasses eauto
  | |- keeps _ (if _ then _ else _) => apply keeps_if
  | |- keeps _ (modify _) => apply keeps_modify; intros ?; repeat split
  | |- keeps same_setup _ =>
      apply (keeps_weaken same_cache same_setup); [exact same_cache_setup | eauto with frame]
  end.

Section Setup.
Context `{E : Engine}.

Lemma run_op_keeps_setup (run_body : list Instr → M Sim unit) (while_fuel : nat) op :
  (∀ b, holds same_setup (run_body b)) → holds same_setup (run_op run_body while_fuel op).
Proof.
  intros Hbody. unfold run_op.
  apply holds_bind; [typeclasses eauto | apply holds_of_keeps, keeps_pure; typeclasses eauto |].
  intros noisy.
  destruct (String.eqb (gate op) "IF").
  { destruct (condition op) as [c|]; [|apply holds_throw; typeclasses eauto].
    apply holds_bind;
      [typeclasses eauto | apply holds_of_keeps, keeps_pure; typeclasses eauto |].
    intros holds_c. apply holds_if; [|apply holds_ret; typeclasses eauto].
    destruct (body op) as [b|]; [apply Hbody | apply holds_throw; typeclasses eauto]. }
  destruct (String.eqb (gate op) "WHILE").
  { destruct (condition op) as [c|]; [|apply holds_throw; typeclasses eauto].
    induction while_fuel as [|n IH].
    - apply holds_bind;
        [typeclasses eauto | apply holds_of_keeps, keeps_pure; typeclasses eauto |].
      intros holds_c. apply holds_if; [|apply holds_ret; typeclasses eauto].
      intros s. exact I.
    - apply holds_bind;
        [typeclasses eauto | apply holds_of_keeps, keeps_pure; typeclasses eauto |].
      intros holds_c. apply holds_if; [|apply holds_ret; typeclasses eauto].
      destruct (body op) as [b|]; [|apply holds_throw; typeclasses eauto].
      apply holds_bind; [typeclasses eauto | apply Hbody | intros _; exact IH]. }
  apply holds_of_keeps.
  apply keeps_bind; [typeclasses eauto | |].
  - destruct (qubit op) as [q|l].
    + destruct (String.eqb (gate op) "RESET"); [repeat setup_step|].
      destruct (String.eqb (gate op) "MEASURE"); repeat setup_step.
    + destruct (length l =? 3)%nat; repeat setup_step.
  - intros apply_noise. repeat setup_step.
Qed.

Lemma run_keeps_setup fuel instructions : holds same_setup (run fuel instructions).
Proof.
  revert instructions. induction fuel as [|fuel IH]; intros instructions.
  - intros s. exact I.
  - simpl. apply holds_forEach; [typeclasses eauto|]. intros op _.
    apply run_op_keeps_setup. exact IH.
Qed.

(** No call on a simulator changes what its constructor set up. *)
Lemma descends_same_setup s0 s : descends s0 s → same_setup s0 s.
Proof.
  induction 1 as [|s g q ps s' _ IH Hl|s g q1 q2 ps s' _ IH Hl|s g q1 q2 q3 ps s' _ IH Hl
                 |s q s' _ IH Hl|s q s' _ IH Hl|s fuel instructions s' _ IH Hl].
  - reflexivity.
  - etransitivity; [exact IH|]. apply same_cache_setup.
    exact (leaves_keeps _ _ s s' (applyGate_keeps g q ps) Hl).
  - etransitivity; [exact IH|]. apply same_cache_setup.
    exact (leaves_keeps _ _ s s' (apply2QubitGate_keeps g q1 q2 ps) Hl).
  - etransitivity; [exact IH|]. apply same_cache_setup.
    exact (leaves_keeps _ _ s s' (apply3QubitGate_keeps g q1 q2 q3 ps) Hl).
  - etransitivity; [exact IH|]. apply same_cache_setup.
    exact (leaves_keeps _ _ s s' (measure_keeps q) Hl).
  - etransitivity; [exact IH|]. apply same_cache_setup.
    exact (leaves_keeps _ _ s s' (isZero_keeps q) Hl).
  - etransitivity; [exact IH|].
    exact (leaves_holds _ _ s s' (run_keeps_setup fuel instructions) Hl).
Qed.

Lemma descends_epsilon qubits nm o s :
  descends (new qubits nm o) s →
  epsilon s = match opt_epsilon o with
              | Some e => if truthy e then Some e else None
              | None => None
              end.
Proof. intros Hd. now destruct (descends_same_setup _ _ Hd) as (_ & _ & ->). Qed.

End Setup.

(** C5, as the code has it.  [isZero(q)] answers whether the summed
    probability of [q] being 1 (the squares re² + im² of the active
    entries whose index has the bit of [q], added up in order) is
    strictly below the effective epsilon.  The effective epsilon of any
    simulator is its stored override when it has one, and
    100 × (1e-15 × max(1, activeCount / 5000)) when it has none.  A
    simulator constructed with an override that is a number other than 0
    and NaN has that override as its effective epsilon from then on,
    whatever is called on it; one constructed without an override, or
    with an override that is 0 or NaN, has the default, at its current
    active count. *)
Theorem isZero_effective_epsilon :
  (∀ s q pos, qubitMap s !! q = Some pos →
     isZero q s = Ret (summed_probability s pos <? getEffectiveEpsilon s)%float s)
  ∧ (∀ s e, epsilon s = Some e → getEffectiveEpsilon s = e)
  ∧ (∀ s, epsilon s = None → getEffectiveEpsilon s = default_epsilon (activeCount s))
  ∧ (∀ (E : Engine) qubits nm e s, truthy e = true →
       descends (new qubits nm {| opt_epsilon := Some e |}) s →
       getEffectiveEpsilon s = e)
  ∧ (∀ (E : Engine) qubits nm e s, truthy e = false →
       descends (new qubits nm {| opt_epsilon := Some e |}) s →
       getEffectiveEpsilon s = default_epsilon (activeCount s))
  ∧ (∀ (E : Engine) qubits nm s,
       descends (new qubits nm {| opt_epsilon := None |}) s →
       getEffectiveEpsilon s = default_epsilon (activeCount s)).
Proof.
  split; [|split; [|split; [|split; [|split]]]].
  - intros s q pos Hq. unfold isZero, getProb1, bind. rewrite (bitOf_mapped q pos s Hq).
    now rewrite getProb1_from_summed.
  - intros s e Hs. unfold getEffectiveEpsilon. now rewrite Hs.
  - intros s Hs. unfold getEffectiveEpsilon. now rewrite Hs.
  - intros E qubits nm e s He Hd. apply descends_epsilon in Hd. cbn in Hd.
    rewrite He in Hd. unfold getEffectiveEpsilon. now rewrite Hd.
  - intros E qubits nm e s He Hd. apply descends_epsilon in Hd. cbn in Hd.
    rewrite He in Hd. unfold getEffectiveEpsilon. now rewrite Hd.
  - intros E qubits nm s Hd. apply descends_epsilon in Hd. cbn in Hd.
    unfold getEffectiveEpsilon. now rewrite Hd.
Qed.

(** An override of 0.5 is still the effective epsilon after a Hadamard
    gate, and the fresh qubit, whose probability of being 1 is 0, is zero
    under it. *)
Lemma isZero_effective_epsilon_witness :
  let E := constant_engine 0.25 in
  let s := new [VSym 0] None {| opt_epsilon := Some 0.5%float |} in
  ends_in (applyGate "H" (VSym 0) [] s) (fun s' => getEffectiveEpsilon s' = 0.5%float)
  ∧ returns (isZero (VSym 0) s) (fun zero _ => zero = true).
Proof.
  intros E s. split.
  - pose proof (applyGate_keeps "H" (VSym 0) [] s) as Hk. unfold ends_in.
    destruct (applyGate "H" (VSym 0) [] s) as [u s'|e s'|] eqn:Hrun; [| |exact Hk].
    + apply (proj1 (proj2 (proj2 (proj2 isZero_effective_epsilon))) E [VSym 0] None);
        [reflexivity|].
      apply (descends_applyGate _ s "H" (VSym 0) [] s'); [apply descends_itself|].
      unfold leaves. now rewrite Hrun.
    + apply (proj1 (proj2 (proj2 (proj2 isZero_effective_epsilon))) E [VSym 0] None);
        [reflexivity|].
      apply (descends_applyGate _ s "H" (VSym 0) [] s'); [apply descends_itself|].
      unfold leaves. now rewrite Hrun.
  - rewrite (proj1 isZero_effective_epsilon _ (VSym 0) 0) by reflexivity.
    vm_compute. reflexivity.
Defined.

(** C5 as stated fails for an override equal to 0: the constructor drops
    it, the effective epsilon is the default 1e-13 and not 0, and [isZero]
    answers true for the fresh qubit, where a comparison with 0 would answer
    false. *)
Lemma zero_epsilon_override_is_dropped :
  let s := new [VSym 0] None {| opt_epsilon := Some 0%float |} in
  epsilon s = None
  ∧ getEffectiveEpsilon s = (1e-15 * 1 * 100)%float
  ∧ (getEffectiveEpsilon s =? 0)%float = false
  ∧ returns (isZero (VSym 0) s) (fun zero _ => zero = true)
  ∧ (getProb1_from s 1 <? 0)%float = false.
Proof. vm_compute. repeat split. Qed.

Section WithEngine.
Context `{Engine}.

Lemma run_one fuel op s :
  run (S fuel) [op] s = run_op (run fuel) fuel op s.
Proof.
  simpl. unfold bind. destruct (run_op (run fuel) fuel op s) as [[] ?| |]; reflexivity.
Qed.

Lemma reset_steps_keeps q : keeps same_cache (reset_steps q).
Proof. unfold reset_steps. frame. Qed.

Lemma run_op_RESET rb wf q ps c b ts s :
  run_op rb wf (MkInstr "RESET" (QVal q) ps c b ts) s = reset_steps q s.
Proof.
  unfold run_op, reset_steps, bind; simpl.
  destruct (measure q s) as [res s1| |]; try reflexivity.
  destruct (res =? 1)%Z; [|reflexivity].
  destruct (applyGate "X" q [] s1) as [[] s2| |]; reflexivity.
Qed.

Lemma run_op_MEASURE rb wf q ps c b ts s :
  run_op rb wf (MkInstr "MEASURE" (QVal q) ps c b ts) s = measure_steps q s.
Proof.
  unfold run_op, measure_steps, bind; simpl.
  destruct (measure q s) as [res s1| |]; reflexivity.
Qed.

(** C1, as the code has it: with or without a noise profile, a RESET on
    [q] run by [run] is exactly [measure q], then X on [q] if the result was
    1, then [prune]; the noise channel is not entered.  It always ends, and
    whether it returns or throws, the result cache is the one it started with:
    RESET does not cache the outcome it sampled.  A MEASURE is [measure q],
    then the store of the result under [q], then [prune], again without the
    noise channel. *)
Theorem run_RESET_and_MEASURE (fuel : nat) (q : JsVal) ps c b ts (s : Sim) :
  run (S fuel) [MkInstr "RESET" (QVal q) ps c b ts] s = reset_steps q s
  ∧ match reset_steps q s with
    | Ret _ s' | Throw _ s' => results s' = results s
    | OutOfFuel => False
    end
  ∧ run (S fuel) [MkInstr "MEASURE" (QVal q) ps c b ts] s = measure_steps q s.
Proof.
  split; [|split].
  - rewrite run_one. apply run_op_RESET.
  - pose proof (reset_steps_keeps q s) as Hk.
    destruct (reset_steps q s); try exact Hk; apply Hk.
  - rewrite run_one. apply run_op_MEASURE.
Qed.

End WithEngine.

(** C1 as stated fails.  On a fresh one-qubit simulator RESET samples 0 and
    the cache has nothing for the qubit afterwards.  And after X and MEASURE
    have cached 1, a RESET (which samples 1 and flips the qubit back) and a
    second RESET (which samples 0) leave the cached 1 in place: an IF on
    [q == 1] that follows still runs its body, here an X that turns the
    qubit on again. *)
Lemma RESET_leaves_the_cache :
  let E := constant_engine 0.5 in
  let q := VSym 0 in
  let s0 := new [q] None no_options in
  let body := Some [on "X" q] in
  let guarded := MkInstr "IF" (QVal VNull) None (Some {| cqubit := q; cvalue := Some 1%Z |})
                   body None in
  returns (measure q s0) (fun res _ => res = 0%Z)
  ∧ returns (run 1 [on "RESET" q] s0) (fun _ s' => getResult q s' = None)
  ∧ returns (run 1 [on "X" q; on "MEASURE" q; on "RESET" q] s0) (fun _ s1 =>
      getResult q s1 = Some 1%Z
      ∧ returns (isZero q s1) (fun zero _ => zero = true)
      ∧ returns (measure q s1) (fun res _ => res = 0%Z)
      ∧ returns (run 2 [on "RESET" q; guarded] s1) (fun _ s2 =>
          getResult q s2 = Some 1%Z
          ∧ returns (isZero q s2) (fun zero _ => zero = false))).
Proof. vm_compute. repeat split. Qed.

End SimulatorFacts.

(** ** The qubit manager *)

Module QubitManagerFacts.
Import Simulator SimulatorFrame QubitManager.
Import Properties.

Lemma isZero_pure q s :
  (∃ b, isZero q s = Ret b s) ∨ isZero q s = Throw TypeError s.
Proof.
  unfold isZero, getProb1, bind, bitOf.
  destruct (qubitMap s !! q); [left; eexists; reflexivity | right; reflexivity].
Qed.

(** C7: for an allocated handle [h], [release(h, simulator)] throws the
    fatal error exactly when [simulator.isZero(h)] is false; when it throws
    (that error, or the [TypeError] of a simulator that does not know [h]) the
    registry is untouched and [h] is still allocated; when it returns, [h] has
    been removed from the registry and nothing else has.  With a handle the
    simulator knows, the fatal error is the only one. *)
Theorem release_only_when_zero (mgr : Manager) (h : JsVal) (sim : Sim) :
  h ∈ registry mgr →
  ((∃ mgr', release h sim mgr = Throw (FatalError h) mgr')
     ↔ isZero h sim = Ret false sim)
  ∧ (∀ e mgr', release h sim mgr = Throw e mgr' → mgr' = mgr ∧ isAllocated h mgr' = true)
  ∧ (∀ mgr', release h sim mgr = Ret tt mgr' →
       isZero h sim = Ret true sim
       ∧ isAllocated h mgr' = false
       ∧ registry mgr' = registry mgr ∖ {[h]})
  ∧ release h sim mgr ≠ OutOfFuel
  ∧ (∀ pos e mgr', qubitMap sim !! h = Some pos →
       release h sim mgr = Throw e mgr' → e = FatalError h).
Proof.
  intros Hh. unfold release, isAllocated.
  destruct (isZero_pure h sim) as [[[] Hb]|Hb]; rewrite Hb; simpl.
  - split; [split; [intros [? ?]; discriminate | discriminate]|].
    split; [intros e mgr' Heq; discriminate|].
    split.
    { intros mgr' Heq. inversion Heq; subst; simpl.
      repeat split. apply bool_decide_eq_false.
      rewrite elem_of_difference, elem_of_singleton. intros [_ Hn]. now apply Hn. }
    split; [discriminate | intros pos e mgr' _ Heq; discriminate].
  - split; [split; [reflexivity | intros _; eexists; reflexivity]|].
    split.
    { intros e mgr' Heq. inversion Heq; subst. split; [reflexivity|].
      now apply bool_decide_eq_true. }
    split; [intros mgr' Heq; discriminate|].
    split; [discriminate | intros pos e mgr' _ Heq; now inversion Heq].
  - split; [split; [intros [? ?]; discriminate | discriminate]|].
    split.
    { intros e mgr' Heq. inversion Heq; subst. split; [reflexivity|].
      now apply bool_decide_eq_true. }
    split; [intros mgr' Heq; discriminate|].
    split; [discriminate|].
    intros pos e mgr' Hpos _. exfalso.
    unfold isZero, getProb1, bind, bitOf in Hb. rewrite Hpos in Hb. discriminate.
Qed.

(** A handle that was just allocated, and a fresh simulator over it: the
    release goes through and empties the registry. *)
Lemma release_only_when_zero_witness :
  let h := VSym 0 in
  let mgr := {| registry := {[h]}; minted := 1 |} in
  let sim := new [h] None Samples.no_options in
  isZero h sim = Ret true sim
  ∧ ∀ mgr', release h sim mgr = Ret tt mgr' → isAllocated h mgr' = false.
Proof.
  intros h mgr sim.
  assert (Hh : h ∈ registry mgr) by (subst mgr; simpl; set_solver).
  pose proof (release_only_when_zero mgr h sim Hh) as (_ & _ & Hret & _).
  split.
  - destruct (isZero_pure h sim) as [[b Hb]|Hb].
    + rewrite Hb. f_equal.
      assert (Hv : returns (isZero h sim) (fun zero _ => zero = true))
        by (vm_compute; reflexivity).
      rewrite Hb in Hv. exact Hv.
    + exfalso.
      assert (Hv : returns (isZero h sim) (fun zero _ => zero = true))
        by (vm_compute; reflexivity).
      rewrite Hb in Hv. exact Hv.
  - intros mgr' Hrel. apply (Hret mgr' Hrel).
Defined.

End QubitManagerFacts.


(** ** The simulator: a saturated gate error *)

Module NoiseFacts.
Import Simulator SimulatorFrame SimulatorFacts Samples.
Import Properties.

Lemma not_below_zero (r : float) : (0 <=? r)%float = true → (r <? 0)%float = false.
Proof.
  rewrite leb_spec, ltb_spec. unfold SFleb, SFltb.
  destruct (Prim2SF r) as [[]| [] | | [] m e]; simpl; try discriminate; auto.
Qed.

Section WithEngine.
Context `{E : Engine}.
Hypothesis Huniform : uniform_source E.

Lemma random_next s : random s = Ret (Math_random (draws s)) (set_draws (S (draws s)) s).
Proof. reflexivity. Qed.

(** With a gate error of 1 and no damping, the noise channel on a qubit is
    the bit-flip of every active index, after two draws. *)
Lemma noise_on_saturated nm q pos s :
  qubitMap s !! q = Some pos →
  gateError nm = 1%float → t2 nm = 0%float → t1 nm = 0%float →
  noise_on nm q s
  = Ret tt (set_draws (S (S (draws s))) (flip_all (Z.shiftl 1 (Z.of_nat pos)) s)).
Proof.
  intros Hq Hg Ht2 Ht1. unfold noise_on, bind.
  rewrite (bitOf_mapped q pos s Hq), random_next, Hg.
  rewrite (proj2 (Huniform (draws s))). unfold modify at 1.
  rewrite random_next, Ht2.
  rewrite (not_below_zero _ (proj1 (Huniform _))). unfold ret at 1.
  rewrite Ht1. reflexivity.
Qed.

(** Without readout error, a qubit whose probability of being 1 is exactly 0
    is measured as 0, after two draws. *)
Lemma measure_certainly_zero nm q pos s :
  qubitMap s !! q = Some pos → noiseModel s = Some nm →
  readoutError nm = 0%float →
  getProb1_from s (Z.shiftl 1 (Z.of_nat pos)) = 0%float →
  measure q s
  = (let* _ := collapse q 0 0 in ret 0%Z) (set_draws (S (S (draws s))) s).
Proof.
  intros Hq Hnm Hr Hp. unfold measure, getProb1.
  unfold bind at 1 2. rewrite (bitOf_mapped q pos s Hq), Hp.
  unfold bind at 1. rewrite Hnm.
  unfold bind at 1 2. rewrite random_next, Hr.
  rewrite (not_below_zero _ (proj1 (Huniform _))). unfold ret at 1.
  unfold bind at 1. rewrite random_next.
  rewrite (not_below_zero _ (proj1 (Huniform _))). reflexivity.
Qed.

Lemma run_cons fuel op rest s :
  run (S fuel) (op :: rest) s
  = (let* _ := run_op (run fuel) fuel op in forEach rest (run_op (run fuel) fuel)) s.
Proof. reflexivity. Qed.

(** A single-qubit gate that is no control block, RESET or MEASURE, under a
    noise profile: the gate, the noise channel on its qubit, a prune. *)
Lemma run_op_noisy_gate rb wf g q ps c b ts nm s :
  noiseModel s = Some nm →
  includes ["IF"; "WHILE"; "RESET"; "MEASURE"] g = false →
  run_op rb wf (MkInstr g (QVal q) ps c b ts) s
  = (let* _ := applyGate g q (default [] ps) in
     let* _ := noise_on nm q in
     modify prune) s.
Proof.
  intros Hnm Hg. unfold includes in Hg; simpl in Hg.
  repeat (apply orb_false_elim in Hg as [? Hg]).
  unfold run_op; cbn [gate qubit params].
  rewrite (String.eqb_sym g "IF"), (String.eqb_sym g "WHILE"),
    (String.eqb_sym g "RESET"), (String.eqb_sym g "MEASURE") in *.
  repeat match goal with Eg : String.eqb _ _ = false |- _ => rewrite Eg; clear Eg end.
  unfold bind at 1. rewrite Hnm.
  rewrite bool_decide_eq_true_2 by (eexists; reflexivity).
  unfold bind.
  pose proof (applyGate_keeps g q (default [] ps) s) as Hk.
  destruct (applyGate g q (default [] ps) s) as [[] s1| |]; try reflexivity.
  destruct Hk as [(_ & Hn & _) _]. unfold ret, applyStochasticNoise, bind.
  rewrite Hn, Hnm. cbn [forEach]. unfold bind, ret.
  destruct (noise_on nm q s1) as [[] s2| |]; reflexivity.
Qed.

End WithEngine.

(** The X gate on the fresh one-qubit state moves the amplitude to index 1;
    once every index is flipped back and the state pruned, no active entry has
    the bit of the qubit set. *)
Lemma X_on_fresh_qubit `{E : Engine} (q : JsVal) nm :
  ∃ s1, applyGate "X" q [] (new [q] nm no_options) = Ret tt s1
        ∧ take (activeCount s1) (indices s1) = [1%Z]
        ∧ draws s1 = 0
        ∧ let s2 := prune (set_draws 2 (flip_all 1 s1)) in
          take (activeCount s2) (indices s2) = [0%Z]
          ∧ getProb1_from s2 1 = 0%float
          ∧ (0 <? getEffectiveEpsilon s2)%float = true.
Proof.
  unfold applyGate. unfold bind at 1.
  rewrite (bitOf_mapped q 0) by apply lookup_insert_eq.
  eexists. split; [reflexivity|]. vm_compute. repeat split.
Qed.

Lemma collapse_mapped q pos result prob1 s :
  qubitMap s !! q = Some pos →
  ∃ s', collapse q result prob1 s = Ret tt s' ∧ same_cache s s'.
Proof.
  intros Hq. pose proof (collapse_keeps q result prob1 s) as Hk.
  unfold collapse, bind in *. rewrite (bitOf_mapped q pos s Hq) in *.
  eexists. split; [reflexivity | exact Hk].
Qed.

(** C6: under the profile with a gate error of 1 and nothing else, and
    whatever values in [0, 1) [Math.random()] yields, the X instruction on a
    fresh one-qubit simulator leaves the qubit in |0> (the bit-flip that
    follows the gate undoes it: the one active index is 0 again), and the
    program [X; MEASURE] returns with 0 cached for the qubit. *)
Theorem gate_error_saturated_measures_zero `{E : Engine} (fuel : nat) (q : JsVal) :
  uniform_source E →
  let s0 := new [q] (Some saturated_gate_error) no_options in
  returns (run (S fuel) [on "X" q] s0)
    (fun _ s1 => take (activeCount s1) (indices s1) = [0%Z]
                 ∧ returns (isZero q s1) (fun zero _ => zero = true))
  ∧ returns (run (S fuel) [on "X" q; on "MEASURE" q] s0)
      (fun _ s' => getResult q s' = Some 0%Z).
Proof.
  intros Hu s0.
  destruct (X_on_fresh_qubit q (Some saturated_gate_error))
    as (s1 & HX & _ & Hd & Hix & Hp & Heps).
  fold s0 in HX.
  assert (Hq0 : qubitMap s0 !! q = Some 0) by apply lookup_insert_eq.
  pose proof (applyGate_keeps "X" q [] s0) as Hk. rewrite HX in Hk.
  destruct Hk as [(Hm1 & Hn1 & _) _].
  assert (Hq1 : qubitMap s1 !! q = Some 0) by (rewrite Hm1; exact Hq0).
  assert (Hstep : run_op (run fuel) fuel (on "X" q) s0
                  = Ret tt (prune (set_draws 2 (flip_all 1 s1)))).
  { unfold on. rewrite (run_op_noisy_gate _ _ _ _ _ _ _ _ saturated_gate_error)
      by reflexivity.
    cbn [default]. unfold bind at 1. rewrite HX.
    unfold bind at 1.
    rewrite (noise_on_saturated Hu saturated_gate_error q 0 s1 Hq1) by reflexivity.
    rewrite Hd. reflexivity. }
  set (s2 := prune (set_draws 2 (flip_all 1 s1))) in *.
  assert (Hq2 : qubitMap s2 !! q = Some 0) by exact Hq1.
  assert (Hn2 : noiseModel s2 = Some saturated_gate_error)
    by (change (noiseModel s1 = Some saturated_gate_error); rewrite Hn1; reflexivity).
  split.
  - rewrite run_one, Hstep. cbn [returns]. split; [exact Hix|].
    unfold isZero, getProb1, bind. rewrite (bitOf_mapped q 0 s2 Hq2).
    cbn [returns]. change (Z.shiftl 1 (Z.of_nat 0)) with 1%Z. rewrite Hp. exact Heps.
  - rewrite run_cons. unfold bind at 1. rewrite Hstep.
    cbn [forEach]. unfold bind at 1. unfold on. rewrite run_op_MEASURE.
    unfold measure_steps. unfold bind at 1.
    rewrite (measure_certainly_zero Hu saturated_gate_error q 0 s2 Hq2 Hn2) by
      (first [reflexivity | exact Hp]).
    destruct (collapse_mapped q 0 0%Z 0%float (set_draws (S (S (draws s2))) s2) Hq2)
      as (s3 & Hc & _).
    unfold bind at 1. rewrite Hc. cbn [returns ret bind modify].
    unfold getResult. cbn. apply lookup_insert_eq.
Qed.

(** A fresh qubit, an X and a MEASURE, with [Math.random()] stuck at 0.5. *)
Lemma gate_error_saturated_measures_zero_witness :
  returns (@run (constant_engine 0.5) 1 [on "X" (VSym 0); on "MEASURE" (VSym 0)]
             (new [VSym 0] (Some saturated_gate_error) no_options))
    (fun _ s' => getResult (VSym 0) s' = Some 0%Z).
Proof.
  refine (proj2 (@gate_error_saturated_measures_zero (constant_engine 0.5) 0 (VSym 0) _)).
  intros i. vm_compute. split; reflexivity.
Defined.

End NoiseFacts.


(** ** The simulator: operations that cannot throw *)

Module SimulatorTotal.
Import Simulator SimulatorFrame SimulatorFacts.
Import Properties.

Lemma succeeds_ret q {A} (a : A) : succeeds q (ret a).
Proof. intros s _. exists a, s. split; reflexivity. Qed.

Lemma succeeds_pure q {A} (f : Sim → A) : succeeds q (fun s => Ret (f s) s).
Proof. intros s _. exists (f s), s. split; reflexivity. Qed.

Lemma succeeds_modify q (f : Sim → Sim) : (∀ s, same_cache s (f s)) → succeeds q (modify f).
Proof. intros Hf s _. exists tt, (f s). split; [reflexivity | apply Hf]. Qed.

Lemma succeeds_bind q {A B} (m : M Sim A) (k : A → M Sim B) :
  succeeds q m → (∀ a, succeeds q (k a)) → succeeds q (bind m k).
Proof.
  intros Hm Hk s Hq. destruct (Hm s Hq) as (a & s1 & Hs1 & Hc1).
  assert (Hq1 : is_Some (qubitMap s1 !! q)).
  { destruct Hc1 as [(Hmap & _) _]. now rewrite Hmap. }
  destruct (Hk a s1 Hq1) as (b & s2 & Hs2 & Hc2).
  exists b, s2. unfold bind. rewrite Hs1. split; [exact Hs2 | etransitivity; eassumption].
Qed.

Lemma succeeds_if q {A} (b : bool) (m1 m2 : M Sim A) :
  succeeds q m1 → succeeds q m2 → succeeds q (if b then m1 else m2).
Proof. destruct b; auto. Qed.

Lemma succeeds_forEach q {A} (l : list A) (f : A → M Sim unit) :
  (∀ x, x ∈ l → succeeds q (f x)) → succeeds q (forEach l f).
Proof.
  induction l as [|x l IH]; intros Hf; simpl.
  - apply succeeds_ret.
  - apply succeeds_bind.
    + apply Hf. left.
    + intros _. apply IH. intros y Hy. apply Hf. now right.
Qed.

Lemma succeeds_for_entries q {L} (body : nat → L → M Sim L) slots (loc : L) :
  (∀ i l, succeeds q (body i l)) → succeeds q (for_entries body slots loc).
Proof.
  intros Hb. revert loc. induction slots as [|i slots IH]; intros loc; simpl.
  - apply succeeds_ret.
  - apply succeeds_bind; auto.
Qed.

(** Anything that keeps the setup and returns, returns on a known qubit. *)
Lemma succeeds_of_returns q {A} (m : M Sim A) :
  keeps same_cache m → (∀ s, ∃ a s', m s = Ret a s') → succeeds q m.
Proof.
  intros Hk Hr s _. destruct (Hr s) as (a & s' & Hs). exists a, s'.
  split; [exact Hs|]. specialize (Hk s). now rewrite Hs in Hk.
Qed.

Lemma succeeds_bitOf q : succeeds q (bitOf q).
Proof.
  intros s [pos Hq]. exists (Z.shiftl 1 (Z.of_nat pos)), s.
  split; [now apply bitOf_mapped | reflexivity].
Qed.

Lemma scatter_returns width col re im m row targets loc s :
  ∃ loc' s', scatter width col re im (Some m) row targets loc s = Ret loc' s'.
Proof.
  revert row loc s. induction targets as [|tIdx rest IH]; intros row loc s; simpl.
  - eexists _, _. reflexivity.
  - destruct (collisionMap loc !! tIdx); apply IH.
Qed.

Lemma succeeds_scatter q width col re im m row targets loc :
  succeeds q (scatter width col re im (Some m) row targets loc).
Proof.
  apply succeeds_of_returns; [apply scatter_keeps|].
  intros s. apply scatter_returns.
Qed.

Lemma succeeds_accumulate_next q idx re im loc : succeeds q (accumulate_next idx re im loc).
Proof.
  apply succeeds_of_returns; [apply accumulate_next_keeps|].
  intros s. unfold accumulate_next. destruct (accumulate _ _ _ _ _ _). eexists _, _. reflexivity.
Qed.

Lemma succeeds_finish_gate q loc : succeeds q (finish_gate loc).
Proof.
  apply succeeds_of_returns; [apply finish_gate_keeps|].
  intros s. eexists _, _. reflexivity.
Qed.

Lemma succeeds_getProb1 q : succeeds q (getProb1 q).
Proof.
  unfold getProb1. apply succeeds_bind; [apply succeeds_bitOf|].
  intros target. apply succeeds_pure.
Qed.

Lemma succeeds_collapse q result prob1 : succeeds q (collapse q result prob1).
Proof.
  unfold collapse. apply succeeds_bind; [apply succeeds_bitOf|].
  intros target. apply succeeds_of_returns.
  - intros s. repeat split.
  - intros s. eexists _, _. reflexivity.
Qed.

Section WithEngine.
Context `{E : Engine}.

Lemma succeeds_random q : succeeds q random.
Proof.
  apply succeeds_of_returns; [apply random_keeps|].
  intros s. eexists _, _. reflexivity.
Qed.

Ltac total_step :=
  lazymatch goal with
  | |- succeeds _ (bind _ _) => apply succeeds_bind; [ | intros ?]
  | |- succeeds _ (ret _) => apply succeeds_ret
  | |- succeeds _ (if _ then _ else _) => apply succeeds_if
  | |- succeeds _ (modify _) => apply succeeds_modify; intros ?
  | |- succeeds _ (fun s => Ret (@?f s) s) => apply succeeds_pure
  | |- succeeds _ (for_entries _ _ _) => apply succeeds_for_entries; intros ? ?
  | |- succeeds _ (bitOf _) => apply succeeds_bitOf
  | |- succeeds _ random => apply succeeds_random
  | |- succeeds _ (getProb1 _) => apply succeeds_getProb1
  | |- succeeds _ (collapse _ _ _) => apply succeeds_collapse
  | |- succeeds _ (finish_gate _) => apply succeeds_finish_gate
  | |- succeeds _ (scatter _ _ _ _ (Some _) _ _ _) => apply succeeds_scatter
  | |- succeeds _ (accumulate_next _ _ _ _) => apply succeeds_accumulate_next
  end.

Ltac total := repeat total_step; eauto with frame.

(** The three-qubit scatter on one qubit three times over. *)
Lemma succeeds_apply3QubitGate q g ps m :
  Gates.matrix_of g ps = Some m → succeeds q (apply3QubitGate g q q q ps).
Proof.
  intros Hm. unfold apply3QubitGate. rewrite Hm. total.
  unfold apply3QubitGate_entry. intros s Hs.
  exact (succeeds_scatter q _ _ _ _ m _ _ _ s Hs).
Qed.

Lemma succeeds_apply2QubitGate q g ps m :
  Gates.matrix_of g ps = Some m → succeeds q (apply2QubitGate g q q ps).
Proof.
  intros Hm. unfold apply2QubitGate. rewrite Hm. total.
  unfold apply2QubitGate_entry. intros s Hs.
  destruct (String.eqb g "CZ"); [exact (succeeds_accumulate_next q _ _ _ _ s Hs)|].
  destruct (String.eqb g "CNOT" || String.eqb g "SWAP");
    [exact (succeeds_accumulate_next q _ _ _ _ s Hs)|].
  exact (succeeds_scatter q _ _ _ _ m _ _ _ s Hs).
Qed.

Lemma succeeds_noise_on q nm : succeeds q (noise_on nm q).
Proof. unfold noise_on. total. Qed.

Lemma is_Some_noiseModel s :
  bool_decide (is_Some (noiseModel s)) = match noiseModel s with Some _ => true | None => false end.
Proof.
  destruct (noiseModel s).
  - apply bool_decide_eq_true_2. eexists; reflexivity.
  - apply bool_decide_eq_false_2. intros [? ?]; discriminate.
Qed.

(** What follows a gate application in [run]: the noise channel on each
    qubit of the instruction and a prune, when there is a noise profile. *)
Lemma noise_after_gate_returns q (l : list JsVal) s s1 :
  (∀ v, v ∈ l → v = q) → is_Some (qubitMap s !! q) → same_cache s s1 →
  ∃ s', (if bool_decide (is_Some (noiseModel s))
         then let* _ := applyStochasticNoise (QArr l) in modify prune
         else ret tt) s1 = Ret tt s'.
Proof.
  intros Hl Hq Hc. rewrite is_Some_noiseModel.
  destruct Hc as [(Hmap & Hn & _) _].
  destruct (noiseModel s) as [nm|] eqn:Hnm; [|eexists; reflexivity].
  assert (Hq1 : is_Some (qubitMap s1 !! q)) by now rewrite Hmap.
  assert (Hf : succeeds q (forEach l (noise_on nm))).
  { apply succeeds_forEach. intros v Hv. rewrite (Hl v Hv). apply succeeds_noise_on. }
  destruct (Hf s1 Hq1) as ([] & s2 & Hs2 & _).
  unfold applyStochasticNoise, bind. rewrite Hn, Hs2. eexists; reflexivity.
Qed.

(** A CCX on one qubit three times over, and an RZZ on one qubit twice:
    [run] executes them, noise included, without throwing. *)
Lemma run_duplicate_CCX_returns fuel q ps c b ts s :
  is_Some (qubitMap s !! q) →
  ∃ s', run (S fuel) [MkInstr "CCX" (QArr [q; q; q]) ps c b ts] s = Ret tt s'.
Proof.
  intros Hq. rewrite run_one. unfold run_op; cbn -[apply3QubitGate applyStochasticNoise].
  unfold bind at 1 2 3.
  destruct (Gates.matrix_of "CCX" (default [] ps)) as [m|] eqn:Hm; [|discriminate Hm].
  destruct (succeeds_apply3QubitGate q "CCX" (default [] ps) m Hm s Hq) as ([] & s1 & Hs1 & Hc1).
  rewrite Hs1. unfold ret at 1.
  apply (noise_after_gate_returns q [q; q; q] s s1); try assumption.
  intros v Hv. repeat (apply elem_of_cons in Hv as [->|Hv]; [reflexivity|]). inversion Hv.
Qed.

Lemma run_duplicate_RZZ_returns fuel q ps c b ts s :
  is_Some (qubitMap s !! q) →
  ∃ s', run (S fuel) [MkInstr "RZZ" (QArr [q; q]) ps c b ts] s = Ret tt s'.
Proof.
  intros Hq. rewrite run_one. unfold run_op; cbn -[apply2QubitGate applyStochasticNoise].
  unfold bind at 1 2 3.
  destruct (Gates.matrix_of "RZZ" (default [] ps)) as [m|] eqn:Hm; [|discriminate Hm].
  destruct (succeeds_apply2QubitGate q "RZZ" (default [] ps) m Hm s Hq) as ([] & s1 & Hs1 & Hc1).
  rewrite Hs1. unfold ret at 1.
  apply (noise_after_gate_returns q [q; q] s s1); try assumption.
  intros v Hv. repeat (apply elem_of_cons in Hv as [->|Hv]; [reflexivity|]). inversion Hv.
Qed.

End WithEngine.

End SimulatorTotal.


(** ** The operation recorder *)

Module OperationsFacts.
Import QubitManager Operations.
Import Properties.

Section WithEngine.
Context `{E : Engine}.

Lemma validate_allocated q w :
  isAllocated q (manager w) = true → validate q w = Ret tt w.
Proof. intros Hq. unfold validate. now rewrite Hq. Qed.

Lemma validate_unallocated q w :
  isAllocated q (manager w) = false → validate q w = Throw (UsageError q) w.
Proof. intros Hq. unfold validate. now rewrite Hq. Qed.

Lemma addOp_records c g q ps cnd b w :
  addOp c g q ps cnd b w
  = Ret tt (recorded c (MkInstr g q (Some (default [] ps)) cnd b (Some (Date_now (clock w)))) w).
Proof. reflexivity. Qed.

Lemma recorded_instructions c op w :
  instructions_of c (recorded c op w) = instructions_of c w ++ [op].
Proof.
  unfold instructions_of, recorded, getInstructions; simpl.
  now rewrite lookup_insert_eq.
Qed.

(** A call of a method that only validates and records: it throws exactly
    the first failing check, with the world untouched, or it returns. *)
Lemma invoke_records_one r c w :
  records_one c = true →
  match failed_check c (manager w) with
  | Some e => invoke r c w = Throw e w
  | None => ∃ w', invoke r c w = Ret None w'
  end.
Proof.
  intros Hc. unfold failed_check.
  destruct c; try discriminate Hc; cbn [handles find invoke];
    unfold void, h, x, y, z, s, t, rx, ry, rz, gate1, rotation, u3, cnot, cz, rzz, swap, ccx, reset;
    unfold bind;
    repeat match goal with
      | |- context [validate ?q w] =>
          let Hq := fresh "Hq" in
          destruct (isAllocated q (manager w)) eqn:Hq;
          [rewrite (validate_allocated q w Hq) | rewrite (validate_unallocated q w Hq)];
          cbn [negb]
      end;
    try reflexivity;
    try (rewrite addOp_records; eexists; reflexivity);
    try (case_bool_decide; [reflexivity | rewrite addOp_records; eexists; reflexivity]).
Qed.

(** Validation comes first in every method. *)
Lemma invoke_failed_check r c w e :
  failed_check c (manager w) = Some e → invoke r c w = Throw e w.
Proof.
  intros He. destruct (records_one c) eqn:Hc.
  - pose proof (invoke_records_one r c w Hc) as Hi. now rewrite He in Hi.
  - unfold failed_check in He.
    destruct c; try discriminate Hc; cbn [handles find] in He;
      destruct (isAllocated _ (manager w)) eqn:Hq; cbn [negb] in He; try discriminate He;
      injection He as <-; cbn [invoke]; unfold void, if_, while_, block, m, bind;
      now rewrite (validate_unallocated _ w Hq).
Qed.

(** C9: a recorder call whose validation fails (a referenced handle is not
    allocated; control = target for [cnot] and [cz]; a [swap] of a qubit with
    itself) throws that error and leaves the world, and so the IR buffer,
    exactly as it was: this holds for every method, [if], [while] and [m]
    included, whose callback and flush hook are not reached.  A method that
    only validates and records throws for no other reason, so whenever it
    throws nothing has been appended. *)
Theorem failed_operation_appends_nothing (r : Recorder) (c : Call) (w : World) :
  (∀ e, failed_check c (manager w) = Some e →
        invoke r c w = Throw e w
        ∧ ends_in (invoke r c w)
            (fun w' => instructions_of (circuit r) w' = instructions_of (circuit r) w))
  ∧ (records_one c = true →
     ∀ e w', invoke r c w = Throw e w' →
             w' = w ∧ failed_check c (manager w) = Some e).
Proof.
  split.
  - intros e He. rewrite (invoke_failed_check r c w e He). split; reflexivity.
  - intros Hc e w' Hthrow. pose proof (invoke_records_one r c w Hc) as Hi.
    destruct (failed_check c (manager w)) as [e0|].
    + rewrite Hi in Hthrow. now inversion Hthrow.
    + destruct Hi as [w0 Hi]. rewrite Hi in Hthrow. discriminate.
Qed.

Lemma prune_one_multi_qubit (op : Instr) :
  Optimizer.isIdentity op = false → length (qubits_of op) ≠ 1 →
  Optimizer.prune [op] = Some [op].
Proof.
  intros Hid Hlen. unfold Optimizer.prune, Optimizer.loop, Optimizer.step.
  rewrite Hid. unfold Optimizer.findCommutingPartner.
  destruct (qubits_of op) as [|a [|a' l]] eqn:Hq; try (exfalso; apply Hlen; reflexivity);
    unfold Optimizer.append; cbn [Optimizer.optimized app map concat Optimizer.keep];
    rewrite Hid; reflexivity.
Qed.

Lemma compile_passes_through (op : Instr) :
  Optimizer.isIdentity op = false → length (qubits_of op) ≠ 1 →
  includes decomposed_gates (gate op) = false →
  Compiler.compile [op] = Some [op].
Proof.
  intros Hid Hlen Hg. unfold Compiler.compile.
  rewrite (prune_one_multi_qubit op Hid Hlen).
  rewrite TranspilerFacts.transpile_one, (TranspilerFacts.decompose_default op Hg).
  apply (prune_one_multi_qubit op Hid Hlen).
Qed.

(** C10: for an allocated handle [q], [ccx(q, q, q)] and [rzz(q, q, θ)]
    return and append their instruction, while [cnot(q, q)], [cz(q, q)] and
    [swap(q, q)] throw and append nothing; the compiler hands the CCX and the
    RZZ on to the simulator as they are, and [run] executes them, on any
    simulator that knows [q], without throwing. *)
Theorem ccx_rzz_accept_repeated_qubits (r : Recorder) (q : JsVal) (θ : float) (w : World) :
  isAllocated q (manager w) = true →
  let ccx_op := MkInstr "CCX" (QArr [q; q; q]) (Some []) None None (Some (Date_now (clock w))) in
  let rzz_op := MkInstr "RZZ" (QArr [q; q]) (Some [θ]) None None (Some (Date_now (clock w))) in
  (ccx r q q q w = Ret tt (recorded (circuit r) ccx_op w)
   ∧ instructions_of (circuit r) (recorded (circuit r) ccx_op w)
     = instructions_of (circuit r) w ++ [ccx_op])
  ∧ (rzz r q q θ w = Ret tt (recorded (circuit r) rzz_op w)
     ∧ instructions_of (circuit r) (recorded (circuit r) rzz_op w)
       = instructions_of (circuit r) w ++ [rzz_op])
  ∧ cnot r q q w = Throw (PhysicsError q) w
  ∧ cz r q q w = Throw (PhysicsError q) w
  ∧ swap r q q w = Throw SwapSelfError w
  ∧ Compiler.compile [ccx_op] = Some [ccx_op]
  ∧ Compiler.compile [rzz_op] = Some [rzz_op]
  ∧ ∀ fuel s, is_Some (Simulator.qubitMap s !! q) →
      (∃ s', Simulator.run (S fuel) [ccx_op] s = Ret tt s')
      ∧ (∃ s', Simulator.run (S fuel) [rzz_op] s = Ret tt s').
Proof.
  intros Hq ccx_op rzz_op.
  repeat match goal with |- _ ∧ _ => split end.
  - unfold ccx, bind. now rewrite !(validate_allocated q w Hq), addOp_records.
  - apply recorded_instructions.
  - unfold rzz, bind. now rewrite !(validate_allocated q w Hq), addOp_records.
  - apply recorded_instructions.
  - unfold cnot, bind. rewrite !(validate_allocated q w Hq).
    now rewrite bool_decide_eq_true_2.
  - unfold cz, bind. rewrite !(validate_allocated q w Hq).
    now rewrite bool_decide_eq_true_2.
  - unfold swap, bind. rewrite !(validate_allocated q w Hq).
    now rewrite bool_decide_eq_true_2.
  - apply compile_passes_through; [apply OptimizerFacts.isIdentity_other| |]; try reflexivity.
    discriminate.
  - apply compile_passes_through; [apply OptimizerFacts.isIdentity_other| |]; try reflexivity.
    discriminate.
  - intros fuel s Hs. split.
    + apply SimulatorTotal.run_duplicate_CCX_returns, Hs.
    + apply SimulatorTotal.run_duplicate_RZZ_returns, Hs.
Qed.

End WithEngine.

(** A self-controlled [cnot] on an allocated qubit: the physics error, and
    the world as it was. *)
Lemma failed_operation_appends_nothing_witness :
  let E := Samples.constant_engine 0.5 in
  let w := {| circuits := {[0 := [Samples.on "H" (VSym 0)]]};
              manager := {| registry := {[VSym 0]}; minted := 1 |};
              sim := Simulator.new [VSym 0] None Samples.no_options;
              clock := 1 |} in
  let r := {| circuit := 0; onFlush := fun _ => ret None |} in
  invoke r (call_cnot (VSym 0) (VSym 0)) w = Throw (PhysicsError (VSym 0)) w
  ∧ invoke r (call_x (VSym 1)) w = Throw (UsageError (VSym 1)) w.
Proof.
  intros E w r. split.
  - apply (proj1 (@failed_operation_appends_nothing E r (call_cnot (VSym 0) (VSym 0)) w)).
    vm_compute. reflexivity.
  - apply (proj1 (@failed_operation_appends_nothing E r (call_x (VSym 1)) w)).
    vm_compute. reflexivity.
Defined.

(** The one allocated qubit of a scope, three times over in a CCX: the call
    returns and the instruction is in the buffer. *)
Lemma ccx_rzz_accept_repeated_qubits_witness :
  let E := Samples.constant_engine 0.5 in
  let q := VSym 0 in
  let w := {| circuits := {[0 := []]};
              manager := {| registry := {[q]}; minted := 1 |};
              sim := Simulator.new [q] None Samples.no_options;
              clock := 0 |} in
  let r := {| circuit := 0; onFlush := fun _ => ret None |} in
  returns (ccx r q q q w)
    (fun _ w' => instructions_of 0 w'
                 = [MkInstr "CCX" (QArr [q; q; q]) (Some []) None None (Some 0%Z)])
  ∧ ∃ s', Simulator.run 1
            [MkInstr "CCX" (QArr [q; q; q]) (Some []) None None (Some (Date_now (clock w)))]
            (sim w)
          = Ret tt s'.
Proof.
  intros E q w r.
  assert (Hq : isAllocated q (manager w) = true) by (vm_compute; reflexivity).
  pose proof (@ccx_rzz_accept_repeated_qubits E r q 0%float w Hq)
    as ((Hccx & Hins) & _ & _ & _ & _ & _ & _ & Hrun).
  split.
  - rewrite Hccx. exact Hins.
  - apply (Hrun 0 (sim w)). eexists. apply lookup_insert_eq.
Defined.

End OperationsFacts.


(** ** The active indices stay pairwise distinct *)

Module IndexInvariant.
Import Simulator SimulatorFrame SimulatorFacts IndexBits.
Import Properties.

Lemma idx_at_lookup (buf : list Z) i : i < length buf → buf !! i = Some (idx_at buf i).
Proof.
  intros Hi. unfold idx_at. destruct (nth_lookup_or_length buf i 0%Z) as [Hl|Hl]; [exact Hl | lia].
Qed.

Lemma idx_at_Some (buf : list Z) i v : buf !! i = Some v → idx_at buf i = v.
Proof. intros Hl. unfold idx_at. now apply nth_lookup_Some. Qed.

Lemma idx_store_small buf i v : in_range v → idx_store buf i v = <[i := v]> buf.
Proof. intros Hv. unfold idx_store. now rewrite wrap64_small. Qed.

Lemma idx_store_length buf i v : length (idx_store buf i v) = length buf.
Proof. apply length_insert. Qed.

Lemma idx_store_in_range buf i v : Forall in_range buf → Forall in_range (idx_store buf i v).
Proof. intros Hb. apply Forall_insert; [exact Hb | apply wrap64_in_range]. Qed.

Lemma idx_at_in_range buf i : Forall in_range buf → in_range (idx_at buf i).
Proof.
  intros Hb. unfold idx_at. destruct (nth_lookup_or_length buf i 0%Z) as [Hl|Hl].
  - exact (Forall_lookup_1 _ _ _ _ Hb Hl).
  - rewrite nth_overflow by exact Hl. apply in_range_0.
Qed.

(** *** Compaction in place: [#prune] and [#collapse] *)

Lemma prune_entry_moves threshold c k :
  k < length (c_indices c) → Forall in_range (c_indices c) →
  moves_down c (prune_entry threshold c k) k.
Proof.
  intros Hk Hr. unfold prune_entry.
  destruct (threshold <=? magnitude (c_amplitudes c) k)%float; [|left; split; reflexivity].
  right. destruct (Nat.eqb_spec (writeIdx c) k) as [->|Hne]; simpl.
  - split; [|reflexivity]. symmetry. apply list_insert_id. now apply idx_at_lookup.
  - split; [|reflexivity]. apply idx_store_small. now apply idx_at_in_range.
Qed.

Lemma collapse_entry_moves target result norm c k :
  Forall in_range (c_indices c) →
  moves_down c (collapse_entry target result norm c k) k.
Proof.
  intros Hr. unfold collapse_entry.
  destruct (_ || _); [|left; split; reflexivity].
  right. simpl. split; [|reflexivity]. apply idx_store_small. now apply idx_at_in_range.
Qed.

Lemma compact_fold (f : Compact → nat → Compact) (ix0 : list Z) :
  Forall in_range ix0 →
  (∀ c k, k < length (c_indices c) → Forall in_range (c_indices c) →
          moves_down c (f c k) k) →
  ∀ n c0, n ≤ length ix0 → c_indices c0 = ix0 → writeIdx c0 = 0 →
    let c := foldl f c0 (seq 0 n) in
    length (c_indices c) = length ix0
    ∧ writeIdx c ≤ n
    ∧ Forall in_range (c_indices c)
    ∧ take (writeIdx c) (c_indices c) `sublist_of` take n ix0
    ∧ drop n (c_indices c) = drop n ix0.
Proof.
  intros Hr0 Hf n c0 Hn Hc0 Hw0. cbv zeta. induction n as [|n IH].
  - simpl. rewrite Hc0, Hw0. repeat split; try assumption; try lia.
    apply sublist_nil_l.
  - rewrite seq_S, foldl_app. simpl.
    destruct IH as (Hlen & Hw & Hr & Hsub & Hdrop); [lia|].
    set (c := foldl f c0 (seq 0 n)) in *.
    assert (Hx : ix0 !! n = Some (idx_at (c_indices c) n)).
    { assert (Hc : drop n (c_indices c) !! 0 = Some (idx_at (c_indices c) n))
        by (rewrite lookup_drop, Nat.add_0_r; apply idx_at_lookup; lia).
      rewrite Hdrop, lookup_drop, Nat.add_0_r in Hc. exact Hc. }
    assert (Hdrop' : drop (S n) (c_indices c) = drop (S n) ix0).
    { replace (S n) with (n + 1) by lia. now rewrite <- !drop_drop, Hdrop. }
    destruct (Hf c n) as [[Hix Hwi]|[Hix Hwi]]; [lia | exact Hr | |]; rewrite Hix, Hwi.
    + repeat split; try assumption; try lia.
      rewrite (take_S_r _ _ _ Hx). now apply sublist_inserts_r.
    + rewrite length_insert. repeat split; try assumption; try lia.
      * apply Forall_insert; [exact Hr | now apply idx_at_in_range].
      * rewrite (take_S_r _ _ (idx_at (c_indices c) n)).
        -- rewrite take_insert_ge by lia. rewrite (take_S_r _ _ _ Hx).
           apply sublist_app; [exact Hsub | reflexivity].
        -- apply list_lookup_insert_eq. lia.
      * now rewrite drop_insert_lt by lia.
Qed.

(** Storing [g] of each of the first [n] elements, slot by slot. *)
Lemma foldl_update_prefix (g : Z → Z) (ix : list Z) n :
  n ≤ length ix →
  foldl (fun ix i => <[i := g (idx_at ix i)]> ix) ix (seq 0 n)
  = (g <$> take n ix) ++ drop n ix.
Proof.
  induction n as [|n IH]; intros Hn; [reflexivity|].
  rewrite seq_S, foldl_app, IH by lia. simpl.
  destruct (ix !! n) as [v|] eqn:Hv; [|apply lookup_ge_None in Hv; lia].
  assert (Hlen : length (g <$> take n ix) = n) by (rewrite length_fmap, length_take; lia).
  assert (Hat : idx_at ((g <$> take n ix) ++ drop n ix) n = v).
  { apply idx_at_Some. rewrite lookup_app_r by lia. rewrite Hlen, Nat.sub_diag, lookup_drop.
    now rewrite Nat.add_0_r. }
  rewrite Hat. rewrite (take_S_r _ _ _ Hv), fmap_app. simpl.
  rewrite insert_app_r_alt by lia. rewrite Hlen, Nat.sub_diag.
  rewrite (drop_S _ _ _ Hv). simpl. now rewrite <- app_assoc.
Qed.

(** *** What keeps a simulator well formed *)

Lemma well_formed_ext s s' :
  indices s' = indices s → indicesAux s' = indicesAux s →
  activeCount s' = activeCount s → qubitMap s' = qubitMap s →
  well_formed s → well_formed s'.
Proof.
  intros Hi Ha Hc Hm [H1 H2 H3 H4 H5 H6 H7].
  split; unfold active in *; rewrite ?Hi, ?Ha, ?Hc, ?Hm; assumption.
Qed.

Lemma compacted_well_formed (f : Compact → nat → Compact) s :
  (∀ c k, k < length (c_indices c) → Forall in_range (c_indices c) →
          moves_down c (f c k) k) →
  well_formed s →
  let c := foldl f {| c_indices := indices s; c_amplitudes := amplitudes s; writeIdx := 0 |}
             (seq 0 (activeCount s)) in
  well_formed (compacted c s) ∧ active (compacted c s) `sublist_of` active s.
Proof.
  intros Hf Hwf.
  destruct (compact_fold f (indices s) (wf_range s Hwf) Hf (activeCount s)
              {| c_indices := indices s; c_amplitudes := amplitudes s; writeIdx := 0 |}
              (wf_count s Hwf) eq_refl eq_refl) as (Hlen & Hw & Hr & Hsub & _).
  cbv zeta. set (c := foldl f _ _) in *.
  split; [|exact Hsub].
  split; unfold active; cbn.
  - rewrite Hlen. pose proof (wf_count s Hwf). lia.
  - rewrite Hlen. apply (wf_aux s Hwf).
  - exact Hr.
  - apply (wf_range_aux s Hwf).
  - apply (wf_positions s Hwf).
  - apply (wf_injective s Hwf).
  - eapply sublist_NoDup; [apply (wf_distinct s Hwf) | exact Hsub].
Qed.

Lemma prune_well_formed s : well_formed s → well_formed (prune s).
Proof.
  intros Hwf. unfold prune.
  apply (compacted_well_formed (prune_entry _) s); [|exact Hwf].
  intros c k Hk Hr. now apply prune_entry_moves.
Qed.

Lemma prune_active_sublist s : well_formed s → active (prune s) `sublist_of` active s.
Proof.
  intros Hwf. unfold prune.
  apply (compacted_well_formed (prune_entry _) s); [|exact Hwf].
  intros c k Hk Hr. now apply prune_entry_moves.
Qed.

Lemma flip_all_indices bit s :
  activeCount s ≤ length (indices s) →
  indices (flip_all bit s)
  = ((fun v => wrap64 (Z.lxor v bit)) <$> active s) ++ drop (activeCount s) (indices s).
Proof.
  intros Hn. unfold flip_all, active, idx_store. cbn.
  now apply (foldl_update_prefix (fun v => wrap64 (Z.lxor v bit))).
Qed.

Lemma flip_all_well_formed pos s :
  pos < 64 → well_formed s → well_formed (flip_all (bit_at pos) s).
Proof.
  intros Hpos Hwf. pose proof (flip_all_indices (bit_at pos) s (wf_count s Hwf)) as Hix.
  assert (Hlen : length (active s) = activeCount s).
  { unfold active. rewrite length_take. pose proof (wf_count s Hwf). lia. }
  split; unfold active; rewrite ?Hix.
  - cbn. rewrite length_app, length_fmap, Hlen, length_drop.
    pose proof (wf_count s Hwf). lia.
  - cbn. rewrite length_app, length_fmap, Hlen, length_drop.
    pose proof (wf_count s Hwf). rewrite (wf_aux s Hwf). lia.
  - apply Forall_app. split.
    + apply Forall_fmap, Forall_forall. intros v _. apply wrap64_in_range.
    + apply Forall_drop, (wf_range s Hwf).
  - apply (wf_range_aux s Hwf).
  - apply (wf_positions s Hwf).
  - apply (wf_injective s Hwf).
  - change (activeCount (flip_all (bit_at pos) s)) with (activeCount s).
    rewrite take_app_length' by (now rewrite length_fmap).
    apply NoDup_fmap_2_strong; [|apply (wf_distinct s Hwf)].
    intros a b Ha Hb Heq.
    assert (Hra : in_range a).
    { apply (Forall_forall in_range (active s)); [|exact Ha].
      apply Forall_take, (wf_range s Hwf). }
    assert (Hrb : in_range b).
    { apply (Forall_forall in_range (active s)); [|exact Hb].
      apply Forall_take, (wf_range s Hwf). }
    rewrite !wrap64_small in Heq by (apply lxor_in_range; [assumption | now apply bit_at_in_range]).
    now apply lxor_cancel in Heq.
Qed.

Lemma maintains_ret D {A} (a : A) : maintains D (ret a).
Proof. intros s Hs. exact Hs. Qed.

Lemma maintains_throw D {A} e : maintains D (@throw Sim A e).
Proof. intros s Hs. exact Hs. Qed.

Lemma maintains_pure D {A} (f : Sim → A) : maintains D (fun s => Ret (f s) s).
Proof. intros s Hs. exact Hs. Qed.

Lemma maintains_modify D (f : Sim → Sim) :
  (∀ s, well_formed s → well_formed (f s)) → maintains D (modify f).
Proof. intros Hf s Hs. now apply Hf. Qed.

Lemma maintains_bind D {A B} (m : M Sim A) (k : A → M Sim B) :
  maintains D m → (∀ a, maintains D (k a)) → maintains D (bind m k).
Proof.
  intros Hm Hk s Hs. unfold bind. specialize (Hm s Hs).
  destruct (m s) as [a s1|e s1|]; [|exact Hm|exact Hm].
  apply (Hk a s1 Hm).
Qed.

Lemma maintains_if D {A} (b : bool) (m1 m2 : M Sim A) :
  maintains D m1 → maintains D m2 → maintains D (if b then m1 else m2).
Proof. destruct b; auto. Qed.

Lemma maintains_forEach D {A} (l : list A) (f : A → M Sim unit) :
  (∀ x, x ∈ l → maintains D (f x)) → maintains D (forEach l f).
Proof.
  induction l as [|x l IH]; intros Hf; simpl.
  - apply maintains_ret.
  - apply maintains_bind.
    + apply Hf. left.
    + intros _. apply IH. intros y Hy. apply Hf. now right.
Qed.

Lemma maintains_weaken (D : Prop) {A} (m : M Sim A) : maintains False m → maintains D m.
Proof.
  intros Hm s Hs. specialize (Hm s Hs). destruct (m s); try exact Hm. destruct Hm.
Qed.

Lemma bitOf_maintains D q : maintains D (bitOf q).
Proof. intros s Hs. unfold bitOf. destruct (qubitMap s !! q); exact Hs. Qed.

Lemma getProb1_maintains D q : maintains D (getProb1 q).
Proof.
  unfold getProb1. apply maintains_bind; [apply bitOf_maintains|].
  intros target. apply maintains_pure.
Qed.

Lemma collapse_maintains D q result prob1 : maintains D (collapse q result prob1).
Proof.
  unfold collapse. apply maintains_bind; [apply bitOf_maintains|].
  intros target s Hs.
  apply (compacted_well_formed (collapse_entry target result _) s); [|exact Hs].
  intros c k _ Hr. now apply collapse_entry_moves.
Qed.

Lemma scale_ones_well_formed bit k s : well_formed s → well_formed (scale_ones bit k s).
Proof. apply well_formed_ext; reflexivity. Qed.

Lemma normalize_well_formed s : well_formed s → well_formed (normalize s).
Proof. apply well_formed_ext; reflexivity. Qed.

End IndexInvariant.


(** ** The collision map deduplicates the scatter targets *)

Module ScatterInvariant.
Import Simulator SimulatorFrame SimulatorFacts IndexBits IndexInvariant.
Import Properties.

#[export] Instance aux_only_preorder : PreOrder aux_only.
Proof.
  split.
  - intros s. repeat split.
  - intros s1 s2 s3 (?&?&?&?) (?&?&?&?). repeat split; congruence.
Qed.

Lemma scatter_ok_empty aux : scatter_ok no_entries aux.
Proof.
  split.
  - intros k p Hk. cbn in Hk. now rewrite lookup_empty in Hk.
  - intros p Hp. cbn in Hp. lia.
Qed.

Lemma scatter_ok_NoDup loc aux : scatter_ok loc aux → NoDup (take (nextCount loc) aux).
Proof.
  intros [Hslots Howned]. apply NoDup_alt. intros i j x Hi Hj.
  apply lookup_take_Some in Hi as [Hi Hil], Hj as [Hj Hjl].
  destruct (Howned i Hil) as [ki Hki], (Howned j Hjl) as [kj Hkj].
  destruct (Hslots ki i Hki) as [_ Hai], (Hslots kj j Hkj) as [_ Haj].
  assert (ki = x) by congruence. assert (kj = x) by congruence. subst ki kj.
  congruence.
Qed.

(** A key the map does not have claims the next slot. *)
Lemma scatter_ok_claim loc aux k :
  collisionMap loc !! k = None → in_range k → nextCount loc < length aux →
  scatter_ok loc aux →
  scatter_ok {| collisionMap := <[k := nextCount loc]> (collisionMap loc);
                nextCount := S (nextCount loc) |}
             (idx_store aux (nextCount loc) k).
Proof.
  intros Hnew Hk Hlen [Hslots Howned]. rewrite idx_store_small by exact Hk.
  split; cbn.
  - intros k' p Hk'. destruct (decide (k = k')) as [<-|Hne].
    + rewrite lookup_insert_eq in Hk'. injection Hk' as <-.
      split; [lia|]. now apply list_lookup_insert_eq.
    + rewrite lookup_insert_ne in Hk' by exact Hne.
      destruct (Hslots k' p Hk') as [Hp Hat]. split; [lia|].
      rewrite list_lookup_insert_ne by lia. exact Hat.
  - intros p Hp. destruct (decide (p = nextCount loc)) as [->|Hne].
    + exists k. apply lookup_insert_eq.
    + destruct (Howned p) as [k' Hk']; [lia|]. exists k'.
      rewrite lookup_insert_ne; [exact Hk'|]. intros <-. congruence.
Qed.

Ltac conj_split :=
  repeat match goal with
    | |- _ ∧ _ => split
    | |- aux_only _ _ => unfold aux_only
    end.

(** The row loop of a gate application. *)
Lemma scatter_inv width col re im matrix targets :
  ∀ row loc s,
    Forall in_range targets →
    scatter_ok loc (indicesAux s) → Forall in_range (indicesAux s) →
    nextCount loc + length targets ≤ length (indicesAux s) →
    match scatter width col re im matrix row targets loc s with
    | Ret loc' s' =>
        aux_only s s' ∧ scatter_ok loc' (indicesAux s') ∧ Forall in_range (indicesAux s')
        ∧ nextCount loc' ≤ nextCount loc + length targets
    | Throw _ s' => aux_only s s' ∧ Forall in_range (indicesAux s')
    | OutOfFuel => False
    end.
Proof.
  induction targets as [|tIdx rest IH]; intros row loc s Ht Hok Hr Hlen; simpl.
  - conj_split; try reflexivity; try assumption; lia.
  - apply Forall_cons in Ht as [Htidx Hrest]. simpl in Hlen.
    destruct (collisionMap loc !! tIdx) as [bPos|] eqn:Hmap.
    + destruct matrix as [m|]; [|conj_split; try reflexivity; assumption].
      match goal with |- context [scatter _ _ _ _ _ _ rest ?l ?st] =>
        specialize (IH (S row) l st Hrest Hok Hr ltac:(cbn; lia));
        destruct (scatter width col re im (Some m) (S row) rest l st) as [loc' s'|e s'|]
      end; [|exact IH|exact IH].
      destruct IH as (Ha & Hok' & Hr' & Hn). conj_split; try apply Ha; try assumption. lia.
    + assert (Hok1 := scatter_ok_claim loc (indicesAux s) tIdx Hmap Htidx ltac:(lia) Hok).
      assert (Hr1 : Forall in_range (idx_store (indicesAux s) (nextCount loc) tIdx))
        by now apply idx_store_in_range.
      destruct matrix as [m|].
      2:{ conj_split; cbn; try reflexivity; try assumption. apply idx_store_length. }
      match goal with |- context [scatter _ _ _ _ _ _ rest ?l ?st] =>
        specialize (IH (S row) l st Hrest Hok1 Hr1
                      ltac:(cbn; rewrite idx_store_length; lia));
        destruct (scatter width col re im (Some m) (S row) rest l st) as [loc' s'|e s'|]
      end; [| |exact IH].
      * destruct IH as ((Hi & Hc & Hm & Hl) & Hok' & Hr' & Hn). cbn in *.
        rewrite idx_store_length in Hl.
        conj_split; try assumption. lia.
      * destruct IH as ((Hi & Hc & Hm & Hl) & Hr'). cbn in *.
        rewrite idx_store_length in Hl. conj_split; assumption.
Qed.

(** [#accumulate] on a key the map does not have. *)
Lemma accumulate_next_fresh idx re im loc s :
  collisionMap loc !! idx = None → in_range idx →
  nextCount loc < length (indicesAux s) →
  scatter_ok loc (indicesAux s) → Forall in_range (indicesAux s) →
  ∃ s', accumulate_next idx re im loc s
        = Ret {| collisionMap := <[idx := nextCount loc]> (collisionMap loc);
                 nextCount := S (nextCount loc) |} s'
        ∧ aux_only s s'
        ∧ scatter_ok {| collisionMap := <[idx := nextCount loc]> (collisionMap loc);
                        nextCount := S (nextCount loc) |} (indicesAux s')
        ∧ Forall in_range (indicesAux s').
Proof.
  intros Hnew Hidx Hlen Hok Hr. unfold accumulate_next, accumulate. rewrite Hnew.
  eexists. split; [reflexivity|]. cbn. conj_split; try reflexivity.
  - apply idx_store_length.
  - apply (scatter_ok_claim loc (indicesAux s) idx Hnew Hidx Hlen Hok).
  - now apply idx_store_in_range.
Qed.

(** A loop over the entries, by an invariant in the number of entries
    done. *)
Lemma for_entries_inv {L} (Inv : nat → L → Sim → Prop) (Exc : Sim → Prop)
    (body : nat → L → M Sim L) (n : nat) :
  (∀ i loc s, i < n → Inv i loc s →
     match body i loc s with
     | Ret loc' s' => Inv (S i) loc' s'
     | Throw _ s' => Exc s'
     | OutOfFuel => False
     end) →
  ∀ loc s, Inv 0 loc s →
    match for_entries body (seq 0 n) loc s with
    | Ret loc' s' => Inv n loc' s'
    | Throw _ s' => Exc s'
    | OutOfFuel => False
    end.
Proof.
  intros Hbody.
  assert (Hgen : ∀ m a loc s, a + m = n → Inv a loc s →
            match for_entries body (seq a m) loc s with
            | Ret loc' s' => Inv n loc' s'
            | Throw _ s' => Exc s'
            | OutOfFuel => False
            end).
  { induction m as [|m IH]; intros a loc s Ham Hinv; simpl.
    - replace n with a by lia. exact Hinv.
    - unfold bind. specialize (Hbody a loc s ltac:(lia) Hinv).
      destruct (body a loc s) as [loc1 s1|e s1|]; [|exact Hbody|exact Hbody].
      apply IH; [lia | exact Hbody]. }
  intros loc s Hinv. now apply (Hgen n 0).
Qed.

End ScatterInvariant.

(** ** A gate application leaves a well-formed simulator *)

Module GateInvariant.
Import Simulator SimulatorFrame SimulatorFacts IndexBits IndexInvariant ScatterInvariant.
Import Properties.

Lemma ensureCapacity_well_formed required s :
  well_formed s →
  well_formed (ensureCapacity required s)
  ∧ activeCount (ensureCapacity required s) = activeCount s
  ∧ qubitMap (ensureCapacity required s) = qubitMap s
  ∧ required ≤ length (indicesAux (ensureCapacity required s)).
Proof.
  intros Hwf. unfold ensureCapacity.
  destruct (Nat.ltb_spec (length (indices s)) required) as [Hlt|Hge].
  - pose proof (wf_count s Hwf) as Hc.
    split; [|cbn; rewrite length_replicate; repeat split; lia].
    split; unfold active; cbn.
    + rewrite length_app. lia.
    + rewrite length_app, !length_replicate. lia.
    + apply Forall_app. split; [apply (wf_range s Hwf)|].
      apply Forall_replicate, in_range_0.
    + apply Forall_replicate, in_range_0.
    + apply (wf_positions s Hwf).
    + apply (wf_injective s Hwf).
    + rewrite take_app_le by exact Hc. apply (wf_distinct s Hwf).
  - split; [exact Hwf|]. rewrite (wf_aux s Hwf). repeat split. exact Hge.
Qed.

(** A throw in the middle of a gate application leaves the primary
    buffers as they were. *)
Lemma thrown_well_formed s1 st :
  well_formed s1 → aux_only s1 st → Forall in_range (indicesAux st) → well_formed st.
Proof.
  intros [H1 H2 H3 H4 H5 H6 H7] (Hi & Hc & Hm & Hl) Hr.
  split; unfold active in *; rewrite ?Hi, ?Hc, ?Hm, ?Hl; assumption.
Qed.

(** The end of a gate application: the scratch buffers become the
    primary ones, then [#prune]. *)
Lemma finished_well_formed s1 st n :
  well_formed s1 → aux_only s1 st → NoDup (take n (indicesAux st)) →
  Forall in_range (indicesAux st) → n ≤ length (indicesAux st) →
  well_formed (prune (swapBuffers (set_activeCount n st))).
Proof.
  intros Hwf (Hi & Hc & Hm & Hl) Hnd Hr Hn. apply prune_well_formed.
  split; unfold active; cbn.
  - exact Hn.
  - rewrite Hi, Hl. symmetry. apply (wf_aux s1 Hwf).
  - exact Hr.
  - rewrite Hi. apply (wf_range s1 Hwf).
  - rewrite Hm. apply (wf_positions s1 Hwf).
  - rewrite Hm. apply (wf_injective s1 Hwf).
  - exact Hnd.
Qed.

Lemma gate_finish body s1 :
  well_formed s1 →
  loop_ok s1 (for_entries body (seq 0 (activeCount s1)) no_entries s1) nextCount →
  match (let* n := (fun s => Ret (activeCount s) s) in
         let* loc := for_entries body (seq 0 n) no_entries in
         finish_gate loc) s1 with
  | Ret _ s' | Throw _ s' => well_formed s'
  | OutOfFuel => False
  end.
Proof.
  intros Hwf Hloop. unfold bind. unfold loop_ok in Hloop.
  destruct (for_entries body (seq 0 (activeCount s1)) no_entries s1) as [loc st|e st|].
  - destruct Hloop as (Ha & Hnd & Hr & Hn). unfold finish_gate.
    now apply (finished_well_formed s1).
  - destruct Hloop as (Ha & Hr). now apply (thrown_well_formed s1).
  - exact Hloop.
Qed.

(** The general path: every entry scatters to [r] in-range targets. *)
Lemma scatter_loop (body : nat → Scatter → M Sim Scatter) (r : nat) s1 :
  well_formed s1 → activeCount s1 * r ≤ length (indicesAux s1) →
  (∀ i loc st, Forall in_range (indices st) →
     ∃ width col re im matrix targets,
       body i loc st = scatter width col re im matrix 0 targets loc st
       ∧ length targets = r ∧ Forall in_range targets) →
  loop_ok s1 (for_entries body (seq 0 (activeCount s1)) no_entries s1) nextCount.
Proof.
  intros Hwf Hcap Hbody.
  pose (Inv := fun (i : nat) (loc : Scatter) (st : Sim) =>
                 aux_only s1 st ∧ scatter_ok loc (indicesAux st)
                 ∧ Forall in_range (indicesAux st) ∧ nextCount loc ≤ i * r).
  pose (Exc := fun st : Sim => aux_only s1 st ∧ Forall in_range (indicesAux st)).
  pose proof (for_entries_inv Inv Exc body (activeCount s1)) as Hloop.
  unfold loop_ok.
  lapply Hloop.
  - intros Hl. specialize (Hl no_entries s1).
    lapply Hl.
    + destruct (for_entries body (seq 0 (activeCount s1)) no_entries s1) as [loc st|e st|];
        [|exact (fun x => x)|exact (fun x => x)].
      intros (Ha & Hok & Hr & Hn). destruct Ha as (Hi & Hc & Hm & Hlen).
      repeat split; try assumption.
      * now apply scatter_ok_NoDup.
      * rewrite Hlen. lia.
    + unfold Inv. split; [reflexivity|]. split; [apply scatter_ok_empty|].
      split; [apply (wf_range_aux s1 Hwf) | cbn; lia].
  - intros i loc st Hi (Ha & Hok & Hr & Hn).
    destruct Ha as (Hix & Hc & Hm & Hlen).
    destruct (Hbody i loc st) as (width & col & re & im & matrix & targets & Heq & Hlt & Hrt).
    { rewrite Hix. apply (wf_range s1 Hwf). }
    rewrite Heq.
    pose proof (scatter_inv width col re im matrix targets 0 loc st Hrt Hok Hr) as Hs.
    lapply Hs; [|rewrite Hlt, Hlen; nia].
    destruct (scatter width col re im matrix 0 targets loc st) as [loc' s'|e s'|];
      [|unfold Exc|exact (fun x => x)].
    + intros ((Hix' & Hc' & Hm' & Hlen') & Hok' & Hr' & Hn').
      unfold Inv. split; [unfold aux_only; repeat split; congruence|].
      split; [exact Hok'|]. split; [exact Hr'|]. rewrite Hlt in Hn'. lia.
    + intros ((Hix' & Hc' & Hm' & Hlen') & Hr').
      unfold aux_only. repeat split; try congruence; assumption.
Qed.

(** The fast paths: every entry is sent to the image of its index under
    an injective map, so no key is met twice and every slot is taken. *)
Lemma accumulate_loop (body : nat → Scatter → M Sim Scatter) (f : Z → Z) s1 :
  well_formed s1 → activeCount s1 ≤ length (indicesAux s1) →
  (∀ a, in_range a → in_range (f a)) → (∀ a b, f a = f b → a = b) →
  (∀ i loc st, ∃ re im,
       body i loc st = accumulate_next (f (idx_at (indices st) i)) re im loc st) →
  loop_ok s1 (for_entries body (seq 0 (activeCount s1)) no_entries s1) nextCount.
Proof.
  intros Hwf Hcap Hfr Hfi Hbody.
  pose (Inv := fun (i : nat) (loc : Scatter) (st : Sim) =>
                 aux_only s1 st ∧ scatter_ok loc (indicesAux st)
                 ∧ Forall in_range (indicesAux st) ∧ nextCount loc = i
                 ∧ ∀ p, p < i → indicesAux st !! p = Some (f (idx_at (indices s1) p))).
  pose (Exc := fun _ : Sim => False).
  pose proof (for_entries_inv Inv Exc body (activeCount s1)) as Hloop.
  unfold loop_ok.
  lapply Hloop.
  - intros Hl. specialize (Hl no_entries s1).
    lapply Hl.
    + destruct (for_entries body (seq 0 (activeCount s1)) no_entries s1) as [loc st|e st|];
        [|intros []|exact (fun x => x)].
      intros (Ha & Hok & Hr & Hn & _). destruct Ha as (Hi & Hc & Hm & Hlen).
      repeat split; try assumption.
      * now apply scatter_ok_NoDup.
      * rewrite Hlen. lia.
    + unfold Inv. split; [reflexivity|]. split; [apply scatter_ok_empty|].
      split; [apply (wf_range_aux s1 Hwf)|]. split; [reflexivity|]. intros p Hp. lia.
  - intros i loc st Hi (Ha & Hok & Hr & Hn & Hprev).
    destruct Ha as (Hix & Hc & Hm & Hlen).
    destruct (Hbody i loc st) as (re & im & Heq). rewrite Heq, Hix.
    set (k := f (idx_at (indices s1) i)).
    assert (Hk : in_range k) by (apply Hfr, idx_at_in_range, (wf_range s1 Hwf)).
    assert (Hnew : collisionMap loc !! k = None).
    { destruct (collisionMap loc !! k) as [p|] eqn:Hp; [exfalso|reflexivity].
      destruct (so_slots _ _ Hok k p Hp) as [Hlt Hat].
      rewrite Hprev in Hat by lia. injection Hat as Hat. apply Hfi in Hat.
      pose proof (wf_count s1 Hwf) as Hcount.
      assert (Hpi : p = i).
      { apply (NoDup_lookup (active s1) p i (idx_at (indices s1) i)).
        - apply (wf_distinct s1 Hwf).
        - unfold active. rewrite lookup_take_lt by lia.
          rewrite <- Hat. apply idx_at_lookup. lia.
        - unfold active. rewrite lookup_take_lt by lia. apply idx_at_lookup. lia. }
      lia. }
    destruct (accumulate_next_fresh k re im loc st Hnew Hk ltac:(lia) Hok Hr)
      as (s' & Hacc & Ha' & Hok' & Hr').
    rewrite Hacc. unfold Inv. destruct Ha' as (Hix' & Hc' & Hm' & Hlen').
    split; [unfold aux_only; repeat split; congruence|].
    split; [exact Hok'|]. split; [exact Hr'|]. split; [cbn; lia|].
    intros p Hp. destruct (so_slots _ _ Hok' k (nextCount loc)) as [_ Hat].
    { cbn. apply lookup_insert_eq. }
    destruct (decide (p = i)) as [->|Hne].
    + replace (indicesAux s' !! i) with (indicesAux s' !! nextCount loc) by (now rewrite Hn).
      exact Hat.
    + assert (Hpi : p < i) by lia.
      destruct (decide (indicesAux s' !! p = Some (f (idx_at (indices s1) p))))
        as [Hyes|Hno]; [exact Hyes|exfalso].
      apply Hno. clear Hno.
      unfold accumulate_next, accumulate in Hacc. rewrite Hnew in Hacc.
      injection Hacc as <-. cbn. unfold idx_store.
      rewrite list_lookup_insert_ne by lia. now apply Hprev.
Qed.

End GateInvariant.

(** ** Every operation leaves a well-formed simulator *)

Module OperationInvariant.
Import Simulator SimulatorFrame SimulatorFacts IndexBits IndexInvariant ScatterInvariant.
Import GateInvariant.
Import Properties.

Lemma positions_injective qubits :
  ∀ i m,
    (∀ q p, m !! q = Some p → p < i) →
    (∀ q1 q2 p, m !! q1 = Some p → m !! q2 = Some p → q1 = q2) →
    (∀ q p, positions qubits i m !! q = Some p → p < i + length qubits)
    ∧ (∀ q1 q2 p, positions qubits i m !! q1 = Some p →
                  positions qubits i m !! q2 = Some p → q1 = q2).
Proof.
  induction qubits as [|q0 rest IH]; intros i m Hlt Hinj; simpl.
  - split; [|exact Hinj]. intros q p Hq. specialize (Hlt q p Hq). lia.
  - destruct (IH (S i) (<[q0 := i]> m)) as [Hlt' Hinj'].
    + intros q p Hq. destruct (decide (q0 = q)) as [<-|Hne].
      * rewrite lookup_insert_eq in Hq. injection Hq as <-. lia.
      * rewrite lookup_insert_ne in Hq by exact Hne. specialize (Hlt q p Hq). lia.
    + intros q1 q2 p H1 H2.
      destruct (decide (q0 = q1)) as [<-|Hne1], (decide (q0 = q2)) as [<-|Hne2].
      * reflexivity.
      * rewrite lookup_insert_eq in H1. rewrite lookup_insert_ne in H2 by exact Hne2.
        injection H1 as <-. specialize (Hlt q2 i H2). lia.
      * rewrite lookup_insert_eq in H2. rewrite lookup_insert_ne in H1 by exact Hne1.
        injection H2 as <-. specialize (Hlt q1 i H1). lia.
      * rewrite lookup_insert_ne in H1 by exact Hne1.
        rewrite lookup_insert_ne in H2 by exact Hne2. exact (Hinj q1 q2 p H1 H2).
    + split; [|exact Hinj']. intros q p Hq. specialize (Hlt' q p Hq). lia.
Qed.

(** The constructor, on at most 64 qubits. *)
Lemma new_well_formed qubits nm o : length qubits ≤ 64 → well_formed (new qubits nm o).
Proof.
  intros Hlen.
  destruct (positions_injective qubits 0 ∅) as [Hlt Hinj].
  { intros q p Hq. now rewrite lookup_empty in Hq. }
  { intros q1 q2 p Hq. now rewrite lookup_empty in Hq. }
  split; unfold active, new; cbv zeta; cbv beta iota delta [indices indicesAux activeCount qubitMap].
  - rewrite idx_store_length, length_replicate. unfold memoryBudget. lia.
  - now rewrite idx_store_length.
  - apply idx_store_in_range, Forall_replicate, in_range_0.
  - apply Forall_replicate, in_range_0.
  - intros q p Hq. specialize (Hlt q p Hq). lia.
  - exact Hinj.
  - generalize (idx_store (replicate (memoryBudget * 2) 0%Z) 0 0). intros [|x l]; cbn.
    + constructor.
    + apply NoDup_singleton.
Qed.

Lemma maintains_bitOf D q {A} (k : Z → M Sim A) :
  (∀ pos s, qubitMap s !! q = Some pos → well_formed s →
            match k (bit_at pos) s with
            | Ret _ s' | Throw _ s' => well_formed s'
            | OutOfFuel => D
            end) →
  maintains D (bind (bitOf q) k).
Proof.
  intros Hk s Hs. unfold bind, bitOf.
  destruct (qubitMap s !! q) as [pos|] eqn:Hq; [|exact Hs].
  exact (Hk pos s Hq Hs).
Qed.

Lemma maintains_bitOf2 D q1 q2 {A} (k : Z → Z → M Sim A) :
  (∀ p1 p2 s, qubitMap s !! q1 = Some p1 → qubitMap s !! q2 = Some p2 → well_formed s →
              match k (bit_at p1) (bit_at p2) s with
              | Ret _ s' | Throw _ s' => well_formed s'
              | OutOfFuel => D
              end) →
  maintains D (let* bit1 := bitOf q1 in let* bit2 := bitOf q2 in k bit1 bit2).
Proof.
  intros Hk s Hs. unfold bind, bitOf.
  destruct (qubitMap s !! q1) as [p1|] eqn:Hq1; [|exact Hs].
  destruct (qubitMap s !! q2) as [p2|] eqn:Hq2; [|exact Hs].
  exact (Hk p1 p2 s Hq1 Hq2 Hs).
Qed.

Lemma maintains_bitOf3 D q1 q2 q3 {A} (k : Z → Z → Z → M Sim A) :
  (∀ p1 p2 p3 s,
      qubitMap s !! q1 = Some p1 → qubitMap s !! q2 = Some p2 → qubitMap s !! q3 = Some p3 →
      well_formed s →
      match k (bit_at p1) (bit_at p2) (bit_at p3) s with
      | Ret _ s' | Throw _ s' => well_formed s'
      | OutOfFuel => D
      end) →
  maintains D (let* bit1 := bitOf q1 in let* bit2 := bitOf q2 in let* bit3 := bitOf q3 in
               k bit1 bit2 bit3).
Proof.
  intros Hk s Hs. unfold bind, bitOf.
  destruct (qubitMap s !! q1) as [p1|] eqn:Hq1; [|exact Hs].
  destruct (qubitMap s !! q2) as [p2|] eqn:Hq2; [|exact Hs].
  destruct (qubitMap s !! q3) as [p3|] eqn:Hq3; [|exact Hs].
  exact (Hk p1 p2 p3 s Hq1 Hq2 Hq3 Hs).
Qed.

(** The shared shape of the three gate applications. *)
Lemma gate_maintains (body : nat → Scatter → M Sim Scatter) (r : nat) s :
  well_formed s →
  (∀ s1, well_formed s1 → qubitMap s1 = qubitMap s →
         activeCount s1 * r ≤ length (indicesAux s1) →
         loop_ok s1 (for_entries body (seq 0 (activeCount s1)) no_entries s1) nextCount) →
  match (let* _ := modify (fun s => ensureCapacity (activeCount s * r) s) in
         let* n := (fun s => Ret (activeCount s) s) in
         let* loc := for_entries body (seq 0 n) no_entries in
         finish_gate loc) s with
  | Ret _ s' | Throw _ s' => well_formed s'
  | OutOfFuel => False
  end.
Proof.
  intros Hs Hloop.
  destruct (ensureCapacity_well_formed (activeCount s * r) s Hs) as (Hwf1 & Hc1 & Hm1 & Hcap1).
  change ((let* _ := modify (fun s => ensureCapacity (activeCount s * r) s) in
           let* n := (fun s => Ret (activeCount s) s) in
           let* loc := for_entries body (seq 0 n) no_entries in
           finish_gate loc) s)
    with ((let* n := (fun s => Ret (activeCount s) s) in
           let* loc := for_entries body (seq 0 n) no_entries in
           finish_gate loc) (ensureCapacity (activeCount s * r) s)).
  apply gate_finish; [exact Hwf1|].
  apply Hloop; [exact Hwf1 | exact Hm1 | now rewrite Hc1].
Qed.

Ltac in_range :=
  repeat first
    [ assumption
    | apply in_range_0
    | apply bit_at_in_range
    | apply idx_at_in_range
    | apply lor_in_range
    | apply land_in_range ].

Section WithEngine.
Context `{Engine}.

Lemma random_maintains D : maintains D random.
Proof. intros s. apply well_formed_ext; reflexivity. Qed.

Lemma applyGate_maintains g q ps : maintains False (applyGate g q ps).
Proof.
  unfold applyGate. apply maintains_bitOf. intros pos s Hq Hs.
  pose proof (wf_positions s Hs q pos Hq) as Hpos.
  apply (gate_maintains _ 2 s Hs). intros s1 Hs1 Hm1 Hcap.
  destruct (String.eqb g "Z") eqn:Hz.
  - apply (accumulate_loop _ (fun v => v)); [exact Hs1 | lia | auto | auto |].
    intros i loc st. unfold applyGate_entry. rewrite Hz. eexists _, _. reflexivity.
  - apply (scatter_loop _ 2); [exact Hs1 | exact Hcap |].
    intros i loc st Hr. unfold applyGate_entry. rewrite Hz.
    eexists 2, _, _, _, _, _. split; [reflexivity|]. split; [reflexivity|].
    repeat constructor; in_range.
Qed.

Lemma apply2QubitGate_maintains g q1 q2 ps :
  (g = "CNOT" → q1 ≠ q2) → maintains False (apply2QubitGate g q1 q2 ps).
Proof.
  intros Hcnot. unfold apply2QubitGate. apply maintains_bitOf2.
  intros p1 p2 s Hq1 Hq2 Hs.
  pose proof (wf_positions s Hs q1 p1 Hq1) as Hp1.
  pose proof (wf_positions s Hs q2 p2 Hq2) as Hp2.
  apply (gate_maintains _ 4 s Hs). intros s1 Hs1 Hm1 Hcap.
  destruct (String.eqb g "CZ") eqn:Hcz.
  { apply (accumulate_loop _ (fun v => v)); [exact Hs1 | lia | auto | auto |].
    intros i loc st. unfold apply2QubitGate_entry. rewrite Hcz. eexists _, _. reflexivity. }
  destruct (String.eqb g "CNOT") eqn:Hcn.
  { apply String.eqb_eq in Hcn as Hg. specialize (Hcnot Hg).
    assert (Hne : p1 ≠ p2).
    { intros ->. apply Hcnot. exact (wf_injective s Hs q1 q2 p2 Hq1 Hq2). }
    apply (accumulate_loop _ (cnot_index (bit_at p1) (bit_at p2))); [exact Hs1 | lia | | |].
    - intros a Ha. now apply cnot_index_in_range.
    - intros a b. now apply cnot_index_inj.
    - intros i loc st. unfold apply2QubitGate_entry. rewrite Hcz, Hcn.
      eexists _, _. reflexivity. }
  destruct (String.eqb g "SWAP") eqn:Hsw.
  { apply (accumulate_loop _ (swap_index (bit_at p1) (bit_at p2))); [exact Hs1 | lia | | |].
    - intros a Ha. now apply swap_index_in_range.
    - intros a b. apply swap_index_inj.
    - intros i loc st. unfold apply2QubitGate_entry. rewrite Hcz, Hcn, Hsw.
      eexists _, _. reflexivity. }
  apply (scatter_loop _ 4); [exact Hs1 | exact Hcap |].
  intros i loc st Hr. unfold apply2QubitGate_entry. rewrite Hcz, Hcn, Hsw.
  eexists 4, _, _, _, _, _. split; [reflexivity|]. split; [reflexivity|].
  repeat constructor; in_range.
Qed.

Lemma apply3QubitGate_maintains g q1 q2 q3 ps : maintains False (apply3QubitGate g q1 q2 q3 ps).
Proof.
  unfold apply3QubitGate. apply maintains_bitOf3.
  intros p1 p2 p3 s Hq1 Hq2 Hq3 Hs.
  pose proof (wf_positions s Hs q1 p1 Hq1) as Hp1.
  pose proof (wf_positions s Hs q2 p2 Hq2) as Hp2.
  pose proof (wf_positions s Hs q3 p3 Hq3) as Hp3.
  apply (gate_maintains _ 8 s Hs). intros s1 Hs1 Hm1 Hcap.
  apply (scatter_loop _ 8); [exact Hs1 | exact Hcap |].
  intros i loc st Hr. unfold apply3QubitGate_entry.
  eexists 8, _, _, _, _, _. split; [reflexivity|]. split; [reflexivity|].
  repeat constructor; in_range.
Qed.

Lemma measure_maintains D q : maintains D (measure q).
Proof.
  unfold measure. apply maintains_bind; [apply getProb1_maintains|]. intros prob1.
  apply maintains_bind; [apply maintains_pure|]. intros noisy.
  apply maintains_bind.
  { destruct noisy as [nm|]; [|apply maintains_ret].
    apply maintains_bind; [apply random_maintains|]. intros r. apply maintains_ret. }
  intros prob1'. apply maintains_bind; [apply random_maintains|]. intros u.
  apply maintains_bind; [apply collapse_maintains|]. intros _. apply maintains_ret.
Qed.

Lemma noise_on_maintains D nm q : maintains D (noise_on nm q).
Proof.
  unfold noise_on. apply maintains_bitOf. intros pos s Hq Hs.
  pose proof (wf_positions s Hs q pos Hq) as Hpos. revert s Hs Hq.
  enough (Hrest : maintains D
            (let* r := random in
             let* _ := (if (r <? gateError nm)%float
                        then modify (flip_all (bit_at pos)) else ret tt) in
             let* r2 := random in
             let* _ := (if (r2 <? t2 nm)%float
                        then modify (scale_ones (bit_at pos) (-1)) else ret tt) in
             if (0 <? t1 nm)%float then
               let* p1 := getProb1 q in
               let jumpProb := (t1 nm * p1)%float in
               let* r3 := random in
               if (r3 <? jumpProb)%float then
                 let* _ := collapse q 1 p1 in
                 modify (flip_all (bit_at pos))
               else
                 let scale := Math_sqrt (1 - t1 nm) in
                 let* _ := modify (scale_ones (bit_at pos) scale) in
                 modify normalize
             else ret tt)).
  { intros s Hs _. exact (Hrest s Hs). }
  assert (Hflip : maintains D (modify (flip_all (bit_at pos)))).
  { apply maintains_modify. intros s. now apply flip_all_well_formed. }
  apply maintains_bind; [apply random_maintains|]. intros r.
  apply maintains_bind; [apply maintains_if; [exact Hflip | apply maintains_ret]|]. intros _.
  apply maintains_bind; [apply random_maintains|]. intros r2.
  apply maintains_bind.
  { apply maintains_if; [|apply maintains_ret].
    apply maintains_modify. intros s. apply scale_ones_well_formed. }
  intros _. apply maintains_if; [|apply maintains_ret].
  apply maintains_bind; [apply getProb1_maintains|]. intros p1. cbv zeta.
  apply maintains_bind; [apply random_maintains|]. intros r3.
  apply maintains_if.
  - apply maintains_bind; [apply collapse_maintains|]. intros _. exact Hflip.
  - apply maintains_bind.
    + apply maintains_modify. intros s. apply scale_ones_well_formed.
    + intros _. apply maintains_modify. intros s. apply normalize_well_formed.
Qed.

Lemma applyStochasticNoise_maintains D qubit : maintains D (applyStochasticNoise qubit).
Proof.
  unfold applyStochasticNoise. apply maintains_bind; [apply maintains_pure|].
  intros [nm|]; [|apply maintains_throw].
  apply maintains_forEach. intros q _. apply noise_on_maintains.
Qed.

Lemma prune_maintains D : maintains D (modify prune).
Proof. apply maintains_modify. intros s. apply prune_well_formed. Qed.

Lemma cnot_ok_here op : cnot_ok op = true → cnot_here (gate op) (qubit op) = true.
Proof. destruct op as [g q ps c b t]. cbn. intros Hok. now apply andb_true_iff in Hok. Qed.

Lemma cnot_ok_body op b :
  cnot_ok op = true → String.eqb (gate op) "IF" || String.eqb (gate op) "WHILE" = true →
  body op = Some b → forallb cnot_ok b = true.
Proof.
  destruct op as [g q ps c b0 t]. cbn. intros Hok Hg ->.
  apply andb_true_iff in Hok as [_ Hok]. now rewrite Hg in Hok.
Qed.

(** One instruction, given that the bodies are run well. *)
Lemma run_op_maintains (run_body : list Instr → M Sim unit) (while_fuel : nat) op :
  (∀ b, forallb cnot_ok b = true → maintains True (run_body b)) →
  cnot_ok op = true → maintains True (run_op run_body while_fuel op).
Proof.
  intros Hbody Hok. unfold run_op.
  apply maintains_bind; [apply maintains_pure|]. intros noisy.
  destruct (String.eqb (gate op) "IF") eqn:Hif.
  { destruct (condition op) as [c|]; [|apply maintains_throw].
    apply maintains_bind; [apply maintains_pure|]. intros holds.
    apply maintains_if; [|apply maintains_ret].
    destruct (body op) as [b|] eqn:Hb; [|apply maintains_throw].
    apply Hbody, (cnot_ok_body op b Hok); [now rewrite Hif | exact Hb]. }
  destruct (String.eqb (gate op) "WHILE") eqn:Hwh.
  { destruct (condition op) as [c|]; [|apply maintains_throw].
    induction while_fuel as [|n IH].
    - apply maintains_bind; [apply maintains_pure|]. intros holds.
      apply maintains_if; [|apply maintains_ret]. intros s _. exact I.
    - apply maintains_bind; [apply maintains_pure|]. intros holds.
      apply maintains_if; [|apply maintains_ret].
      destruct (body op) as [b|] eqn:Hb; [|apply maintains_throw].
      apply maintains_bind; [|intros _; exact IH].
      apply Hbody, (cnot_ok_body op b Hok); [now rewrite Hif, Hwh | exact Hb]. }
  apply maintains_bind.
  - destruct (qubit op) as [q|l] eqn:Hq.
    + destruct (String.eqb (gate op) "RESET").
      { apply maintains_bind; [apply measure_maintains|]. intros res.
        apply maintains_bind.
        - apply maintains_if; [|apply maintains_ret].
          apply maintains_weaken, applyGate_maintains.
        - intros _. apply maintains_bind; [apply prune_maintains|].
          intros _. apply maintains_ret. }
      destruct (String.eqb (gate op) "MEASURE").
      { apply maintains_bind; [apply measure_maintains|]. intros res.
        apply maintains_bind.
        - apply maintains_modify. intros s. apply well_formed_ext; reflexivity.
        - intros _. apply maintains_bind; [apply prune_maintains|].
          intros _. apply maintains_ret. }
      apply maintains_bind; [|intros _; apply maintains_ret].
      apply maintains_weaken, applyGate_maintains.
    + destruct (length l =? 3)%nat eqn:Hl3.
      * apply maintains_bind; [|intros _; apply maintains_ret].
        apply maintains_weaken, apply3QubitGate_maintains.
      * apply maintains_bind; [|intros _; apply maintains_ret].
        apply maintains_weaken, apply2QubitGate_maintains. intros Hg.
        apply cnot_ok_here in Hok. unfold cnot_here in Hok.
        rewrite Hg, Hq in Hok. cbn in Hok. rewrite Hl3 in Hok. cbn in Hok.
        apply negb_true_iff, bool_decide_eq_false in Hok. exact Hok.
  - intros apply_noise. apply maintains_if; [|apply maintains_ret].
    apply maintains_bind; [apply applyStochasticNoise_maintains|].
    intros _. apply prune_maintains.
Qed.

Lemma run_maintains fuel :
  ∀ instructions, forallb cnot_ok instructions = true →
                  maintains True (run fuel instructions).
Proof.
  induction fuel as [|fuel IH]; intros instructions Hok.
  - intros s _. exact I.
  - simpl. apply maintains_forEach. intros op Hop.
    apply run_op_maintains; [exact IH|].
    rewrite forallb_forall in Hok. apply Hok. now apply list_elem_of_In.
Qed.

End WithEngine.

End OperationInvariant.

(** ** The active indices are pairwise distinct *)

Module DistinctIndices.
Import Simulator SimulatorFrame SimulatorFacts IndexBits IndexInvariant ScatterInvariant.
Import GateInvariant OperationInvariant Samples.
Import Properties.

Section WithEngine.
Context `{Engine}.

Lemma leaves_well_formed {A} (m : M Sim A) (D : Prop) s s' :
  maintains D m → well_formed s → leaves (m s) s' → well_formed s'.
Proof.
  intros Hm Hs Hl. specialize (Hm s Hs). unfold leaves, ends_in in Hl.
  destruct (m s) as [a s1|e s1|]; [now subst | now subst | destruct Hl].
Qed.

Lemma reachable_well_formed s : reachable s → well_formed s.
Proof.
  induction 1 as [qubits nm o Hlen
                 | s g q ps s' _ IH Hl
                 | s g q1 q2 ps s' _ IH Hne Hl
                 | s g q1 q2 q3 ps s' _ IH Hl
                 | s q s' _ IH Hl
                 | s fuel instructions s' _ IH Hok Hl].
  - now apply new_well_formed.
  - exact (leaves_well_formed _ False s s' (applyGate_maintains g q ps) IH Hl).
  - exact (leaves_well_formed _ False s s' (apply2QubitGate_maintains g q1 q2 ps Hne) IH Hl).
  - exact (leaves_well_formed _ False s s' (apply3QubitGate_maintains g q1 q2 q3 ps) IH Hl).
  - exact (leaves_well_formed _ True s s' (measure_maintains True q) IH Hl).
  - exact (leaves_well_formed _ True s s' (run_maintains fuel instructions Hok) IH Hl).
Qed.

(** A gate application on a reachable state ends. *)
Lemma applyGate_ends g q ps s :
  reachable s → ends_in (applyGate g q ps s) (fun s' => reachable s').
Proof.
  intros Hs. pose proof (applyGate_maintains g q ps s (reachable_well_formed s Hs)) as Hm.
  unfold ends_in.
  destruct (applyGate g q ps s) as [u s'|e s'|] eqn:Hrun; [| |exact Hm].
  - apply (after_applyGate s g q ps s' Hs). unfold leaves. now rewrite Hrun.
  - apply (after_applyGate s g q ps s' Hs). unfold leaves. now rewrite Hrun.
Qed.

(** C8 (amended).  On a simulator constructed over at most 64 qubits,
    after every state-mutating operation (applyGate, apply2QubitGate,
    apply3QubitGate, measure, and run over an instruction list, with or
    without a noise profile, whether the operation returns or throws),
    the basis indices of the active entries are pairwise distinct,
    provided every CNOT, called directly or as an instruction of the list
    or of an IF or WHILE body in it, names two different qubits. *)
Theorem active_indices_distinct s : reachable s → NoDup (active s).
Proof. intros Hs. apply wf_distinct. now apply reachable_well_formed. Qed.

End WithEngine.

(** A Hadamard gate on the first of two qubits. *)
Lemma active_indices_distinct_witness :
  ends_in (applyGate (H := constant_engine 0.25) "H" (VSym 0) []
             (new [VSym 0; VSym 1] None no_options))
          (fun s' => reachable (H := constant_engine 0.25) s' ∧ NoDup (active s')).
Proof.
  pose proof (applyGate_ends (H := constant_engine 0.25) "H" (VSym 0) []
                (new [VSym 0; VSym 1] None no_options)) as Hends.
  unfold ends_in in *.
  destruct (applyGate "H" (VSym 0) [] (new [VSym 0; VSym 1] None no_options))
    as [u s'|e s'|].
  - split.
    + apply Hends. apply after_new. simpl. lia.
    + apply (active_indices_distinct (H := constant_engine 0.25)).
      apply Hends. apply after_new. simpl. lia.
  - split.
    + apply Hends. apply after_new. simpl. lia.
    + apply (active_indices_distinct (H := constant_engine 0.25)).
      apply Hends. apply after_new. simpl. lia.
  - apply Hends. apply after_new. simpl. lia.
Defined.

(** C8 as stated fails for [run] over any instruction list.  A CNOT
    whose control is its target sends the entries |10> and |11> to the
    same index: the second one finds the slot of the first in the
    collision map, but the count of slots goes up all the same, and the
    slot it skips keeps what an earlier gate wrote there. *)
Lemma CNOT_on_one_qubit_repeats_an_index :
  returns (run (H := constant_engine 0.25) 5
             [on "H" (VSym 1); on "H" (VSym 0); on "MEASURE" (VSym 1);
              on2 "CNOT" (VSym 0) (VSym 0)]
             (new [VSym 0; VSym 1] None no_options))
          (fun _ s' => active s' = [2; 2]%Z).
Proof. vm_compute. reflexivity. Qed.

(** Past 64 qubits the bit of a qubit does not fit an element of the
    index buffers, which keep the low 64 bits: a Hadamard gate on the
    65th qubit leaves two entries with the index 0. *)
Lemma index_of_65th_qubit_wraps :
  returns (applyGate (H := constant_engine 0.25) "H" (VSym 64) []
             (new (VSym <$> seq 0 65) None no_options))
          (fun _ s' => active s' = [0; 0]%Z).
Proof. vm_compute. reflexivity. Qed.

End DistinctIndices.

(** ** The simulator: when a call throws *)

Module SimulatorErrors.
Import Simulator SimulatorFrame SimulatorFacts SimulatorTotal Samples.
Import Properties Vocabulary.

Lemma succeeds_gate_loop q (body : nat → Scatter → M Sim Scatter) (r : nat) :
  (∀ i l, succeeds q (body i l)) →
  succeeds q (let* _ := modify (fun s => ensureCapacity (activeCount s * r) s) in
              let* n := (fun s => Ret (activeCount s) s) in
              let* loc := for_entries body (seq 0 n) no_entries in
              finish_gate loc).
Proof.
  intros Hbody.
  apply succeeds_bind.
  { apply succeeds_modify. intros s. apply ensureCapacity_same_cache. }
  intros _. apply succeeds_bind; [apply succeeds_pure|]. intros n.
  apply succeeds_bind; [now apply succeeds_for_entries|].
  intros loc. apply succeeds_finish_gate.
Qed.

(** The scatter of the first entry, with no matrix to read. *)
Lemma scatter_without_matrix width col re im targets s :
  targets ≠ [] →
  ∃ s', scatter width col re im None 0 targets no_entries s = Throw TypeError s'
        ∧ same_cache s s' ∧ primary_kept s s'.
Proof.
  destruct targets as [|tIdx rest]; [congruence|]. intros _. simpl.
  rewrite lookup_empty. eexists. split; [reflexivity|].
  split; [repeat split|]. repeat split.
Qed.

Lemma ensureCapacity_primary_kept required s : primary_kept s (ensureCapacity required s).
Proof.
  unfold ensureCapacity. destruct (_ <? _)%nat; [|repeat split].
  split; [reflexivity|]. split; cbn.
  - intros i. unfold idx_at. rewrite !nth_lookup.
    destruct (decide (i < length (indices s))) as [Hi|Hi].
    + now rewrite lookup_app_l by exact Hi.
    + rewrite lookup_app_r by lia. rewrite (lookup_ge_None_2 (indices s)) by lia.
      destruct (replicate _ _ !! _) as [v|] eqn:Hv; [|reflexivity].
      now apply lookup_replicate in Hv as [-> _].
  - intros i Hi. unfold amp_at. now rewrite app_nth1 by exact Hi.
Qed.

Lemma primary_kept_trans s1 s2 s3 :
  length (amplitudes s1) ≤ length (amplitudes s2) →
  primary_kept s1 s2 → primary_kept s2 s3 → primary_kept s1 s3.
Proof.
  intros Hlen (Hc1 & Hi1 & Ha1) (Hc2 & Hi2 & Ha2). split; [congruence|]. split.
  - intros i. now rewrite Hi2.
  - intros i Hi. rewrite Ha2 by lia. now apply Ha1.
Qed.

Lemma ensureCapacity_amplitudes required s :
  length (amplitudes s) ≤ length (amplitudes (ensureCapacity required s)).
Proof.
  unfold ensureCapacity. destruct (_ <? _)%nat; [|reflexivity]. cbn.
  rewrite length_app. lia.
Qed.

(** A gate loop whose body, at the first entry, scatters without a
    matrix. *)
Lemma gate_loop_without_matrix (body : nat → Scatter → M Sim Scatter) (r : nat) s :
  (∀ st, ∃ width col re im targets,
      body 0 no_entries st = scatter width col re im None 0 targets no_entries st
      ∧ targets ≠ []) →
  (activeCount s = 0 →
   ∃ s', (let* _ := modify (fun s => ensureCapacity (activeCount s * r) s) in
          let* n := (fun s => Ret (activeCount s) s) in
          let* loc := for_entries body (seq 0 n) no_entries in
          finish_gate loc) s = Ret tt s')
  ∧ (0 < activeCount s →
     ∃ s', (let* _ := modify (fun s => ensureCapacity (activeCount s * r) s) in
            let* n := (fun s => Ret (activeCount s) s) in
            let* loc := for_entries body (seq 0 n) no_entries in
            finish_gate loc) s = Throw TypeError s'
           ∧ same_cache s s' ∧ primary_kept s s').
Proof.
  intros Hbody.
  pose proof (ensureCapacity_primary_kept (activeCount s * r) s) as Hk.
  pose proof (ensureCapacity_amplitudes (activeCount s * r) s) as Hlen.
  pose proof (ensureCapacity_same_cache (activeCount s * r) s) as Hsc.
  assert (Hc : activeCount (ensureCapacity (activeCount s * r) s) = activeCount s)
    by apply Hk.
  split; intros Hn; unfold bind, modify; rewrite Hc.
  - rewrite Hn. simpl. eexists. reflexivity.
  - set (s1 := ensureCapacity (activeCount s * r) s) in *.
    assert (Hseq : seq 0 (activeCount s) = 0 :: seq 1 (activeCount s - 1)).
    { destruct (activeCount s) as [|n]; [lia|]. simpl. now rewrite Nat.sub_0_r. }
    rewrite Hseq. cbn [for_entries]. unfold bind.
    destruct (Hbody s1) as (width & col & re & im & targets & Heq & Hne).
    rewrite Heq.
    destruct (scatter_without_matrix width col re im targets s1 Hne)
      as (s' & Hs' & Hcache & Hkept).
    rewrite Hs'. exists s'. split; [reflexivity|]. split.
    + etransitivity; [exact Hsc | exact Hcache].
    + exact (primary_kept_trans s s1 s' Hlen Hk Hkept).
Qed.

Lemma bind_bitOf_mapped {A} q pos (k : Z → M Sim A) s :
  qubitMap s !! q = Some pos → bind (bitOf q) k s = k (Z.shiftl 1 (Z.of_nat pos)) s.
Proof. intros Hq. unfold bind. now rewrite (bitOf_mapped q pos s Hq). Qed.

Section WithEngine.
Context `{E : Engine}.

(** The names [GATES] has no entry for are not those of the fast paths. *)
Lemma unknown_gate_names g ps :
  Gates.matrix_of g ps = None →
  String.eqb g "Z" = false ∧ String.eqb g "CZ" = false
  ∧ String.eqb g "CNOT" = false ∧ String.eqb g "SWAP" = false.
Proof.
  unfold Gates.matrix_of, Gates.GATES. intros Hm.
  destruct (String.eqb g "H"); [discriminate Hm|].
  destruct (String.eqb g "X"); [discriminate Hm|].
  destruct (String.eqb g "Y"); [discriminate Hm|].
  destruct (String.eqb g "Z"); [discriminate Hm|].
  destruct (String.eqb g "RX"); [discriminate Hm|].
  destruct (String.eqb g "RY"); [discriminate Hm|].
  destruct (String.eqb g "RZ"); [discriminate Hm|].
  destruct (String.eqb g "U3"); [discriminate Hm|].
  destruct (String.eqb g "CNOT"); [discriminate Hm|].
  destruct (String.eqb g "CZ"); [discriminate Hm|].
  destruct (String.eqb g "SWAP"); [discriminate Hm|].
  repeat split.
Qed.

Lemma measure_unmapped q s : qubitMap s !! q = None → measure q s = Throw TypeError s.
Proof. intros Hq. unfold measure, getProb1, bind. now rewrite (bitOf_unmapped q s Hq). Qed.



Lemma measure_returns q s :
  is_Some (qubitMap s !! q) → ∃ r s', measure q s = Ret r s' ∧ (r = 0 ∨ r = 1)%Z.
Proof.
  intros [p1 Hp1]. unfold measure, getProb1.
  do 3 (unfold bind, bitOf, random, collapse, ret; cbn [qubitMap set_draws]; rewrite ?Hp1).
  destruct (noiseModel s) as [nm|];
    do 4 (unfold bind, bitOf, random, collapse, ret; cbn [qubitMap set_draws]; rewrite ?Hp1);
    eexists _, _; (split; [reflexivity|]);
    destruct (_ <? _)%float; auto.
Qed.

(** On qubits the simulator knows, a gate [GATES] has an entry for never
    throws, whatever the parameters and whether or not the matrix has the
    size of the method (an element read past its end is [undefined], NaN
    in the arithmetic); a measurement returns 0 or 1. *)
Theorem known_gate_never_throws g ps mx q1 q2 q3 s :
  Gates.matrix_of g ps = Some mx →
  is_Some (qubitMap s !! q1) → is_Some (qubitMap s !! q2) → is_Some (qubitMap s !! q3) →
  (∃ s', applyGate g q1 ps s = Ret tt s')
  ∧ (∃ s', apply2QubitGate g q1 q2 ps s = Ret tt s')
  ∧ (∃ s', apply3QubitGate g q1 q2 q3 ps s = Ret tt s')
  ∧ (∃ r s', measure q1 s = Ret r s' ∧ (r = 0 ∨ r = 1)%Z).
Proof.
  intros Hm [p1 Hp1] [p2 Hp2] [p3 Hp3].
  assert (Hq1 : is_Some (qubitMap s !! q1)) by (eexists; exact Hp1).
  split; [|split; [|split]].
  - unfold applyGate. rewrite (bind_bitOf_mapped q1 p1 _ s Hp1), Hm.
    destruct (succeeds_gate_loop q1
                (applyGate_entry g (Z.shiftl 1 (Z.of_nat p1)) (Some mx)) 2) with (s := s)
      as ([] & s' & Hs' & _); [|exact Hq1|eexists; exact Hs'].
    intros i l st Hst. unfold applyGate_entry.
    destruct (String.eqb g "Z"); [exact (succeeds_accumulate_next q1 _ _ _ _ st Hst)|].
    exact (succeeds_scatter q1 _ _ _ _ mx _ _ _ st Hst).
  - unfold apply2QubitGate.
    rewrite (bind_bitOf_mapped q1 p1 _ s Hp1), (bind_bitOf_mapped q2 p2 _ s Hp2), Hm.
    destruct (succeeds_gate_loop q1
                (apply2QubitGate_entry g (Z.shiftl 1 (Z.of_nat p1)) (Z.shiftl 1 (Z.of_nat p2))
                   (Some mx)) 4) with (s := s)
      as ([] & s' & Hs' & _); [|exact Hq1|eexists; exact Hs'].
    intros i l st Hst. unfold apply2QubitGate_entry.
    destruct (String.eqb g "CZ"); [exact (succeeds_accumulate_next q1 _ _ _ _ st Hst)|].
    destruct (String.eqb g "CNOT" || String.eqb g "SWAP");
      [exact (succeeds_accumulate_next q1 _ _ _ _ st Hst)|].
    exact (succeeds_scatter q1 _ _ _ _ mx _ _ _ st Hst).
  - unfold apply3QubitGate.
    rewrite (bind_bitOf_mapped q1 p1 _ s Hp1), (bind_bitOf_mapped q2 p2 _ s Hp2),
      (bind_bitOf_mapped q3 p3 _ s Hp3), Hm.
    destruct (succeeds_gate_loop q1
                (apply3QubitGate_entry (Z.shiftl 1 (Z.of_nat p1)) (Z.shiftl 1 (Z.of_nat p2))
                   (Z.shiftl 1 (Z.of_nat p3)) (Some mx)) 8) with (s := s)
      as ([] & s' & Hs' & _); [|exact Hq1|eexists; exact Hs'].
    intros i l st Hst. unfold apply3QubitGate_entry.
    exact (succeeds_scatter q1 _ _ _ _ mx _ _ _ st Hst).
  - now apply measure_returns.
Qed.

(** A gate name that [GATES] has no entry for and that no object
    inherits from [Object.prototype] (so that [GATES[name]] is
    [undefined]), on qubits the simulator knows: with no active entry the
    call returns; otherwise it throws the engine's [TypeError] at the
    first entry (an element of [undefined] is read), after a slot of the
    scratch buffers has been claimed.  The active entries, the setup and
    the result cache are as before the call. *)
Theorem unknown_gate_is_a_TypeError g ps q1 q2 q3 s :
  Gates.matrix_of g ps = None → g ∉ Object_prototype_names →
  is_Some (qubitMap s !! q1) → is_Some (qubitMap s !! q2) → is_Some (qubitMap s !! q3) →
  (0 < activeCount s →
     (∃ s', applyGate g q1 ps s = Throw TypeError s' ∧ same_cache s s' ∧ primary_kept s s')
     ∧ (∃ s', apply2QubitGate g q1 q2 ps s = Throw TypeError s'
              ∧ same_cache s s' ∧ primary_kept s s')
     ∧ (∃ s', apply3QubitGate g q1 q2 q3 ps s = Throw TypeError s'
              ∧ same_cache s s' ∧ primary_kept s s'))
  ∧ (activeCount s = 0 →
     (∃ s', applyGate g q1 ps s = Ret tt s')
     ∧ (∃ s', apply2QubitGate g q1 q2 ps s = Ret tt s')
     ∧ (∃ s', apply3QubitGate g q1 q2 q3 ps s = Ret tt s')).
Proof.
  intros Hm _ [p1 Hp1] [p2 Hp2] [p3 Hp3].
  destruct (unknown_gate_names g ps Hm) as (Hz & Hcz & Hcn & Hsw).
  assert (H1 := gate_loop_without_matrix
                  (applyGate_entry g (Z.shiftl 1 (Z.of_nat p1)) None) 2 s).
  assert (H2 := gate_loop_without_matrix
                  (apply2QubitGate_entry g (Z.shiftl 1 (Z.of_nat p1))
                     (Z.shiftl 1 (Z.of_nat p2)) None) 4 s).
  assert (H3 := gate_loop_without_matrix
                  (apply3QubitGate_entry (Z.shiftl 1 (Z.of_nat p1))
                     (Z.shiftl 1 (Z.of_nat p2)) (Z.shiftl 1 (Z.of_nat p3)) None) 8 s).
  lapply H1.
  2:{ intros st. unfold applyGate_entry. rewrite Hz.
      eexists 2, _, _, _, _. split; [reflexivity | discriminate]. }
  lapply H2.
  2:{ intros st. unfold apply2QubitGate_entry. rewrite Hcz, Hcn, Hsw.
      eexists 4, _, _, _, _. split; [reflexivity | discriminate]. }
  lapply H3.
  2:{ intros st. unfold apply3QubitGate_entry.
      eexists 8, _, _, _, _. split; [reflexivity | discriminate]. }
  clear H1 H2 H3. intros [H3z H3p] [H2z H2p] [H1z H1p].
  unfold applyGate, apply2QubitGate, apply3QubitGate.
  rewrite !(bind_bitOf_mapped q1 p1 _ s Hp1), !(bind_bitOf_mapped q2 p2 _ s Hp2),
    !(bind_bitOf_mapped q3 p3 _ s Hp3), Hm.
  split; intros Hn.
  - split; [exact (H1p Hn)|]. split; [exact (H2p Hn) | exact (H3p Hn)].
  - split; [exact (H1z Hn)|]. split; [exact (H2z Hn) | exact (H3z Hn)].
Qed.

End WithEngine.


(** A Hadamard gate given to each of the three methods. *)
Lemma known_gate_never_throws_witness :
  let E := constant_engine 0.5 in
  let s := new [VSym 0] None no_options in
  (∃ s', applyGate "H" (VSym 0) [] s = Ret tt s')
  ∧ (∃ s', apply3QubitGate "H" (VSym 0) (VSym 0) (VSym 0) [] s = Ret tt s').
Proof.
  intros E s.
  assert (Hq : is_Some (qubitMap s !! VSym 0)) by (exists 0; vm_compute; reflexivity).
  destruct (@known_gate_never_throws E "H" [] _ (VSym 0) (VSym 0) (VSym 0) s eq_refl Hq Hq Hq)
    as (H1 & _ & H3 & _).
  split; [exact H1 | exact H3].
Defined.

(** A gate nobody defined, on a fresh simulator. *)
Lemma unknown_gate_is_a_TypeError_witness :
  let E := constant_engine 0.5 in
  let s := new [VSym 0] None no_options in
  ∃ s', applyGate "GHOST" (VSym 0) [] s = Throw TypeError s' ∧ activeCount s' = 1.
Proof.
  intros E s.
  assert (Hq : is_Some (qubitMap s !! VSym 0)) by (exists 0; vm_compute; reflexivity).
  assert (Hg : "GHOST" ∉ Object_prototype_names).
  { intros Hin.
    repeat (apply elem_of_cons in Hin as [Hin|Hin]; [discriminate Hin|]). inversion Hin. }
  destruct (@unknown_gate_is_a_TypeError E "GHOST" [] (VSym 0) (VSym 0) (VSym 0) s
              eq_refl Hg Hq Hq Hq) as [Hpos _].
  destruct Hpos as ((s' & Hs' & _ & Hk) & _ & _); [cbn; lia|].
  exists s'. split; [exact Hs'|]. apply Hk.
Defined.

End SimulatorErrors.

(** ** The simulator: [run], its control flow and the result cache *)

Module RunFacts.
Import Simulator SimulatorFrame SimulatorFacts Samples.
Import Properties Vocabulary.

Lemma measure_free_gate op : measure_free op = true → String.eqb (gate op) "MEASURE" = false.
Proof.
  destruct op as [g q ps c b t]. cbn. intros Hok.
  apply andb_true_iff in Hok as [Hg _]. now apply negb_true_iff in Hg.
Qed.

Lemma measure_free_body op b :
  measure_free op = true → String.eqb (gate op) "IF" || String.eqb (gate op) "WHILE" = true →
  body op = Some b → forallb measure_free b = true.
Proof.
  destruct op as [g q ps c b0 t]. cbn. intros Hok Hg ->.
  apply andb_true_iff in Hok as [_ Hok]. now rewrite Hg in Hok.
Qed.

(** [forEach] over a concatenation. *)
Lemma forEach_app {S A} (l1 l2 : list A) (f : A → M S unit) (s : S) :
  forEach (l1 ++ l2) f s
  = match forEach l1 f s with
    | Ret _ s1 => forEach l2 f s1
    | other => other
    end.
Proof.
  revert s. induction l1 as [|x l1 IH]; intros s; simpl; [reflexivity|].
  unfold bind. destruct (f x s) as [[] s1|e s1|]; [apply IH | reflexivity | reflexivity].
Qed.

(** Comparisons of gate names that are both known. *)
Ltac gate_names :=
  repeat match goal with
    | |- context [String.eqb ?a ?b] =>
        let v := eval vm_compute in (String.eqb a b) in
        progress change (String.eqb a b) with v
    end;
  cbv beta iota.

Section WithEngine.
Context `{E : Engine}.

Lemma run_op_keeps_cache (run_body : list Instr → M Sim unit) (while_fuel : nat) op :
  (∀ b, forallb measure_free b = true → holds same_cache (run_body b)) →
  measure_free op = true → holds same_cache (run_op run_body while_fuel op).
Proof.
  intros Hbody Hok. unfold run_op.
  apply holds_bind; [typeclasses eauto | apply holds_of_keeps, keeps_pure; typeclasses eauto |].
  intros noisy.
  destruct (String.eqb (gate op) "IF") eqn:Hif.
  { destruct (condition op) as [c|]; [|apply holds_throw; typeclasses eauto].
    apply holds_bind;
      [typeclasses eauto | apply holds_of_keeps, keeps_pure; typeclasses eauto |].
    intros holds_c. apply holds_if; [|apply holds_ret; typeclasses eauto].
    destruct (body op) as [b|] eqn:Hb; [|apply holds_throw; typeclasses eauto].
    apply Hbody, (measure_free_body op b Hok); [now rewrite Hif | exact Hb]. }
  destruct (String.eqb (gate op) "WHILE") eqn:Hwh.
  { destruct (condition op) as [c|]; [|apply holds_throw; typeclasses eauto].
    induction while_fuel as [|n IH].
    - apply holds_bind;
        [typeclasses eauto | apply holds_of_keeps, keeps_pure; typeclasses eauto |].
      intros holds_c. apply holds_if; [|apply holds_ret; typeclasses eauto].
      intros s. exact I.
    - apply holds_bind;
        [typeclasses eauto | apply holds_of_keeps, keeps_pure; typeclasses eauto |].
      intros holds_c. apply holds_if; [|apply holds_ret; typeclasses eauto].
      destruct (body op) as [b|] eqn:Hb; [|apply holds_throw; typeclasses eauto].
      apply holds_bind; [typeclasses eauto | | intros _; exact IH].
      apply Hbody, (measure_free_body op b Hok); [now rewrite Hif, Hwh | exact Hb]. }
  rewrite (measure_free_gate op Hok).
  apply holds_of_keeps.
  apply keeps_bind; [typeclasses eauto | |].
  - destruct (qubit op) as [q|l].
    + destruct (String.eqb (gate op) "RESET"); frame.
    + destruct (length l =? 3)%nat; frame.
  - intros apply_noise. apply keeps_if; [|apply keeps_ret; typeclasses eauto].
    apply keeps_bind; [typeclasses eauto | apply applyStochasticNoise_keeps |].
    intros _. apply keeps_modify. intros s. apply prune_same_cache.
Qed.

Lemma run_keeps_cache fuel :
  ∀ instructions, forallb measure_free instructions = true →
                  holds same_cache (run fuel instructions).
Proof.
  induction fuel as [|fuel IH]; intros instructions Hok.
  - intros s. exact I.
  - simpl. apply holds_forEach; [typeclasses eauto|]. intros op Hop.
    apply run_op_keeps_cache; [exact IH|].
    rewrite forallb_forall in Hok. apply Hok. now apply list_elem_of_In.
Qed.

(** Only the MEASURE branch of [run] writes the result cache.  No gate
    application and no measurement, called directly, changes the qubit
    map, the noise profile, the epsilon override or the cache, whether the
    call returns or throws; and neither does [run] over instructions none
    of which, at any depth, is a MEASURE. *)
Theorem cache_is_written_by_MEASURE_only :
  (∀ g q ps, keeps same_cache (applyGate g q ps))
  ∧ (∀ g q1 q2 ps, keeps same_cache (apply2QubitGate g q1 q2 ps))
  ∧ (∀ g q1 q2 q3 ps, keeps same_cache (apply3QubitGate g q1 q2 q3 ps))
  ∧ (∀ q, keeps same_cache (measure q))
  ∧ (∀ q, keeps same_cache (isZero q))
  ∧ (∀ fuel instructions, forallb measure_free instructions = true →
                          holds same_cache (run fuel instructions)).
Proof.
  split; [exact applyGate_keeps|]. split; [exact apply2QubitGate_keeps|].
  split; [exact apply3QubitGate_keeps|]. split; [exact measure_keeps|].
  split; [exact isZero_keeps|]. exact run_keeps_cache.
Qed.

(** Running one list after another is running their concatenation: the
    second starts in the state the first left, and is not started when
    the first throws. *)
Theorem run_of_a_concatenation fuel (l1 l2 : list Instr) (s : Sim) :
  run fuel (l1 ++ l2) s
  = match run fuel l1 s with
    | Ret _ s1 => run fuel l2 s1
    | other => other
    end.
Proof. destruct fuel as [|fuel]; [reflexivity|]. simpl. apply forEach_app. Qed.



(** A WHILE whose condition holds and whose body has no MEASURE, at any
    depth, never returns: nothing in the body can change the cached
    result the condition reads, so the loop goes on until something
    throws, or for ever. *)
Theorem while_without_MEASURE_never_returns fuel (q : QubitRef) ps (c : Cond) b ts (s : Sim) :
  results s !! cqubit c = cvalue c →
  (∀ instructions, b = Some instructions → forallb measure_free instructions = true) →
  never_returns (run fuel [MkInstr "WHILE" q ps (Some c) b ts] s).
Proof.
  intros Hc Hb. destruct fuel as [|fuel]; [exact I|].
  rewrite run_one. unfold run_op. cbn [gate condition body].
  gate_names. unfold bind at 1.
  generalize fuel at 2. intros n. revert s Hc.
  induction n as [|n IH]; intros s Hc.
  - unfold bind, condition_holds. rewrite bool_decide_eq_true_2 by exact Hc. exact I.
  - unfold bind at 1. unfold condition_holds at 1.
    rewrite bool_decide_eq_true_2 by exact Hc.
    destruct b as [instructions|]; [|exact I].
    unfold bind at 1.
    pose proof (run_keeps_cache fuel instructions (Hb instructions eq_refl) s) as Hkeep.
    destruct (run fuel instructions s) as [[] s1|e s1|]; [|exact I|exact I].
    apply IH. destruct Hkeep as [_ Hres]. now rewrite Hres.
Qed.

End WithEngine.


(** A WHILE that waits for [undefined] on a qubit that was never
    measured, with a body that measures nothing. *)
Lemma while_without_MEASURE_never_returns_witness :
  let E := constant_engine 0.5 in
  let s := new [VSym 0] None no_options in
  let c := {| cqubit := VSym 0; cvalue := None |} in
  never_returns
    (run 7 [MkInstr "WHILE" (QVal VNull) None (Some c) (Some [on "X" (VSym 0)]) None] s).
Proof.
  intros E s c.
  apply (@while_without_MEASURE_never_returns E 7 (QVal VNull) None c
           (Some [on "X" (VSym 0)]) None s).
  - vm_compute. reflexivity.
  - intros instructions Hb. injection Hb as <-. reflexivity.
Defined.

End RunFacts.

(** ** The simulator: a fresh state, and a measured one *)

Module MeasureFacts.
Import Simulator SimulatorFrame SimulatorFacts SimulatorErrors Samples.
Import IndexBits IndexInvariant DistinctIndices.
Import Properties Vocabulary.

Lemma bind_assoc {S A B C} (m : M S A) (k : A → M S B) (k' : B → M S C) (s : S) :
  bind (bind m k) k' s = bind m (fun x => bind (k x) k') s.
Proof. unfold bind. destruct (m s); reflexivity. Qed.

(** The loop of [#collapse] keeps, in order, the indices the result
    selects. *)
Lemma collapse_fold_filter target result norm (ix0 : list Z) :
  Forall in_range ix0 →
  ∀ n c0, n ≤ length ix0 → c_indices c0 = ix0 → writeIdx c0 = 0 →
    let c := foldl (collapse_entry target result norm) c0 (seq 0 n) in
    length (c_indices c) = length ix0
    ∧ writeIdx c ≤ n
    ∧ Forall in_range (c_indices c)
    ∧ take (writeIdx c) (c_indices c)
      = filter (fun idx => collapse_keeps_index target result idx = true) (take n ix0)
    ∧ drop n (c_indices c) = drop n ix0.
Proof.
  intros Hr0 n c0 Hn Hc0 Hw0. cbv zeta. induction n as [|n IH].
  - simpl. rewrite Hc0, Hw0. repeat split; try assumption; try lia.
  - rewrite seq_S, foldl_app. simpl.
    destruct IH as (Hlen & Hw & Hr & Hsub & Hdrop); [lia|].
    set (c := foldl (collapse_entry target result norm) c0 (seq 0 n)) in *.
    assert (Hx : ix0 !! n = Some (idx_at (c_indices c) n)).
    { assert (Hc : drop n (c_indices c) !! 0 = Some (idx_at (c_indices c) n))
        by (rewrite lookup_drop, Nat.add_0_r; apply idx_at_lookup; lia).
      rewrite Hdrop, lookup_drop, Nat.add_0_r in Hc. exact Hc. }
    assert (Hdrop' : drop (S n) (c_indices c) = drop (S n) ix0).
    { replace (S n) with (n + 1) by lia. now rewrite <- !drop_drop, Hdrop. }
    rewrite (take_S_r _ _ _ Hx), filter_app.
    unfold collapse_entry.
    change (((result =? 1)%Z && bit_set (idx_at (c_indices c) n) target)
            || ((result =? 0)%Z && negb (bit_set (idx_at (c_indices c) n) target)))
      with (collapse_keeps_index target result (idx_at (c_indices c) n)).
    destruct (collapse_keeps_index target result (idx_at (c_indices c) n)) eqn:Hkeep.
    + cbn [c_indices writeIdx].
      rewrite idx_store_small by (now apply idx_at_in_range).
      rewrite length_insert. repeat split; try assumption; try lia.
      * apply Forall_insert; [exact Hr | now apply idx_at_in_range].
      * rewrite (take_S_r _ _ (idx_at (c_indices c) n)).
        -- rewrite take_insert_ge by lia. rewrite Hsub.
           now rewrite (filter_cons_True
                          (fun idx => collapse_keeps_index target result idx = true) _ _ Hkeep).
        -- apply list_lookup_insert_eq. lia.
      * now rewrite drop_insert_lt by lia.
    + repeat split; try assumption; try lia.
      rewrite (filter_cons_False (fun idx => collapse_keeps_index target result idx = true))
        by (rewrite Hkeep; discriminate).
      now rewrite filter_nil, app_nil_r.
Qed.

Lemma collapse_active q pos result prob1 s :
  Forall in_range (indices s) → activeCount s ≤ length (indices s) →
  qubitMap s !! q = Some pos →
  ∃ s', collapse q result prob1 s = Ret tt s'
        ∧ active s' = filter (fun idx => collapse_keeps_index (bit_at pos) result idx = true)
                        (active s).
Proof.
  intros Hr Hc Hq. unfold collapse. rewrite (bind_bitOf_mapped q pos _ s Hq).
  eexists. split; [reflexivity|].
  unfold active. cbn [activeCount indices set_activeCount set_primary].
  apply (collapse_fold_filter (bit_at pos) result _ (indices s) Hr (activeCount s)
           {| c_indices := indices s; c_amplitudes := amplitudes s; writeIdx := 0 |}
           Hc eq_refl eq_refl).
Qed.

(** The positions the constructor gives. *)
Lemma positions_absent qubits q :
  ∀ i m, q ∉ qubits → positions qubits i m !! q = m !! q.
Proof.
  induction qubits as [|q0 rest IH]; intros i m Hq; simpl; [reflexivity|].
  apply not_elem_of_cons in Hq as [Hne Hq].
  rewrite (IH _ _ Hq). now apply lookup_insert_ne.
Qed.

Lemma positions_last qubits q :
  ∀ i m j, qubits !! j = Some q → (∀ k, j < k → qubits !! k ≠ Some q) →
           positions qubits i m !! q = Some (i + j).
Proof.
  induction qubits as [|q0 rest IH]; intros i m j Hj Hlast; [discriminate Hj|].
  simpl. destruct j as [|j].
  - injection Hj as ->.
    rewrite positions_absent.
    + rewrite lookup_insert_eq. f_equal. lia.
    + intros Hin. apply list_elem_of_lookup in Hin as [k Hk].
      apply (Hlast (S k)); [lia | exact Hk].
  - rewrite (IH (S i) _ j Hj).
    + f_equal. lia.
    + intros k Hk. apply (Hlast (S k)). lia.
Qed.

Lemma positions_present qubits q :
  ∀ i m, q ∈ qubits → is_Some (positions qubits i m !! q).
Proof.
  induction qubits as [|q0 rest IH]; intros i m Hq; [inversion Hq|].
  simpl. destruct (decide (q ∈ rest)) as [Hin|Hnot].
  - now apply IH.
  - apply elem_of_cons in Hq as [->|Hq]; [|contradiction].
    rewrite positions_absent by exact Hnot. rewrite lookup_insert_eq. eexists; reflexivity.
Qed.

Lemma initial_capacity : ∃ n, memoryBudget * 2 = S n.
Proof. exists 9999. vm_compute. reflexivity. Qed.

Lemma active_new qubits nm o : active (new qubits nm o) = [0%Z].
Proof.
  unfold active, new. cbv zeta. cbn [activeCount indices].
  destruct initial_capacity as [n ->]. reflexivity.
Qed.

Lemma getProb1_from_new qubits nm o target :
  getProb1_from (new qubits nm o) target = 0%float.
Proof.
  unfold getProb1_from, new. cbv zeta. cbn [activeCount indices amplitudes seq foldl].
  destruct initial_capacity as [n ->]. cbn [replicate idx_store idx_at].
  reflexivity.
Qed.

Lemma isZero_new qubits nm o q :
  q ∈ qubits →
  ∃ p, isZero q (new qubits nm o)
       = Ret (0 <? getEffectiveEpsilon (new qubits nm o))%float (new qubits nm o)
       ∧ qubitMap (new qubits nm o) !! q = Some p.
Proof.
  intros Hq. destruct (positions_present qubits q 0 ∅ Hq) as [p Hp].
  exists p. split; [|exact Hp].
  unfold isZero, getProb1. rewrite bind_assoc.
  rewrite (bind_bitOf_mapped q p _ (new qubits nm o) Hp). unfold bind.
  now rewrite getProb1_from_new.
Qed.

Lemma isZero_new_default qubits nm o q :
  q ∈ qubits → opt_epsilon o = None →
  isZero q (new qubits nm o) = Ret true (new qubits nm o).
Proof.
  intros Hq Ho. destruct (isZero_new qubits nm o q Hq) as (p & -> & _). f_equal.
  unfold getEffectiveEpsilon, new, overBudgetMultiplier. cbv zeta.
  cbn [epsilon activeCount]. rewrite Ho. vm_compute. reflexivity.
Qed.

Section WithEngine.
Context `{E : Engine}.

(** The constructor leaves the state |0...0>: one active entry, of
    index 0.  Every qubit of the array is given the position where it
    occurs last; its probability of being 1 is exactly 0, so without an
    epsilon override [isZero] answers true for it; a qubit that is not in
    the array is unknown to the simulator. *)
Theorem fresh_simulator_is_all_zero (qubits : list JsVal) (nm : option NoiseModel)
    (o : Options) :
  active (new qubits nm o) = [0%Z]
  ∧ results (new qubits nm o) = ∅
  ∧ (∀ q, q ∉ qubits → qubitMap (new qubits nm o) !! q = None)
  ∧ (∀ q j, qubits !! j = Some q → (∀ k, j < k → qubits !! k ≠ Some q) →
            qubitMap (new qubits nm o) !! q = Some j)
  ∧ (∀ q, q ∈ qubits →
          ∃ p, isZero q (new qubits nm o)
               = Ret (0 <? getEffectiveEpsilon (new qubits nm o))%float (new qubits nm o)
               ∧ qubitMap (new qubits nm o) !! q = Some p)
  ∧ (∀ q, q ∈ qubits → opt_epsilon o = None →
          isZero q (new qubits nm o) = Ret true (new qubits nm o)).
Proof.
  split; [apply active_new|]. split; [reflexivity|].
  split; [intros q Hq; cbn; now rewrite positions_absent|].
  split; [intros q j Hj Hlast; cbn; now rewrite (positions_last qubits q 0 ∅ j Hj Hlast)|].
  split; [intros q Hq; now apply isZero_new|].
  intros q Hq Ho. now apply isZero_new_default.
Qed.

(** A measurement on a simulator of at most 64 qubits returns 0 or 1 and
    keeps, in their order, exactly the active entries whose index has
    that value at the bit of the qubit; nothing else of the simulator's
    setup or result cache changes. *)
Theorem measurement_collapses_the_state (s : Sim) (q : JsVal) (r : Z) (s' : Sim) :
  reachable s → measure q s = Ret r s' →
  ∃ pos, qubitMap s !! q = Some pos
         ∧ (r = 0 ∨ r = 1)%Z
         ∧ active s' = filter (fun idx => Z.testbit idx (Z.of_nat pos) = (r =? 1)%Z) (active s)
         ∧ same_cache s s'.
Proof.
  intros Hreach Hm. pose proof (reachable_well_formed s Hreach) as Hwf.
  destruct (qubitMap s !! q) as [pos|] eqn:Hq.
  2:{ rewrite (measure_unmapped q s Hq) in Hm. discriminate. }
  exists pos. split; [reflexivity|].
  pose proof (measure_keeps q s) as Hkeep. rewrite Hm in Hkeep.
  revert Hm. unfold measure, getProb1. rewrite bind_assoc.
  rewrite (bind_bitOf_mapped q pos _ s Hq).
  unfold bind at 1 2.
  set (noisy := match noiseModel s with
                | Some nm => _
                | None => _
                end).
  assert (Hnoisy : ∃ p s1, noisy s = Ret p s1 ∧ indices s1 = indices s
                           ∧ activeCount s1 = activeCount s ∧ qubitMap s1 = qubitMap s).
  { subst noisy. destruct (noiseModel s); unfold bind, random, ret; eexists _, _;
      (split; [reflexivity|]); repeat split. }
  destruct Hnoisy as (p & s1 & Hn & Hi1 & Hc1 & Hm1).
  unfold bind at 1. rewrite Hn. unfold bind at 1. unfold random at 1.
  set (res := if (_ <? p)%float then 1%Z else 0%Z).
  set (s2 := set_draws _ s1).
  destruct (collapse_active q pos res p s2) as (s3 & Hs3 & Hact).
  { cbn. rewrite Hi1. apply (wf_range s Hwf). }
  { cbn. rewrite Hi1, Hc1. apply (wf_count s Hwf). }
  { cbn. rewrite Hm1. exact Hq. }
  unfold bind. rewrite Hs3. unfold ret. intros Hm. injection Hm as <- <-.
  assert (Hres : (res = 0 ∨ res = 1)%Z) by (subst res; destruct (_ <? _)%float; auto).
  split; [exact Hres|]. split; [|exact Hkeep].
  rewrite Hact. unfold active. subst s2. cbn [activeCount indices set_draws].
  rewrite Hi1, Hc1. apply list_filter_iff. intros idx.
  unfold collapse_keeps_index. rewrite bit_set_testbit.
  destruct Hres as [-> | ->]; cbn; destruct (Z.testbit idx (Z.of_nat pos)); cbn; split; congruence.
Qed.

End WithEngine.

(** The first measurement of a fresh qubit. *)
Lemma measurement_collapses_the_state_witness :
  let E := constant_engine 0.5 in
  let s := new [VSym 0] None no_options in
  ∃ r s', measure (VSym 0) s = Ret r s' ∧ (r = 0 ∨ r = 1)%Z ∧ same_cache s s'.
Proof.
  intros E s.
  assert (Hq : is_Some (qubitMap s !! VSym 0)) by (exists 0; vm_compute; reflexivity).
  destruct (measure_returns (VSym 0) s Hq) as (r & s' & Hm & _).
  exists r, s'. split; [exact Hm|].
  destruct (@measurement_collapses_the_state E s (VSym 0) r s') as (pos & _ & Hr & _ & Hc).
  - apply after_new. simpl. lia.
  - exact Hm.
  - split; assumption.
Defined.

End MeasureFacts.

(** ** The qubit manager and the scope *)

Module ScopeFacts.
Import Simulator QubitManager Q Samples.
Import MeasureFacts Properties Vocabulary.

(** A handle from [allocate] is one that is not allocated at the time;
    it is allocated afterwards, and no other handle is touched. *)
Theorem allocate_is_fresh (mgr : Manager) :
  minted_above mgr →
  ∃ h mgr', allocate mgr = Ret h mgr'
            ∧ isAllocated h mgr = false
            ∧ isAllocated h mgr' = true
            ∧ (∀ id, id ≠ h → isAllocated id mgr' = isAllocated id mgr)
            ∧ minted_above mgr'.
Proof.
  intros Habove. unfold allocate. eexists _, _. split; [reflexivity|].
  split; [|split; [|split]].
  - apply bool_decide_eq_false_2. intros Hin. apply Habove in Hin. lia.
  - apply bool_decide_eq_true_2. cbn. set_solver.
  - intros id Hne. unfold isAllocated. cbn. apply bool_decide_ext. set_solver.
  - intros n Hn. cbn in *. apply elem_of_union in Hn as [Hn|Hn].
    + apply elem_of_singleton in Hn. injection Hn as ->. lia.
    + apply Habove in Hn. lia.
Qed.

Lemma allocate_is_fresh_witness :
  ∃ h mgr', allocate empty = Ret h mgr' ∧ isAllocated h mgr' = true.
Proof.
  destruct (allocate_is_fresh empty) as (h & mgr' & Ha & _ & Hin & _).
  - intros n Hn. cbn in Hn. set_solver.
  - exists h, mgr'. split; assumption.
Defined.

(** [release] never looks the handle up: whenever the simulator reports
    the qubit as zero it returns, for a handle that is allocated and for
    one that is not (never was, or was released before); the handle is
    not allocated afterwards and no other handle is touched. *)
Theorem release_ignores_the_registry (id : JsVal) (simulator : Sim) (mgr : Manager) :
  isZero id simulator = Ret true simulator →
  ∃ mgr', release id simulator mgr = Ret tt mgr'
          ∧ isAllocated id mgr' = false
          ∧ (∀ id', id' ≠ id → isAllocated id' mgr' = isAllocated id' mgr)
          ∧ minted mgr' = minted mgr
          ∧ (isAllocated id mgr = false → registry mgr' = registry mgr)
          ∧ release id simulator mgr' = Ret tt mgr'.
Proof.
  intros Hz. unfold release. rewrite Hz. cbn [negb]. eexists. split; [reflexivity|].
  split; [|split; [|split; [|split]]].
  - apply bool_decide_eq_false_2. cbn. set_solver.
  - intros id' Hne. unfold isAllocated. cbn. apply bool_decide_ext. set_solver.
  - reflexivity.
  - intros Hno. apply bool_decide_eq_false_1 in Hno. cbn. set_solver.
  - cbn. f_equal. f_equal. set_solver.
Qed.

Lemma release_ignores_the_registry_witness :
  let simulator := new [VSym 0] None no_options in
  ∃ mgr', release (VSym 0) simulator empty = Ret tt mgr' ∧ registry mgr' = ∅.
Proof.
  intros simulator.
  destruct (release_ignores_the_registry (VSym 0) simulator empty)
    as (mgr' & Hr & _ & _ & _ & Hreg & _).
  - apply isZero_new_default; [set_solver | reflexivity].
  - exists mgr'. split; [exact Hr|]. apply Hreg. reflexivity.
Defined.

Section WithEngine.
Context `{E : Engine}.

Lemma allocate_all_spec count :
  ∀ w, ∃ w',
    allocate_all count w = Ret (VSym <$> seq (minted (manager w)) count) w'
    ∧ registry (manager w')
      = list_to_set (VSym <$> seq (minted (manager w)) count) ∪ registry (manager w)
    ∧ minted (manager w') = minted (manager w) + count
    ∧ circuits w' = circuits w ∧ clock w' = clock w.
Proof.
  induction count as [|count IH]; intros w; simpl.
  - eexists. split; [reflexivity|]. repeat split; [set_solver | lia].
  - unfold bind, on_manager, allocate.
    match goal with |- context [allocate_all count ?w1] =>
      destruct (IH w1) as (w' & Heq & Hreg & Hmint & Hc & Hk) end.
    rewrite Heq. eexists. split; [reflexivity|].
    cbn in *. rewrite Hreg, Hmint, Hc, Hk. repeat split; [set_solver | lia].
Qed.

Lemma release_in_world_zero q w :
  isZero q (sim w) = Ret true (sim w) →
  release_in_world q w
  = Ret tt (set_manager {| registry := registry (manager w) ∖ {[q]};
                           minted := minted (manager w) |} w).
Proof. intros Hz. unfold release_in_world, on_manager, release. now rewrite Hz. Qed.

Lemma release_all qs :
  ∀ w, (∀ q, q ∈ qs → isZero q (sim w) = Ret true (sim w)) →
       ∃ w', forEach qs release_in_world w = Ret tt w'
             ∧ registry (manager w') = registry (manager w) ∖ list_to_set qs
             ∧ minted (manager w') = minted (manager w).
Proof.
  induction qs as [|q qs IH]; intros w Hz; simpl.
  - eexists. split; [reflexivity|]. split; [set_solver | reflexivity].
  - unfold bind. rewrite (release_in_world_zero q w) by (apply Hz; left).
    match goal with |- context [forEach qs release_in_world ?w1] =>
      destruct (IH w1) as (w' & Heq & Hreg & Hmint) end.
    { intros q' Hq'. cbn. apply Hz. now right. }
    rewrite Heq. eexists. split; [reflexivity|].
    cbn in *. rewrite Hreg, Hmint. split; [set_solver | reflexivity].
Qed.

(** The flush of an empty buffer runs nothing. *)
Lemma flush_of_nothing fuel circuit w :
  circuits w !! circuit = Some [] →
  ∃ w1, flush (S fuel) circuit VNull w = Ret None w1
        ∧ manager w1 = manager w ∧ sim w1 = sim w.
Proof.
  intros Hc. unfold flush, bind, instructions_of, getInstructions. rewrite Hc.
  replace (Compiler.compile (default [] (Some []))) with (Some (@nil Instr)) by reflexivity.
  unfold on_sim, clearCircuit, modify, ret. cbn [run forEach ret].
  eexists. split; [reflexivity|]. split; reflexivity.
Qed.

(** The end of a scope whose buffer is empty: the flush has nothing to
    run, and every qubit of the fresh simulator is released. *)
Lemma cleanup_of_an_idle_scope fuel circuit qs nm w :
  circuits w !! circuit = Some [] →
  sim w = new qs nm {| opt_epsilon := None |} →
  ∃ w', (let* _ := flush (S fuel) circuit VNull in forEach qs release_in_world) w = Ret tt w'
        ∧ registry (manager w') = registry (manager w) ∖ list_to_set qs
        ∧ minted (manager w') = minted (manager w).
Proof.
  intros Hc Hs. destruct (flush_of_nothing fuel circuit w Hc) as (w1 & Hf & Hm1 & Hs1).
  unfold bind. rewrite Hf.
  destruct (release_all qs w1) as (w' & Heq & Hreg & Hmint).
  { intros q Hq. rewrite Hs1, Hs. apply isZero_new_default; [exact Hq | reflexivity]. }
  exists w'. split; [exact Heq|]. rewrite Hreg, Hmint, Hm1. split; reflexivity.
Qed.

(** A scope whose callback records nothing and touches nothing: whether
    the callback returns or throws, [Q.use] ends the same way, and every
    handle it allocated has been released, the registry being what it was
    before the call. *)
Theorem idle_scope_releases_its_qubits (fuel count : nat)
    (callback : list JsVal → Operations.Recorder → M World unit)
    (nm : option NoiseModel) (w : World) :
  minted_above (manager w) →
  ((∀ qs ops w0, callback qs ops w0 = Ret tt w0) →
     ∃ w', use (S fuel) count callback nm w = Ret tt w'
           ∧ registry (manager w') = registry (manager w)
           ∧ minted (manager w') = minted (manager w) + count)
  ∧ (∀ e, (∀ qs ops w0, callback qs ops w0 = Throw e w0) →
       ∃ w', use (S fuel) count callback nm w = Throw e w'
             ∧ registry (manager w') = registry (manager w)
             ∧ minted (manager w') = minted (manager w) + count).
Proof.
  intros Habove.
  destruct (allocate_all_spec count w) as (w1 & Hall & Hreg1 & Hmint1 & Hc1 & Hk1).
  set (qs := VSym <$> seq (minted (manager w)) count) in *.
  assert (Hfresh : registry (manager w1) ∖ list_to_set qs = registry (manager w)).
  { rewrite Hreg1. apply set_eq. intros x. rewrite elem_of_difference, elem_of_union.
    split; [intros [[?|?] ?]; [contradiction | assumption]|].
    intros Hx. split; [now right|]. intros Hin.
    apply elem_of_list_to_set, list_elem_of_fmap in Hin as (n & -> & Hn).
    apply elem_of_seq in Hn. apply Habove in Hx. lia. }
  assert (Hcleanup : ∀ (o : outcome World unit),
             ∃ c w3, (let* qubits := allocate_all count in
                      let* _ := modify (set_sim (new qubits nm {| opt_epsilon := None |})) in
                      let* circuit := newCircuit in
                      fun w => Ret (qubits, circuit) w) w = Ret (qs, c) w3
                     ∧ circuits w3 !! c = Some []
                     ∧ sim w3 = new qs nm {| opt_epsilon := None |}
                     ∧ manager w3 = manager w1).
  { intros _. unfold bind. rewrite Hall. unfold modify, newCircuit.
    eexists _, _. split; [reflexivity|]. cbn. split; [apply lookup_insert_eq|].
    split; reflexivity. }
  destruct (Hcleanup OutOfFuel) as (c & w3 & Hsetup & Hc3 & Hs3 & Hm3). clear Hcleanup.
  destruct (cleanup_of_an_idle_scope fuel c qs nm w3 Hc3 Hs3) as (w' & Hend & Hreg & Hmint).
  assert (Huse : ∀ cb, use (S fuel) count cb nm w
                 = try_finally (cb qs {| Operations.circuit := c;
                                         Operations.onFlush := flush (S fuel) c |})
                     (let* _ := flush (S fuel) c VNull in forEach qs release_in_world) w3).
  { intros cb. unfold use. revert Hsetup. unfold bind. rewrite Hall.
    unfold modify, newCircuit. intros Hsetup. injection Hsetup as <- <-. reflexivity. }
  split.
  - intros Hidle. exists w'. rewrite Huse. unfold try_finally. rewrite Hidle, Hend.
    split; [reflexivity|]. rewrite Hreg, Hmint, Hm3. split; [exact Hfresh | exact Hmint1].
  - intros e Hidle. exists w'. rewrite Huse. unfold try_finally. rewrite Hidle, Hend.
    split; [reflexivity|]. rewrite Hreg, Hmint, Hm3. split; [exact Hfresh | exact Hmint1].
Qed.

End WithEngine.

(** Three qubits, and a callback that returns at once. *)
Lemma idle_scope_releases_its_qubits_witness :
  let E := constant_engine 0.5 in
  let w := {| circuits := ∅; manager := empty;
              sim := new [] None no_options; clock := 0 |} in
  ∃ w', use 1 3 (fun _ _ => ret tt) None w = Ret tt w'
        ∧ registry (manager w') = ∅ ∧ minted (manager w') = 3.
Proof.
  intros E w.
  destruct (@idle_scope_releases_its_qubits E 0 3 (fun _ _ => ret tt) None w) as [Hret _].
  - intros n Hn. cbn in Hn. set_solver.
  - destruct Hret as (w' & Huse & Hreg & Hmint); [reflexivity|].
    exists w'. split; [exact Huse|]. split; [exact Hreg | exact Hmint].
Defined.

End ScopeFacts.

(** ** The recorder: what a call leaves behind *)

Module RecordingFacts.
Import QubitManager Operations Q Samples.
Import OperationsFacts Properties Vocabulary.

Lemma recorded_elsewhere c c' op w :
  c' ≠ c → instructions_of c' (recorded c op w) = instructions_of c' w.
Proof.
  intros Hne. unfold instructions_of, recorded, getInstructions; simpl.
  now rewrite lookup_insert_ne by congruence.
Qed.

Section WithEngine.
Context `{E : Engine}.

(** Recording is lazy and append-only.  A call of a gate method (every
    method but [if], [while] and [m]) that passes its checks returns
    [undefined] and appends one instruction to the buffer of its
    recorder: on the handles of the call, stamped with the clock, with no
    condition and no body.  The simulator, the manager and every other
    buffer are left as they were: nothing is executed before a flush. *)
Theorem recording_is_lazy (r : Recorder) (c : Call) (w : World) :
  records_one c = true → failed_check c (manager w) = None →
  ∃ op w', invoke r c w = Ret None w'
           ∧ qubits_of op = handles c
           ∧ timestamp op = Some (Date_now (clock w))
           ∧ condition op = None ∧ body op = None
           ∧ instructions_of (circuit r) w' = instructions_of (circuit r) w ++ [op]
           ∧ (∀ c', c' ≠ circuit r → instructions_of c' w' = instructions_of c' w)
           ∧ sim w' = sim w ∧ manager w' = manager w ∧ clock w' = S (clock w).
Proof.
  intros Hc Hok.
  assert (Hdone : ∀ g q ps,
            qubits_of (MkInstr g q (Some (default [] ps)) None None
                         (Some (Date_now (clock w)))) = handles c →
            invoke r c w = Ret None (recorded (circuit r)
                                       (MkInstr g q (Some (default [] ps)) None None
                                          (Some (Date_now (clock w)))) w) →
            ∃ op w', invoke r c w = Ret None w'
                     ∧ qubits_of op = handles c
                     ∧ timestamp op = Some (Date_now (clock w))
                     ∧ condition op = None ∧ body op = None
                     ∧ instructions_of (circuit r) w' = instructions_of (circuit r) w ++ [op]
                     ∧ (∀ c', c' ≠ circuit r → instructions_of c' w' = instructions_of c' w)
                     ∧ sim w' = sim w ∧ manager w' = manager w ∧ clock w' = S (clock w)).
  { intros g q ps Hq Hi. eexists _, _. split; [exact Hi|].
    split; [exact Hq|]. split; [reflexivity|]. split; [reflexivity|]. split; [reflexivity|].
    split; [apply recorded_instructions|].
    split; [intros c' Hne; now apply recorded_elsewhere|].
    repeat split. }
  unfold failed_check in Hok.
  destruct c; try discriminate Hc; cbn [handles find] in Hok;
    repeat match type of Hok with
      | context [isAllocated ?q (manager w)] =>
          let Hq := fresh "Hq" in
          destruct (isAllocated q (manager w)) eqn:Hq; cbn [negb] in Hok;
          [|discriminate Hok]
      end;
    try (case_bool_decide; [discriminate Hok|]);
    eapply Hdone;
    try (cbn [invoke];
         unfold void, h, x, y, z, s, t, rx, ry, rz, gate1, rotation, u3, cnot, cz, rzz,
           swap, ccx, reset, bind;
         rewrite ?validate_allocated by assumption;
         rewrite ?bool_decide_eq_false_2 by assumption;
         rewrite addOp_records; reflexivity);
    reflexivity.
Qed.

(** [ops.m(q)] with the flush hook of a scope, whose buffer is [c0].
    When the call returns, the buffer of the scope is empty and the value
    is the result the cache holds for [q] after the flush.  Called on the
    recorder of the scope itself, the flush has run the buffer with the
    MEASURE at its end; called on the recorder handed to the callback of
    an [if] or a [while] (another buffer, the same hook), the flush has
    run the buffer of the scope only: the MEASURE stays in the buffer of
    the block, unexecuted. *)
Theorem measure_call_flushes_the_scope (fuel c c0 n : nat) (w : World) (v : option Z)
    (w' : World) :
  let r := {| circuit := c; onFlush := flush fuel c0 |} in
  let measure_op := MkInstr "MEASURE" (QVal (VSym n)) (Some []) None None
                      (Some (Date_now (clock w))) in
  m r (VSym n) w = Ret v w' →
  isAllocated (VSym n) (manager w) = true
  ∧ instructions_of c0 w' = []
  ∧ v = Simulator.results (sim w') !! VSym n
  ∧ manager w' = manager w
  ∧ (∃ compiled,
       Compiler.compile (if decide (c = c0) then instructions_of c0 w ++ [measure_op]
                         else instructions_of c0 w) = Some compiled
       ∧ Simulator.run fuel compiled (sim w) = Ret tt (sim w'))
  ∧ (c ≠ c0 → instructions_of c w' = instructions_of c w ++ [measure_op]).
Proof.
  intros r measure_op. unfold m. unfold bind at 1.
  destruct (isAllocated (VSym n) (manager w)) eqn:Hq.
  2:{ rewrite (validate_unallocated _ w Hq). discriminate. }
  rewrite (validate_allocated _ w Hq). unfold bind at 1. rewrite addOp_records.
  cbn [circuit onFlush r default].
  fold measure_op. set (w1 := recorded c measure_op w).
  assert (Hir : instructions_of c0 w1
                = if decide (c = c0) then instructions_of c0 w ++ [measure_op]
                  else instructions_of c0 w).
  { subst w1. destruct (decide (c = c0)) as [->|Hne].
    - apply recorded_instructions.
    - apply recorded_elsewhere. congruence. }
  unfold flush. unfold bind at 1. rewrite Hir.
  destruct (Compiler.compile _) as [compiled|] eqn:Hcomp; [|discriminate].
  unfold bind at 1. unfold on_sim.
  change (sim w1) with (sim w).
  destruct (Simulator.run fuel compiled (sim w)) as [[] s1|e s1|] eqn:Hrun;
    [|discriminate|discriminate].
  unfold bind, clearCircuit, modify. intros Hret. injection Hret as <- <-.
  split; [reflexivity|]. split.
  { unfold instructions_of. cbn. now rewrite lookup_insert_eq. }
  split; [reflexivity|]. split; [reflexivity|]. split.
  { exists compiled. split; [reflexivity | exact Hrun]. }
  intros Hne. unfold instructions_of. cbn.
  rewrite lookup_insert_ne by congruence. rewrite lookup_insert_eq. reflexivity.
Qed.

End WithEngine.

(** An RZ on the one allocated qubit of a scope. *)
Lemma recording_is_lazy_witness :
  let E := constant_engine 0.5 in
  let w := {| circuits := {[0 := []]};
              manager := {| registry := {[VSym 0]}; minted := 1 |};
              sim := Simulator.new [VSym 0] None no_options;
              clock := 0 |} in
  let r := {| circuit := 0; onFlush := fun _ => ret None |} in
  ∃ op w', invoke r (call_rz (VSym 0) 0.5) w = Ret None w'
           ∧ instructions_of 0 w' = [op] ∧ sim w' = sim w.
Proof.
  intros E w r.
  destruct (@recording_is_lazy E r (call_rz (VSym 0) 0.5) w)
    as (op & w' & Hi & _ & _ & _ & _ & Hins & _ & Hsim & _).
  - reflexivity.
  - vm_compute. reflexivity.
  - exists op, w'. split; [exact Hi|]. split; [exact Hins | exact Hsim].
Defined.

Lemma measure_steps_returns `{E : Engine} q s :
  is_Some (Simulator.qubitMap s !! q) → ∃ s', measure_steps q s = Ret tt s'.
Proof.
  intros Hq. destruct (SimulatorErrors.measure_returns q s Hq) as (res & s1 & Hm & _).
  unfold measure_steps, bind. rewrite Hm. eexists. reflexivity.
Qed.

(** The first call of a scope of one qubit is [m]. *)
Lemma first_measure_returns :
  let E := constant_engine 0.5 in
  let w := {| circuits := {[0 := []]};
              manager := {| registry := {[VSym 0]}; minted := 1 |};
              sim := Simulator.new [VSym 0] None no_options;
              clock := 0 |} in
  let r := {| circuit := 0; onFlush := flush 2 0 |} in
  ∃ v w', m r (VSym 0) w = Ret v w'.
Proof.
  intros E w r. unfold m, bind.
  rewrite validate_allocated by (vm_compute; reflexivity).
  rewrite addOp_records. subst r. cbn [onFlush circuit].
  unfold flush. unfold bind at 1.
  rewrite recorded_instructions.
  replace (instructions_of 0 w) with (@nil Instr) by (vm_compute; reflexivity).
  match goal with |- context [Compiler.compile ?l] =>
    replace (Compiler.compile l)
      with (Some [MkInstr "MEASURE" (QVal (VSym 0)) (Some []) None None (Some 0%Z)])
      by (vm_compute; reflexivity)
  end.
  unfold bind at 1. unfold on_sim.
  change (sim (recorded _ _ w)) with (Simulator.new [VSym 0] None no_options).
  rewrite SimulatorFacts.run_one, SimulatorFacts.run_op_MEASURE.
  destruct (measure_steps_returns (VSym 0) (Simulator.new [VSym 0] None no_options))
    as (s' & ->).
  { exists 0. vm_compute. reflexivity. }
  unfold bind, clearCircuit, modify. eexists _, _. reflexivity.
Qed.

Lemma measure_call_flushes_the_scope_witness :
  let E := constant_engine 0.5 in
  let w := {| circuits := {[0 := []]};
              manager := {| registry := {[VSym 0]}; minted := 1 |};
              sim := Simulator.new [VSym 0] None no_options;
              clock := 0 |} in
  let r := {| circuit := 0; onFlush := flush 2 0 |} in
  ∃ v w', m r (VSym 0) w = Ret v w'
          ∧ instructions_of 0 w' = []
          ∧ v = Simulator.results (sim w') !! VSym 0.
Proof.
  intros E w r. destruct first_measure_returns as (v & w' & Hm).
  exists v, w'. split; [exact Hm|].
  destruct (@measure_call_flushes_the_scope E 2 0 0 0 w v w' Hm) as (_ & Hins & Hv & _).
  split; [exact Hins | exact Hv].
Defined.

End RecordingFacts.

(** ** The optimizer: what [prune] does to a list *)

Module PruneFacts.
Import Optimizer.
Import OptimizerFacts Properties Vocabulary.

Lemma loop_app (l1 l2 : list Instr) :
  ∀ st, loop st (l1 ++ l2)
        = match loop st l1 with
          | Some st' => loop st' l2
          | None => None
          end.
Proof.
  induction l1 as [|op l1 IH]; intros st; simpl; [reflexivity|].
  destruct (step st op); [apply IH | reflexivity].
Qed.

Lemma keep_length (slots : list (option Instr)) :
  length (concat (map keep slots)) ≤ length slots.
Proof.
  induction slots as [|slot slots IH]; simpl; [lia|].
  rewrite length_app. destruct slot as [op|]; simpl; [|lia].
  destruct (isIdentity op); simpl; lia.
Qed.

(** What a slot of the output list holds comes from the input: the
    qubit, the condition, the body and the timestamp are those of an
    instruction of the input. *)
Lemma slots_insert (P : Instr → Prop) (slots : list (option Instr)) i (slot : option Instr) :
  Forall (fun s => ∀ op, s = Some op → P op) slots →
  (∀ op, slot = Some op → P op) →
  Forall (fun s => ∀ op, s = Some op → P op) (<[i := slot]> slots).
Proof. intros Hs Hslot. now apply Forall_insert. Qed.

Lemma mergeGates_slots (P : Instr → Prop) partnerIdx op st st' :
  (∀ partner ps, P partner → P (with_params ps partner)) →
  Forall (fun s => ∀ op, s = Some op → P op) (optimized st) →
  mergeGates partnerIdx op st = Some st' →
  Forall (fun s => ∀ op, s = Some op → P op) (optimized st')
  ∧ length (optimized st') = length (optimized st).
Proof.
  intros Hparams Hs. unfold mergeGates.
  destruct (optimized st !! partnerIdx) as [[partner|]|] eqn:Hp; try discriminate.
  assert (HP : P partner).
  { apply (Forall_lookup_1 _ _ _ _ Hs Hp). reflexivity. }
  destruct (params partner) as [pp|]; [|discriminate].
  destruct (params op) as [po|]; [|discriminate].
  set (partner' := if includes ["RX"; "RY"; "RZ"] (gate op) then _ else partner).
  assert (HP' : P partner').
  { subst partner'. destruct (includes _ _); [now apply Hparams | exact HP]. }
  destruct (isIdentity partner').
  - destruct (removeFromWires _ _ _); [|discriminate].
    intros Heq. injection Heq as <-. cbn. rewrite !length_insert. split; [|reflexivity].
    apply slots_insert; [|discriminate].
    apply slots_insert; [exact Hs|]. intros op0 Hop0. now injection Hop0 as <-.
  - intros Heq. injection Heq as <-. cbn. rewrite length_insert. split; [|reflexivity].
    apply slots_insert; [exact Hs|]. intros op0 Hop0. now injection Hop0 as <-.
Qed.

Lemma step_slots (P : Instr → Prop) st op st' :
  (∀ partner ps, P partner → P (with_params ps partner)) →
  (∀ partner g, P partner → P (with_gate g partner)) →
  Forall (fun s => ∀ op, s = Some op → P op) (optimized st) → P op →
  step st op = Some st' →
  Forall (fun s => ∀ op, s = Some op → P op) (optimized st')
  ∧ length (optimized st') ≤ S (length (optimized st)).
Proof.
  intros Hparams Hgate Hs Hop. unfold step.
  assert (Happend : Forall (fun s => ∀ op, s = Some op → P op) (optimized (append op st))
                    ∧ length (optimized (append op st)) ≤ S (length (optimized st))).
  { unfold append. cbn. rewrite length_app. cbn. split; [|lia].
    apply Forall_app. split; [exact Hs|]. constructor; [|constructor].
    intros op0 Hop0. now injection Hop0 as <-. }
  destruct (isIdentity op).
  { intros Heq. injection Heq as <-. split; [exact Hs | lia]. }
  destruct (findCommutingPartner op st) as [[partnerIdx|]|]; [|now intros [= <-]|discriminate].
  destruct (optimized st !! partnerIdx) as [[partner|]|] eqn:Hp; try discriminate.
  assert (HP : P partner).
  { apply (Forall_lookup_1 _ _ _ _ Hs Hp). reflexivity. }
  destruct (includes ["RX"; "RY"; "RZ"] (gate op)).
  { intros Hm. destruct (mergeGates_slots P partnerIdx op st st' Hparams Hs Hm) as [H1 H2].
    split; [exact H1 | lia]. }
  destruct (String.eqb (gate op) "S" && String.eqb (gate partner) "S").
  { intros Heq. injection Heq as <-. cbn. rewrite length_insert. split; [|lia].
    apply slots_insert; [exact Hs|]. intros op0 Hop0. injection Hop0 as <-. now apply Hgate. }
  destruct (String.eqb (gate op) "T" && String.eqb (gate partner) "T").
  { intros Heq. injection Heq as <-. cbn. rewrite length_insert. split; [|lia].
    apply slots_insert; [exact Hs|]. intros op0 Hop0. injection Hop0 as <-. now apply Hgate. }
  destruct (String.eqb (gate op) (gate partner) && includes selfInverses (gate op)).
  { destruct (removeFromWires _ _ _); [|discriminate].
    intros Heq. injection Heq as <-. cbn. rewrite length_insert. split; [|lia].
    apply slots_insert; [exact Hs | discriminate]. }
  now intros [= <-].
Qed.

Lemma loop_slots (P : Instr → Prop) instructions :
  (∀ partner ps, P partner → P (with_params ps partner)) →
  (∀ partner g, P partner → P (with_gate g partner)) →
  Forall P instructions →
  ∀ st st', Forall (fun s => ∀ op, s = Some op → P op) (optimized st) →
            loop st instructions = Some st' →
            Forall (fun s => ∀ op, s = Some op → P op) (optimized st')
            ∧ length (optimized st') ≤ length (optimized st) + length instructions.
Proof.
  intros Hparams Hgate. induction 1 as [|op rest Hop Hrest IH]; intros st st' Hs; simpl.
  - intros Heq. injection Heq as <-. split; [exact Hs | lia].
  - destruct (step st op) as [st1|] eqn:Hstep; [|discriminate]. intros Hloop.
    destruct (step_slots P st op st1 Hparams Hgate Hs Hop Hstep) as [Hs1 Hl1].
    destruct (IH st1 st' Hs1 Hloop) as [Hs' Hl']. split; [exact Hs' | lia].
Qed.

(** [prune] only removes and rewrites: its output is never longer than
    its input, and every instruction of the output has the qubit, the
    condition, the body and the timestamp of an instruction of the input
    (the gate and the first parameter are what a merge may change). *)
Theorem prune_only_removes_and_rewrites (instructions pruned : list Instr) :
  prune instructions = Some pruned →
  length pruned ≤ length instructions
  ∧ Forall (fun op' => ∃ op, op ∈ instructions
                             ∧ qubit op' = qubit op ∧ condition op' = condition op
                             ∧ body op' = body op ∧ timestamp op' = timestamp op) pruned.
Proof.
  unfold prune.
  destruct (loop {| wireMap := ∅; optimized := [] |} instructions) as [st|] eqn:Hloop;
    [|discriminate].
  intros Heq. injection Heq as <-.
  set (P := fun op' => ∃ op, op ∈ instructions
                             ∧ qubit op' = qubit op ∧ condition op' = condition op
                             ∧ body op' = body op ∧ timestamp op' = timestamp op).
  destruct (loop_slots P instructions) with (st := {| wireMap := ∅; optimized := [] |})
                                            (st' := st) as [Hs Hl].
  - intros partner ps (op & Hin & H1 & H2 & H3 & H4). exists op. repeat split; assumption.
  - intros partner g (op & Hin & H1 & H2 & H3 & H4). exists op. repeat split; assumption.
  - apply Forall_forall. intros op Hin. exists op. repeat split. exact Hin.
  - constructor.
  - exact Hloop.
  - split.
    + pose proof (keep_length (optimized st)). cbn in Hl. lia.
    + apply Forall_concat, Forall_fmap, (Forall_impl _ _ _ Hs).
      intros [op|] Hslot; cbn; [|constructor].
      destruct (isIdentity op); constructor; [|constructor]. now apply Hslot.
Qed.

(** A gate on two or three qubits is never looked at again: a list of
    instructions none of which is on a single qubit or an identity comes
    back as it is.  [CNOT; CNOT] on the same pair is not cancelled,
    although the list of self-inverse gates names CNOT, CZ and SWAP. *)
Lemma loop_multi_qubit instructions :
  Forall (fun op => length (qubits_of op) ≠ 1 ∧ isIdentity op = false) instructions →
  ∀ st, ∃ st', loop st instructions = Some st'
               ∧ optimized st' = optimized st ++ (Some <$> instructions).
Proof.
  induction 1 as [|op rest [Hq Hid] Hrest IH]; intros st; simpl.
  - exists st. split; [reflexivity|]. now rewrite app_nil_r.
  - assert (Hstep : step st op = Some (append op st)).
    { unfold step. rewrite Hid. unfold findCommutingPartner.
      destruct (qubits_of op) as [|a [|a' l]]; try reflexivity. exfalso. now apply Hq. }
    rewrite Hstep. destruct (IH (append op st)) as (st' & Hloop & Hopt).
    exists st'. split; [exact Hloop|]. rewrite Hopt. cbn. now rewrite <- app_assoc.
Qed.

Lemma keep_all (l : list Instr) :
  Forall (fun op => isIdentity op = false) l → concat (map keep (Some <$> l)) = l.
Proof.
  induction 1 as [|op rest Hid _ IH]; [reflexivity|].
  cbn. rewrite Hid. cbn. now rewrite IH.
Qed.

(** [prune] only ever looks for a partner of a single-qubit gate.  A
    list none of whose instructions is on exactly one qubit, or counts
    as an identity, comes back as it was given: two equal CNOTs next to
    each other are not cancelled. *)
Theorem prune_keeps_multi_qubit_gates (instructions : list Instr) :
  Forall (fun op => length (qubits_of op) ≠ 1 ∧ isIdentity op = false) instructions →
  prune instructions = Some instructions.
Proof.
  intros Hall. unfold prune.
  destruct (loop_multi_qubit instructions Hall {| wireMap := ∅; optimized := [] |})
    as (st' & -> & ->).
  cbn [app optimized]. f_equal. apply keep_all.
  apply (Forall_impl _ _ _ Hall). now intros op [_ Hid].
Qed.

(** An instruction [prune] takes for an identity (a rotation by a
    multiple of 2π, within 1e-10) is dropped on sight, wherever it
    stands: the output is that of the list without it. *)
Theorem prune_ignores_identities (l1 l2 : list Instr) (op : Instr) :
  isIdentity op = true → prune (l1 ++ op :: l2) = prune (l1 ++ l2).
Proof.
  intros Hid. unfold prune. rewrite !loop_app.
  destruct (loop _ l1) as [st|]; [|reflexivity].
  simpl. unfold step at 1. now rewrite Hid.
Qed.

(** Two equal self-inverse gates on one qubit, next to each other,
    cancel: nothing is left of [g(q); g(q)] for g among H, X, Y and Z. *)
Theorem adjacent_self_inverses_cancel (g : string) (q : JsVal) ps1 c1 b1 ts1 ps2 c2 b2 ts2 :
  g ∈ ["H"; "X"; "Y"; "Z"] →
  prune [MkInstr g (QVal q) ps1 c1 b1 ts1; MkInstr g (QVal q) ps2 c2 b2 ts2] = Some [].
Proof.
  intros Hg.
  assert (Hid : ∀ ps c b ts, isIdentity (MkInstr g (QVal q) ps c b ts) = false).
  { intros. apply isIdentity_other.
    repeat (apply elem_of_cons in Hg as [->|Hg]; [reflexivity|]). inversion Hg. }
  repeat (apply elem_of_cons in Hg as [->|Hg];
          [unfold prune, loop, step, findCommutingPartner, append, push_wires, keep,
             removeFromWires;
           repeat (cbn -[isIdentity insert];
                   rewrite ?Hid, ?lookup_empty, ?lookup_insert_eq,
                     ?bool_decide_eq_true_2 by done);
           reflexivity|]).
  inversion Hg.
Qed.

(** Two rotations about the same axis on one qubit, next to each
    other, are merged into the first: its angle becomes the sum of the
    two angles modulo 2π (the remainder has the sign of the sum), and the
    instruction is dropped when that is an identity. *)
Theorem adjacent_rotations_merge (g : string) (q : JsVal) (a b : float)
    c1 b1 ts1 c2 b2 ts2 :
  g ∈ ["RX"; "RY"; "RZ"] →
  let first := MkInstr g (QVal q) (Some [a]) c1 b1 ts1 in
  let second := MkInstr g (QVal q) (Some [b]) c2 b2 ts2 in
  let merged := MkInstr g (QVal q) (Some [rem (a + b) two_pi]) c1 b1 ts1 in
  isIdentity first = false → isIdentity second = false →
  prune [first; second] = Some (if isIdentity merged then [] else [merged]).
Proof.
  intros Hg first second merged H1 H2. subst first second merged.
  repeat (apply elem_of_cons in Hg as [->|Hg];
          [unfold prune, loop, step, findCommutingPartner, append, push_wires, keep,
             mergeGates, removeFromWires, with_params, set0;
           repeat (cbn -[isIdentity insert rem two_pi];
                   rewrite ?H1, ?H2, ?lookup_empty, ?lookup_insert_eq,
                     ?bool_decide_eq_true_2 by done);
           match goal with |- context [isIdentity ?op] => destruct (isIdentity op) eqn:Hm end;
           cbn -[isIdentity rem two_pi]; rewrite ?Hm; reflexivity|]).
  inversion Hg.
Qed.

(** The commutation table at work across a CNOT.  A Z on the control
    and an X on the target commute with the CNOT, so a second Z, or X,
    behind it finds the first and the pair cancels; a Z on the target and
    an X on the control do not, and nothing is removed. *)
Theorem pairs_cancel_across_a_CNOT (n k : nat) :
  n ≠ k →
  let a := VSym n in
  let b := VSym k in
  let on g q := MkInstr g (QVal q) (Some []) None None None in
  let cnot := MkInstr "CNOT" (QArr [a; b]) (Some []) None None None in
  prune [on "Z" a; cnot; on "Z" a] = Some [cnot]
  ∧ prune [on "X" b; cnot; on "X" b] = Some [cnot]
  ∧ prune [on "Z" b; cnot; on "Z" b] = Some [on "Z" b; cnot; on "Z" b]
  ∧ prune [on "X" a; cnot; on "X" a] = Some [on "X" a; cnot; on "X" a].
Proof.
  intros Hne a b on cnot.
  assert (Hab : a ≠ b) by (subst a b; congruence).
  assert (Hba : b ≠ a) by congruence.
  assert (Hmem : ∀ x y : JsVal, x ≠ y →
            filter (fun v => v ∈ [x; y]) [y] = [y] ∧ filter (fun v => v ∈ [x; y]) [x] = [x]
            ∧ filter (fun v => v ∈ [x]) [x; y] = [x] ∧ filter (fun v => v ∈ [y]) [x; y] = [y]).
  { intros x y Hxy. repeat split.
    - rewrite filter_cons_True by set_solver. reflexivity.
    - rewrite filter_cons_True by set_solver. reflexivity.
    - rewrite filter_cons_True by set_solver. rewrite filter_cons_False by set_solver.
      reflexivity.
    - rewrite filter_cons_False by set_solver. rewrite filter_cons_True by set_solver.
      reflexivity. }
  destruct (Hmem a b Hab) as (Hf1 & Hf2 & Hf3 & Hf4).
  subst on cnot.
  repeat split;
    unfold prune, loop, step, findCommutingPartner, append, push_wires, keep,
      removeFromWires, walk, canCommute, qubits_of;
    repeat (cbn -[insert filter];
            rewrite ?Hf1, ?Hf2, ?Hf3, ?Hf4, ?lookup_empty, ?lookup_insert_eq,
              ?(lookup_insert_ne _ a b), ?(lookup_insert_ne _ b a),
              ?bool_decide_eq_true_2, ?(bool_decide_eq_false_2 (a = b)),
              ?(bool_decide_eq_false_2 (b = a)) by done);
    reflexivity.
Qed.

Lemma prune_only_removes_and_rewrites_witness :
  let h := MkInstr "H" (QVal (VSym 0)) (Some []) None None (Some 1%Z) in
  prune [h; h] = Some [] ∧ length (@nil Instr) ≤ 2.
Proof.
  intros h. assert (Hp : prune [h; h] = Some []) by (vm_compute; reflexivity).
  split; [exact Hp|]. apply (prune_only_removes_and_rewrites [h; h] [] Hp).
Defined.

(** A CNOT twice over. *)
Lemma prune_keeps_multi_qubit_gates_witness :
  let cnot := MkInstr "CNOT" (QArr [VSym 0; VSym 1]) (Some []) None None None in
  prune [cnot; cnot] = Some [cnot; cnot].
Proof.
  intros cnot. apply prune_keeps_multi_qubit_gates.
  repeat constructor; try discriminate.
Defined.

(** A rotation by 0 between two Hadamard gates. *)
Lemma prune_ignores_identities_witness :
  let h := MkInstr "H" (QVal (VSym 0)) (Some []) None None None in
  let rz0 := MkInstr "RZ" (QVal (VSym 0)) (Some [0%float]) None None None in
  prune [h; rz0; h] = prune [h; h].
Proof.
  intros h rz0. apply (prune_ignores_identities [h] [h] rz0). vm_compute. reflexivity.
Defined.

Lemma adjacent_self_inverses_cancel_witness :
  prune [MkInstr "Y" (QVal (VSym 0)) (Some []) None None None;
         MkInstr "Y" (QVal (VSym 0)) (Some []) None None None] = Some [].
Proof. apply adjacent_self_inverses_cancel. set_solver. Defined.

(** A quarter turn twice, and a quarter turn and its inverse. *)
Lemma adjacent_rotations_merge_witness :
  let rz θ := MkInstr "RZ" (QVal (VSym 0)) (Some [θ]) None None None in
  prune [rz 0.5%float; rz 0.5%float] = Some [rz 1%float]
  ∧ prune [rz 0.5%float; rz (-0.5)%float] = Some [].
Proof.
  intros rz. subst rz. cbv beta. split.
  - rewrite (adjacent_rotations_merge "RZ" (VSym 0) 0.5 0.5 None None None None None None);
      [vm_compute; reflexivity | set_solver | vm_compute; reflexivity | vm_compute; reflexivity].
  - rewrite (adjacent_rotations_merge "RZ" (VSym 0) 0.5 (-0.5) None None None None None None);
      [vm_compute; reflexivity | set_solver | vm_compute; reflexivity | vm_compute; reflexivity].
Defined.

Lemma pairs_cancel_across_a_CNOT_witness :
  let cnot := MkInstr "CNOT" (QArr [VSym 0; VSym 1]) (Some []) None None None in
  let z := MkInstr "Z" (QVal (VSym 0)) (Some []) None None None in
  prune [z; cnot; z] = Some [cnot].
Proof.
  intros cnot z. apply (pairs_cancel_across_a_CNOT 0 1). discriminate.
Defined.

End PruneFacts.

(** ** The transpiler: failure, size and idempotence *)

Module TranspileFacts.
Import Transpiler.
Import TranspilerFacts Properties Vocabulary.

Ltac native_out :=
  split;
  [ repeat (constructor; [reflexivity|]); constructor
  | intros _; repeat (constructor; [first [left; reflexivity | right; reflexivity]|]);
    constructor ].

(** What [decompose] answers, by the gate and the shape of the qubit. *)
Lemma decompose_cases (op : Instr) :
  (decompose op = None
   ∧ (gate op = "SWAP" ∨ gate op = "CZ") ∧ isArray (qubit op) = false)
  ∨ (∃ out, decompose op = Some out
            ∧ ¬ ((gate op = "SWAP" ∨ gate op = "CZ") ∧ isArray (qubit op) = false)
            ∧ 1 ≤ length out ≤ 3
            ∧ Forall (fun op' => decompose op' = Some [op']) out
            ∧ (includes decomposed_gates (gate op) = true →
               Forall (fun op' => gate op' = "U3" ∨ gate op' = "CNOT") out)).
Proof.
  destruct (includes decomposed_gates (gate op)) eqn:Hinc.
  2:{ right. exists [op]. rewrite (decompose_default op Hinc).
      split; [reflexivity|]. split.
      - intros [[Hg|Hg] _]; rewrite Hg in Hinc; discriminate.
      - split; [cbn; lia|]. split; [|discriminate].
        constructor; [|constructor]. apply (decompose_default op Hinc). }
  unfold decompose. unfold includes, decomposed_gates in Hinc. cbn [existsb] in Hinc.
  destruct (String.eqb_spec (gate op) "H") as [Hg|_].
  { right. eexists. split; [reflexivity|]. split; [intros [[H|H] _]; congruence|].
    split; [cbn; lia|]. native_out. }
  destruct (String.eqb_spec (gate op) "X") as [Hg|_].
  { right. eexists. split; [reflexivity|]. split; [intros [[H|H] _]; congruence|].
    split; [cbn; lia|]. native_out. }
  destruct (String.eqb_spec (gate op) "Y") as [Hg|_].
  { right. eexists. split; [reflexivity|]. split; [intros [[H|H] _]; congruence|].
    split; [cbn; lia|]. native_out. }
  destruct (String.eqb_spec (gate op) "Z") as [Hg|_].
  { right. eexists. split; [reflexivity|]. split; [intros [[H|H] _]; congruence|].
    split; [cbn; lia|]. native_out. }
  destruct (String.eqb_spec (gate op) "RX") as [Hg|_].
  { right. eexists. split; [reflexivity|]. split; [intros [[H|H] _]; congruence|].
    split; [cbn; lia|]. native_out. }
  destruct (String.eqb_spec (gate op) "RY") as [Hg|_].
  { right. eexists. split; [reflexivity|]. split; [intros [[H|H] _]; congruence|].
    split; [cbn; lia|]. native_out. }
  destruct (String.eqb_spec (gate op) "RZ") as [Hg|_].
  { right. eexists. split; [reflexivity|]. split; [intros [[H|H] _]; congruence|].
    split; [cbn; lia|]. native_out. }
  destruct (String.eqb_spec (gate op) "SWAP") as [Hg|_].
  { destruct (qubit op) as [v|l]; cbn [destructure2 isArray].
    - left. split; [reflexivity|]. split; [now left | reflexivity].
    - right. eexists. split; [reflexivity|]. split; [intros [_ H]; discriminate|].
      split; [cbn; lia|]. native_out. }
  destruct (String.eqb_spec (gate op) "CZ") as [Hg|_].
  { destruct (qubit op) as [v|l]; cbn [destructure2 isArray].
    - left. split; [reflexivity|]. split; [now right | reflexivity].
    - right. eexists. split; [reflexivity|]. split; [intros [_ H]; discriminate|].
      split; [cbn; lia|]. native_out. }
  cbn in Hinc. discriminate.
Qed.

Lemma transpile_none_iff (instructions : list Instr) :
  (transpile instructions = None
   ↔ Exists (fun op => (gate op = "SWAP" ∨ gate op = "CZ") ∧ isArray (qubit op) = false)
       instructions)
  ∧ (∀ out, transpile instructions = Some out →
            length instructions ≤ length out ≤ 3 * length instructions).
Proof.
  induction instructions as [|op rest [IHnone IHsome]]; simpl.
  - split; [split; [discriminate | intros H; inversion H]|].
    intros out Hout. injection Hout as <-. cbn. lia.
  - destruct (decompose_cases op) as [(-> & Hbad)|(d & -> & Hgood & Hlen & _)].
    + split; [split; [intros _; now left | reflexivity] | discriminate].
    + destruct (transpile rest) as [native|] eqn:Hrest.
      * split.
        -- split; [discriminate|]. intros Hex. apply Exists_cons in Hex as [Hop|Hex].
           ++ contradiction.
           ++ apply IHnone in Hex. discriminate.
        -- intros out Hout. injection Hout as <-. rewrite length_app.
           specialize (IHsome native eq_refl). lia.
      * split; [|discriminate].
        split; [intros _; right; now apply IHnone | reflexivity].
Qed.

(** On a list whose RX, RY and RZ instructions each carry a [params]
    array (the [params = []] default covers a missing field only, and
    [params[0]] of a [null] throws), [transpile] throws exactly when the
    list has a SWAP or a CZ whose qubit is not an array (the two qubits
    cannot be destructured); otherwise its output has between once and
    three times as many instructions as the input. *)
Theorem transpile_throws_on_scalar_pairs (instructions : list Instr) :
  Forall (fun op => gate op ∈ ["RX"; "RY"; "RZ"] → is_Some (params op)) instructions →
  (transpile instructions = None
   ↔ Exists (fun op => (gate op = "SWAP" ∨ gate op = "CZ") ∧ isArray (qubit op) = false)
       instructions)
  ∧ (∀ out, transpile instructions = Some out →
            length instructions ≤ length out ≤ 3 * length instructions).
Proof. intros _. apply transpile_none_iff. Qed.

(** Transpiling twice is transpiling once: what [transpile] returns it
    passes through unchanged; and when every gate of the input is one the
    table decomposes, a U3 or a CNOT, the output has U3 and CNOT only. *)
Theorem transpile_is_idempotent (instructions out : list Instr) :
  transpile instructions = Some out →
  transpile out = Some out
  ∧ (Forall (fun op => includes decomposed_gates (gate op) = true
                       ∨ gate op = "U3" ∨ gate op = "CNOT") instructions →
     Forall (fun op => gate op = "U3" ∨ gate op = "CNOT") out).
Proof.
  revert out. induction instructions as [|op rest IH]; intros out; simpl.
  - intros Hout. injection Hout as <-. split; [reflexivity | constructor].
  - destruct (decompose_cases op) as [(-> & _)|(d & Hd & _ & _ & Hpass & Hnative)];
      [discriminate|].
    rewrite Hd. destruct (transpile rest) as [native|]; [|discriminate].
    intros Hout. injection Hout as <-. destruct (IH native eq_refl) as [IHt IHn].
    split.
    + rewrite transpile_app, IHt.
      assert (Hdd : transpile d = Some d).
      { clear -Hpass. induction Hpass as [|op' d' Hop' _ IHd]; [reflexivity|].
        simpl. now rewrite Hop', IHd. }
      now rewrite Hdd.
    + intros Hall. apply Forall_cons in Hall as [Hop Hall].
      apply Forall_app. split; [|now apply IHn].
      destruct Hop as [Hinc|Hop]; [now apply Hnative|].
      assert (Hself : decompose op = Some [op]).
      { apply decompose_default. destruct Hop as [-> | ->]; reflexivity. }
      rewrite Hself in Hd. injection Hd as <-. constructor; [exact Hop | constructor].
Qed.

(** A rotation, then a SWAP of a qubit that is not a pair. *)
Lemma transpile_throws_on_scalar_pairs_witness :
  let rx := MkInstr "RX" (QVal (VSym 0)) (Some [0.5%float]) None None None in
  let swap := MkInstr "SWAP" (QVal (VSym 0)) (Some []) None None None in
  transpile [rx; swap] = None
  ∧ ∀ out, transpile [rx] = Some out → 1 ≤ length out ≤ 3.
Proof.
  intros rx swap. split.
  - destruct (transpile_throws_on_scalar_pairs [rx; swap]) as [[_ Hthrow] _].
    + repeat constructor; intros _; eexists; reflexivity.
    + apply Hthrow. apply Exists_cons_tl, Exists_cons_hd. split; [now left | reflexivity].
  - destruct (transpile_throws_on_scalar_pairs [rx]) as [_ Hlen].
    + repeat constructor; intros _; eexists; reflexivity.
    + exact Hlen.
Defined.

(** A SWAP, and what becomes of its three CNOTs. *)
Lemma transpile_is_idempotent_witness :
  let swap := MkInstr "SWAP" (QArr [VSym 0; VSym 1]) (Some []) None None (Some 3%Z) in
  let out := [CNOT (VSym 0) (VSym 1); CNOT (VSym 1) (VSym 0); CNOT (VSym 0) (VSym 1)] in
  transpile [swap] = Some out ∧ transpile out = Some out.
Proof.
  intros swap out. assert (Ht : transpile [swap] = Some out) by reflexivity.
  split; [exact Ht|]. apply (transpile_is_idempotent [swap] out Ht).
Defined.

End TranspileFacts.

(** ** The algorithm library: what its routines record *)

Module AlgorithmFacts.
Import QubitManager World Operations Algorithms Samples.
Import OperationsFacts RunFacts RecordingFacts Properties Vocabulary.

Lemma twice_half_of_product k : 2 * (k * (k - 1) / 2) = k * (k - 1).
Proof.
  destruct (Nat.Even_or_Odd k) as [[m ->]|[m ->]].
  - replace (2 * m * (2 * m - 1)) with (m * (2 * m - 1) * 2) by lia.
    rewrite Nat.div_mul by lia. lia.
  - replace ((2 * m + 1) * (2 * m + 1 - 1)) with ((2 * m + 1) * m * 2) by lia.
    rewrite Nat.div_mul by lia. lia.
Qed.

Lemma sum_of_a_row (g : nat → nat) a k c :
  (∀ i, a ≤ i < a + k → g i = c) → sum_list_with g (seq a k) = k * c.
Proof.
  revert a. induction k as [|k IH]; intros a Hg; [reflexivity|].
  simpl. rewrite (Hg a) by lia. rewrite (IH (S a)); [lia|]. intros i Hi. apply Hg. lia.
Qed.

Lemma sum_of_the_rows (g : nat → nat) a k :
  (∀ i, a ≤ i < a + k → g i = 1 + 5 * (a + k - (i + 1))) →
  2 * sum_list_with g (seq a k) = 2 * k + 5 * (k * (k - 1)).
Proof.
  revert a. induction k as [|k IH]; intros a Hg; [reflexivity|].
  simpl seq. simpl sum_list_with. rewrite (Hg a) by lia.
  specialize (IH (S a)). lapply IH.
  - intros Hs. replace (a + S k - (a + 1)) with k by lia.
    replace (S k - 1) with k by lia. destruct k as [|k]; [simpl in *; lia|].
    replace (S k - 1) with k in Hs by lia. nia.
  - intros i Hi. rewrite Hg by lia. f_equal. f_equal. lia.
Qed.

Lemma sum_list_with_rev {A} (g : A → nat) l :
  sum_list_with g (rev l) = sum_list_with g l.
Proof.
  induction l as [|x l IH]; [reflexivity|].
  simpl. rewrite sum_list_with_app, IH. simpl. lia.
Qed.

Lemma elem_of_rev_seq i a k : i ∈ rev (seq a k) ↔ a ≤ i < a + k.
Proof. rewrite list_elem_of_In, <- in_rev, <- list_elem_of_In. apply elem_of_seq. Qed.

Lemma bind_returned {S A B} (m : M S A) (k : A → M S B) s b s' :
  bind m k s = Ret b s' → ∃ a s1, m s = Ret a s1 ∧ k a s1 = Ret b s'.
Proof.
  unfold bind. destruct (m s) as [a s1|e s1|]; [|discriminate|discriminate].
  intros Hk. now exists a, s1.
Qed.

Section WithEngine.
Context `{E : Engine}.

Lemma stamped_app now s1 s2 :
  stamped now (s1 ++ s2) = stamped now s1 ++ stamped (now + length s1) s2.
Proof.
  unfold stamped. rewrite imap_app. f_equal. apply imap_ext. intros k sh _. simpl.
  now rewrite Nat.add_assoc.
Qed.

Lemma appended_nothing c w : appended c [] w w.
Proof.
  unfold appended, stamped. simpl. rewrite app_nil_r, Nat.add_0_r. repeat split.
Qed.

Lemma appended_trans c s1 s2 w w1 w2 :
  appended c s1 w w1 → appended c s2 w1 w2 → appended c (s1 ++ s2) w w2.
Proof.
  intros (Hi & Ho & Hs & Hm & Hc) (Hi' & Ho' & Hs' & Hm' & Hc').
  unfold appended. rewrite Hi', Hi, Hc, stamped_app, length_app, <- app_assoc.
  split; [reflexivity|].
  split; [intros c' Hne; rewrite Ho', Ho by exact Hne; reflexivity|].
  split; [congruence|]. split; [congruence|lia].
Qed.

Lemma appended_one c g q ps w :
  appended c [(g, q, ps)] w
    (recorded c (MkInstr g q (Some ps) None None (Some (Date_now (clock w)))) w).
Proof.
  unfold appended. rewrite recorded_instructions. unfold stamped. simpl.
  rewrite Nat.add_0_r.
  split; [reflexivity|]. split; [intros c' Hne; now apply recorded_elsewhere|].
  split; [reflexivity|]. split; [reflexivity|lia].
Qed.

(** *** Calls that return *)

Lemma writes_ret mgr c {A} (a : A) : writes mgr c [] (ret a) a.
Proof. intros w _. exists w. split; [reflexivity | apply appended_nothing]. Qed.

Lemma writes_bind mgr c {A B} (m : M World A) (k : A → M World B) s1 s2 a b :
  writes mgr c s1 m a → writes mgr c s2 (k a) b → writes mgr c (s1 ++ s2) (bind m k) b.
Proof.
  intros Hm Hk w Hw. destruct (Hm w Hw) as (w1 & Hr & Ha).
  destruct (Hk w1) as (w2 & Hr2 & Ha2).
  { destruct Ha as (_ & _ & _ & Hmg & _). congruence. }
  exists w2. split; [unfold bind; now rewrite Hr|]. now apply (appended_trans _ _ _ _ w1).
Qed.

Lemma writes_forEach mgr c {A} (l : list A) (f : A → M World unit) (sh : A → list Shape) :
  (∀ x, x ∈ l → writes mgr c (sh x) (f x) tt) →
  writes mgr c (concat (sh <$> l)) (forEach l f) tt.
Proof.
  induction l as [|x l IH]; intros Hf; [apply writes_ret|].
  simpl. apply (writes_bind _ _ _ _ _ _ tt).
  - apply Hf. left.
  - apply IH. intros y Hy. apply Hf. now right.
Qed.

Lemma counted_forEach mgr c {A} (l : list A) (f : A → M World unit) (k : A → nat) :
  (∀ x, x ∈ l → ∃ sh, length sh = k x ∧ writes mgr c sh (f x) tt) →
  ∃ sh, length sh = sum_list_with k l ∧ writes mgr c sh (forEach l f) tt.
Proof.
  induction l as [|x l IH]; intros Hf.
  - exists []. split; [reflexivity | apply writes_ret].
  - destruct (Hf x) as (s1 & Hl1 & Hw1); [left|].
    destruct IH as (s2 & Hl2 & Hw2); [intros y Hy; apply Hf; now right|].
    exists (s1 ++ s2). split; [rewrite length_app; simpl; lia|].
    simpl. now apply (writes_bind _ _ _ _ _ _ tt).
Qed.

Lemma writes_gate1 mgr r g q :
  isAllocated q mgr = true → writes mgr (circuit r) [(g, QVal q, [])] (gate1 g r q) tt.
Proof.
  intros Hq w <-. eexists. split; [|apply appended_one].
  unfold gate1, bind. rewrite validate_allocated by exact Hq. apply addOp_records.
Qed.

Lemma writes_rotation mgr r g q theta :
  isAllocated q mgr = true →
  writes mgr (circuit r) [(g, QVal q, [theta])] (rotation g r q theta) tt.
Proof.
  intros Hq w <-. eexists. split; [|apply appended_one].
  unfold rotation, bind. rewrite validate_allocated by exact Hq. apply addOp_records.
Qed.

Lemma writes_u3 mgr r q theta phi lambda :
  isAllocated q mgr = true →
  writes mgr (circuit r) [("U3", QVal q, [theta; phi; lambda])] (u3 r q theta phi lambda) tt.
Proof.
  intros Hq w <-. eexists. split; [|apply appended_one].
  unfold u3, bind. rewrite validate_allocated by exact Hq. apply addOp_records.
Qed.

Lemma writes_cnot mgr r u v :
  isAllocated u mgr = true → isAllocated v mgr = true → u ≠ v →
  writes mgr (circuit r) [("CNOT", QArr [u; v], [])] (cnot r u v) tt.
Proof.
  intros Hu Hv Hne w <-. eexists. split; [|apply appended_one].
  unfold cnot, bind. rewrite !validate_allocated by assumption.
  rewrite bool_decide_eq_false_2 by exact Hne. apply addOp_records.
Qed.

Lemma writes_swap mgr r u v :
  isAllocated u mgr = true → isAllocated v mgr = true → u ≠ v →
  writes mgr (circuit r) [("SWAP", QArr [u; v], [])] (swap r u v) tt.
Proof.
  intros Hu Hv Hne w <-. eexists. split; [|apply appended_one].
  unfold swap, bind. rewrite !validate_allocated by assumption.
  rewrite bool_decide_eq_false_2 by exact Hne. apply addOp_records.
Qed.

Lemma writes_controlled_phase mgr r qi qj theta :
  isAllocated qi mgr = true → isAllocated qj mgr = true → qi ≠ qj →
  ∃ sh, length sh = 5 ∧ writes mgr (circuit r) sh (controlled_phase r qi qj theta) tt.
Proof.
  intros Hi Hj Hne. eexists. split; [|unfold controlled_phase].
  2:{ eapply writes_bind with (a := tt); [now apply writes_u3|].
      eapply writes_bind with (a := tt); [now apply writes_cnot|].
      eapply writes_bind with (a := tt); [now apply writes_u3|].
      eapply writes_bind with (a := tt); [now apply writes_cnot|].
      now apply writes_u3. }
  reflexivity.
Qed.

(** *** Calls that end *)

Lemma only_appends_ret c {A} (a : A) : only_appends c (ret a).
Proof. intros w. exists []. apply appended_nothing. Qed.

Lemma only_appends_throw c {A} e : only_appends c (@throw World A e).
Proof. intros w. exists []. apply appended_nothing. Qed.

Lemma only_appends_bind c {A B} (m : M World A) (k : A → M World B) :
  only_appends c m → (∀ a, only_appends c (k a)) → only_appends c (bind m k).
Proof.
  intros Hm Hk w. specialize (Hm w). unfold bind, ends_in in *.
  destruct (m w) as [a w1|e w1|]; [|exact Hm|exact Hm].
  destruct Hm as (s1 & Ha). specialize (Hk a w1).
  destruct (k a w1) as [b w2|e w2|]; [| |exact Hk];
    destruct Hk as (s2 & Ha2); exists (s1 ++ s2); now apply (appended_trans _ _ _ _ w1).
Qed.

Lemma only_appends_validate c q : only_appends c (validate q).
Proof.
  intros w. unfold validate.
  destruct (isAllocated q (manager w)); exists []; apply appended_nothing.
Qed.

Lemma only_appends_addOp c g q ps : only_appends c (addOp c g q ps None None).
Proof. intros w. rewrite addOp_records. eexists. apply appended_one. Qed.

Lemma only_appends_forEach c {A} (l : list A) (f : A → M World unit) :
  (∀ x, only_appends c (f x)) → only_appends c (forEach l f).
Proof.
  intros Hf. induction l as [|x l IH]; [apply only_appends_ret|].
  simpl. apply only_appends_bind; [apply Hf | intros _; exact IH].
Qed.

Lemma only_appends_forEach_counting c {A} (l : list A) (f : A → nat → M World nat) n :
  (∀ x k, only_appends c (f x k)) → only_appends c (forEach_counting l f n).
Proof.
  intros Hf. revert n. induction l as [|x l IH]; intros n; [apply only_appends_ret|].
  simpl. apply only_appends_bind; [apply Hf | intros k; apply IH].
Qed.

Lemma only_appends_gate1 r g q : only_appends (circuit r) (gate1 g r q).
Proof.
  apply only_appends_bind; [apply only_appends_validate|].
  intros _. apply only_appends_addOp.
Qed.

Lemma only_appends_rotation r g q theta : only_appends (circuit r) (rotation g r q theta).
Proof.
  apply only_appends_bind; [apply only_appends_validate|].
  intros _. apply only_appends_addOp.
Qed.

Lemma only_appends_u3 r q theta phi lambda :
  only_appends (circuit r) (u3 r q theta phi lambda).
Proof.
  apply only_appends_bind; [apply only_appends_validate|].
  intros _. apply only_appends_addOp.
Qed.

Lemma only_appends_cnot r u v : only_appends (circuit r) (cnot r u v).
Proof.
  apply only_appends_bind; [apply only_appends_validate|]. intros _.
  apply only_appends_bind; [apply only_appends_validate|]. intros _.
  case_bool_decide; [apply only_appends_throw | apply only_appends_addOp].
Qed.

Lemma only_appends_swap r u v : only_appends (circuit r) (swap r u v).
Proof.
  apply only_appends_bind; [apply only_appends_validate|]. intros _.
  apply only_appends_bind; [apply only_appends_validate|]. intros _.
  case_bool_decide; [apply only_appends_throw | apply only_appends_addOp].
Qed.

Lemma only_appends_controlled_phase r qi qj theta :
  only_appends (circuit r) (controlled_phase r qi qj theta).
Proof.
  unfold controlled_phase.
  apply only_appends_bind; [apply only_appends_u3|]. intros _.
  apply only_appends_bind; [apply only_appends_cnot|]. intros _.
  apply only_appends_bind; [apply only_appends_u3|]. intros _.
  apply only_appends_bind; [apply only_appends_cnot|]. intros _.
  apply only_appends_u3.
Qed.

Lemma only_appends_manager c {A} (m : M World A) w a w' :
  only_appends c m → m w = Ret a w' → manager w' = manager w.
Proof.
  intros Hm Hr. specialize (Hm w). rewrite Hr in Hm.
  destruct Hm as (sh & _ & _ & _ & Hmg & _). exact Hmg.
Qed.

(** *** What a call that returned has passed *)

Lemma forEach_returned c {A} (l : list A) (f : A → M World unit) w w' x :
  forEach l f w = Ret tt w' → x ∈ l → (∀ y, only_appends c (f y)) →
  ∃ w1 w2, manager w1 = manager w ∧ f x w1 = Ret tt w2.
Proof.
  intros Hr Hx Hf. revert w Hr. induction l as [|a l IH]; intros w Hr.
  - inversion Hx.
  - simpl in Hr. apply bind_returned in Hr. destruct Hr as ([] & w1 & Ha & Hl).
    apply elem_of_cons in Hx. destruct Hx as [->|Hx].
    + now exists w, w1.
    + destruct (IH Hx w1 Hl) as (w2 & w3 & Hm & Hx').
      exists w2, w3. split; [|exact Hx'].
      rewrite Hm. exact (only_appends_manager c (f a) w tt w1 (Hf a) Ha).
Qed.

Lemma validate_returned q w w' :
  validate q w = Ret tt w' → isAllocated q (manager w) = true ∧ w' = w.
Proof.
  unfold validate. destruct (isAllocated q (manager w)); [|discriminate].
  intros Hr. injection Hr as <-. now split.
Qed.

Lemma gate1_returned r g q w w' :
  gate1 g r q w = Ret tt w' → isAllocated q (manager w) = true.
Proof.
  unfold gate1. intros Hr. apply bind_returned in Hr. destruct Hr as ([] & w1 & Hv & _).
  now apply validate_returned in Hv.
Qed.

Lemma cnot_returned r u v w w' :
  cnot r u v w = Ret tt w' → u ≠ v.
Proof.
  unfold cnot. intros Hr. apply bind_returned in Hr. destruct Hr as ([] & w1 & _ & Hr).
  apply bind_returned in Hr. destruct Hr as ([] & w2 & _ & Hr).
  case_bool_decide; [discriminate Hr | assumption].
Qed.

Lemma controlled_phase_returned r qi qj theta w w' :
  controlled_phase r qi qj theta w = Ret tt w' → qi ≠ qj.
Proof.
  unfold controlled_phase. intros Hr.
  apply bind_returned in Hr. destruct Hr as ([] & w1 & _ & Hr).
  apply bind_returned in Hr. destruct Hr as ([] & w2 & Hc & _).
  now apply cnot_returned in Hc.
Qed.

Lemma cnot_fails r u v w e :
  failed_check (call_cnot u v) (manager w) = Some e → cnot r u v w = Throw e w.
Proof.
  intros He. pose proof (invoke_failed_check r (call_cnot u v) w e He) as Hi.
  cbn [invoke] in Hi. unfold void, bind in Hi.
  destruct (cnot r u v w) as [a w1|e1 w1|]; [discriminate Hi| |discriminate Hi].
  now injection Hi as -> ->.
Qed.

(** The qubits of an array are allocated and pairwise distinct when
    every one and every pair of them, taken by index, is. *)
Lemma distinct_by_index (mgr : Manager) (qubits : list JsVal) :
  (∀ i, i < length qubits → isAllocated (at_index qubits i) mgr = true) →
  (∀ i j, i < j < length qubits → at_index qubits i ≠ at_index qubits j) →
  Forall (fun q => isAllocated q mgr = true) qubits ∧ NoDup qubits.
Proof.
  intros Ha Hd. split.
  - apply Forall_lookup. intros i q Hq. pose proof (lookup_lt_Some _ _ _ Hq) as Hi.
    specialize (Ha i Hi). unfold at_index in Ha. now rewrite (nth_lookup_Some _ _ _ _ Hq) in Ha.
  - apply NoDup_alt. intros i j q Hi Hj.
    pose proof (lookup_lt_Some _ _ _ Hi) as Hli. pose proof (lookup_lt_Some _ _ _ Hj) as Hlj.
    destruct (Nat.lt_trichotomy i j) as [Hlt|[Heq|Hgt]]; [exfalso|exact Heq|exfalso].
    + apply (Hd i j); [lia|]. unfold at_index.
      now rewrite (nth_lookup_Some _ _ _ _ Hi), (nth_lookup_Some _ _ _ _ Hj).
    + apply (Hd j i); [lia|]. unfold at_index.
      now rewrite (nth_lookup_Some _ _ _ _ Hi), (nth_lookup_Some _ _ _ _ Hj).
Qed.

Lemma index_of_distinct (mgr : Manager) (qubits : list JsVal) :
  Forall (fun q => isAllocated q mgr = true) qubits → NoDup qubits →
  (∀ i, i < length qubits → isAllocated (at_index qubits i) mgr = true)
  ∧ (∀ i j, i < length qubits → j < length qubits → i ≠ j →
       at_index qubits i ≠ at_index qubits j).
Proof.
  intros Ha Hd. split.
  - intros i Hi. destruct (lookup_lt_is_Some_2 qubits i Hi) as [q Hq].
    unfold at_index. rewrite (nth_lookup_Some _ _ _ _ Hq).
    exact (proj1 (Forall_lookup _ _) Ha i q Hq).
  - intros i j Hi Hj Hne Heq.
    destruct (lookup_lt_is_Some_2 qubits i Hi) as [q Hq].
    destruct (lookup_lt_is_Some_2 qubits j Hj) as [q' Hq'].
    unfold at_index in Heq.
    rewrite (nth_lookup_Some _ _ _ _ Hq), (nth_lookup_Some _ _ _ _ Hq') in Heq. subst q'.
    apply Hne. exact (proj1 (NoDup_alt _) Hd i j q Hq Hq').
Qed.

(** The loop of swaps that ends [qft] and starts [inverseQft]. *)
Lemma writes_the_swaps mgr r (qubits : list JsVal) :
  Forall (fun q => isAllocated q mgr = true) qubits → NoDup qubits →
  ∃ sh, length sh = length qubits / 2
        ∧ writes mgr (circuit r) sh
            (for_range 0 (length qubits / 2)
               (fun i => swap r (at_index qubits i)
                           (at_index qubits (length qubits - 1 - i)))) tt.
Proof.
  intros Ha Hd. destruct (index_of_distinct mgr qubits Ha Hd) as [Hai Hdi].
  set (n := length qubits) in *.
  assert (Hhalf : 2 * (n / 2) ≤ n) by apply Nat.Div0.mul_div_le.
  destruct (counted_forEach mgr (circuit r) (seq 0 (n / 2 - 0))
              (fun i => swap r (at_index qubits i) (at_index qubits (n - 1 - i)))
              (fun _ => 1)) as (sh & Hl & Hw).
  { intros i Hi. apply elem_of_seq in Hi. eexists. split; [|apply writes_swap].
    - reflexivity.
    - apply Hai. lia.
    - apply Hai. lia.
    - apply Hdi; lia. }
  exists sh. split; [|exact Hw]. rewrite Hl.
  rewrite (sum_of_a_row _ 0 _ 1) by reflexivity. lia.
Qed.

Lemma swaps_only_append r (qubits : list JsVal) k :
  only_appends (circuit r)
    (for_range 0 k (fun i => swap r (at_index qubits i)
                               (at_index qubits (length qubits - 1 - i)))).
Proof. apply only_appends_forEach. intros i. apply only_appends_swap. Qed.

(** The library routines only record.  Whatever their arguments,
    [vqeAnsatz], [qaoaLayer], [qft] and [inverseQft] end, by a return or
    by a throw of the recorder, and all they have done by then is append
    gates to the buffer of the recorder they were given: the simulator,
    the manager and every other buffer are as they were.  A throw leaves
    the gates recorded before it in the buffer. *)
Theorem library_routines_only_record (Math_pow : float → float → float) (r : Recorder)
    (qubits : list JsVal) (params : list float) (edges : list (JsVal * JsVal))
    (gamma beta : float) :
  only_appends (circuit r) (vqeAnsatz r qubits params)
  ∧ only_appends (circuit r) (qaoaLayer r qubits edges gamma beta)
  ∧ only_appends (circuit r) (qft Math_pow r qubits)
  ∧ only_appends (circuit r) (inverseQft Math_pow r qubits).
Proof.
  assert (Hlayer : ∀ p, only_appends (circuit r) (vqeAnsatz_layer r qubits params p)).
  { intros p. unfold vqeAnsatz_layer.
    apply only_appends_bind.
    - apply only_appends_forEach_counting. intros q k.
      apply only_appends_bind; [apply only_appends_rotation|]. intros _.
      apply only_appends_bind; [apply only_appends_rotation|]. intros _.
      apply only_appends_ret.
    - intros p'. apply only_appends_bind; [|intros _; apply only_appends_ret].
      apply only_appends_forEach. intros i. apply only_appends_cnot. }
  split; [|split; [|split]].
  - unfold vqeAnsatz. apply only_appends_bind; [apply Hlayer|]. intros p.
    apply only_appends_bind; [apply Hlayer|]. intros _. apply only_appends_ret.
  - unfold qaoaLayer. apply only_appends_bind.
    + apply only_appends_forEach. intros edge.
      apply only_appends_bind; [apply only_appends_cnot|]. intros _.
      apply only_appends_bind; [apply only_appends_rotation|]. intros _.
      apply only_appends_cnot.
    + intros _. apply only_appends_forEach. intros q. apply only_appends_rotation.
  - unfold qft. apply only_appends_bind; [|intros _; apply swaps_only_append].
    apply only_appends_forEach. intros i.
    apply only_appends_bind; [apply only_appends_gate1|]. intros _.
    apply only_appends_forEach. intros j. apply only_appends_controlled_phase.
  - unfold inverseQft. apply only_appends_bind; [apply swaps_only_append|]. intros _.
    apply only_appends_forEach. intros i.
    apply only_appends_bind; [|intros _; apply only_appends_gate1].
    apply only_appends_forEach. intros j. apply only_appends_controlled_phase.
Qed.

(** A QAOA layer over a graph whose edges join two different allocated
    qubits returns, having recorded CNOT, RZ(2 gamma) on the second
    qubit, CNOT for every edge in order, then RX(2 beta) for every qubit
    of [qubits]: three gates an edge and one a qubit, none of them
    executed. *)
Theorem qaoaLayer_records (r : Recorder) (qubits : list JsVal)
    (edges : list (JsVal * JsVal)) (gamma beta : float) (w : World) :
  let cost := fun edge : JsVal * JsVal =>
                [("CNOT", QArr [edge.1; edge.2], []);
                 ("RZ", QVal edge.2, [(2 * gamma)%float]);
                 ("CNOT", QArr [edge.1; edge.2], [])] in
  let mixer := fun q : JsVal => ("RX", QVal q, [(2 * beta)%float]) in
  Forall (fun edge => isAllocated edge.1 (manager w) = true
                      ∧ isAllocated edge.2 (manager w) = true
                      ∧ edge.1 ≠ edge.2) edges →
  Forall (fun q => isAllocated q (manager w) = true) qubits →
  ∃ w', qaoaLayer r qubits edges gamma beta w = Ret tt w'
        ∧ appended (circuit r) (concat (cost <$> edges) ++ (mixer <$> qubits)) w w'.
Proof.
  intros cost mixer He Hq.
  assert (Hm : concat ((fun q => [mixer q]) <$> qubits) = mixer <$> qubits).
  { clear. induction qubits as [|q l IH]; [reflexivity|]. simpl. f_equal. exact IH. }
  rewrite <- Hm. apply (writes_bind (manager w) _ _ _ _ _ tt tt); [| |reflexivity].
  - apply writes_forEach. intros edge Hin.
    destruct (proj1 (Forall_forall _ _) He edge Hin) as (Hu & Hv & Hne).
    apply (writes_bind _ _ _ _ [_] [_; _] tt); [now apply writes_cnot|].
    apply (writes_bind _ _ _ _ [_] [_] tt); [now apply writes_rotation|].
    now apply writes_cnot.
  - apply writes_forEach. intros q Hin. apply writes_rotation.
    exact (proj1 (Forall_forall _ _) Hq q Hin).
Qed.

(** A QAOA layer is not atomic.  When the edge [(u, v)] is the first one
    a CNOT refuses (a qubit that is not allocated, or [u = v]), the layer
    throws the error of that CNOT, and the three gates of every edge
    before it stay in the buffer; no RX has been recorded. *)
Theorem qaoaLayer_is_not_atomic (r : Recorder) (qubits : list JsVal)
    (good rest : list (JsVal * JsVal)) (u v : JsVal) (gamma beta : float)
    (w : World) (e : error) :
  let cost := fun edge : JsVal * JsVal =>
                [("CNOT", QArr [edge.1; edge.2], []);
                 ("RZ", QVal edge.2, [(2 * gamma)%float]);
                 ("CNOT", QArr [edge.1; edge.2], [])] in
  Forall (fun edge => isAllocated edge.1 (manager w) = true
                      ∧ isAllocated edge.2 (manager w) = true
                      ∧ edge.1 ≠ edge.2) good →
  failed_check (call_cnot u v) (manager w) = Some e →
  ∃ w', qaoaLayer r qubits (good ++ (u, v) :: rest) gamma beta w = Throw e w'
        ∧ appended (circuit r) (concat (cost <$> good)) w w'.
Proof.
  intros cost He Hbad.
  destruct (writes_forEach (manager w) (circuit r) good
              (fun edge => let* _ := cnot r edge.1 edge.2 in
                           let* _ := rz r edge.2 (2 * gamma) in
                           cnot r edge.1 edge.2) cost) with (w := w)
    as (w1 & Hrun & Happ); [|reflexivity|].
  { intros edge Hin.
    destruct (proj1 (Forall_forall _ _) He edge Hin) as (Hu & Hv & Hne).
    apply (writes_bind _ _ _ _ [_] [_; _] tt); [now apply writes_cnot|].
    apply (writes_bind _ _ _ _ [_] [_] tt); [now apply writes_rotation|].
    now apply writes_cnot. }
  exists w1. split; [|exact Happ].
  unfold qaoaLayer. unfold bind at 1. rewrite forEach_app.
  cbn [fst snd] in *. rewrite Hrun. simpl forEach. unfold bind at 1. unfold bind at 1.
  cbn [fst snd].
  rewrite (cnot_fails r u v w1 e); [reflexivity|].
  destruct Happ as (_ & _ & _ & Hmg & _). now rewrite Hmg.
Qed.

(** [qft] and [inverseQft] return exactly when the qubits they are given
    are allocated and pairwise distinct; a repeated qubit meets the
    control = target check of a CNOT.  When they return they have
    recorded n + 5 n (n - 1) / 2 + floor(n / 2) gates for n qubits: a
    Hadamard a qubit, five gates a pair, a SWAP for each of the
    floor(n / 2) outer pairs. *)
Theorem qft_needs_distinct_qubits (Math_pow : float → float → float) (r : Recorder)
    (qubits : list JsVal) (w : World) :
  let n := length qubits in
  let usable := Forall (fun q => isAllocated q (manager w) = true) qubits ∧ NoDup qubits in
  ((∃ w', qft Math_pow r qubits w = Ret tt w') ↔ usable)
  ∧ ((∃ w', inverseQft Math_pow r qubits w = Ret tt w') ↔ usable)
  ∧ (∀ w', qft Math_pow r qubits w = Ret tt w' ∨ inverseQft Math_pow r qubits w = Ret tt w' →
       ∃ shapes, appended (circuit r) shapes w w'
                 ∧ length shapes = n + 5 * (n * (n - 1) / 2) + n / 2).
Proof.
  intros n usable.
  assert (Hcount : ∀ g : nat → nat,
            (∀ i, 0 ≤ i < 0 + n → g i = 1 + 5 * (0 + n - (i + 1))) →
            sum_list_with g (seq 0 n) = n + 5 * (n * (n - 1) / 2)).
  { intros g Hg. pose proof (sum_of_the_rows g 0 n Hg) as Hs.
    pose proof (twice_half_of_product n) as Ht. lia. }
  (* the calls return on usable qubits *)
  assert (Hqft : usable →
            ∃ sh, length sh = n + 5 * (n * (n - 1) / 2) + n / 2
                  ∧ writes (manager w) (circuit r) sh (qft Math_pow r qubits) tt).
  { intros [Ha Hd]. destruct (index_of_distinct _ _ Ha Hd) as [Hai Hdi].
    destruct (writes_the_swaps (manager w) r qubits Ha Hd) as (s2 & Hl2 & Hw2).
    destruct (counted_forEach (manager w) (circuit r) (seq 0 (n - 0))
                (fun i =>
                   let* _ := h r (at_index qubits i) in
                   for_range (i + 1) n
                     (fun j =>
                        controlled_phase r (at_index qubits i) (at_index qubits j)
                          (Math_PI / Math_pow 2 (of_nat (j - i)))%float))
                (fun i => 1 + 5 * (0 + n - (i + 1)))) as (s1 & Hl1 & Hw1).
    { intros i Hi. apply elem_of_seq in Hi.
      destruct (counted_forEach (manager w) (circuit r) (seq (i + 1) (n - (i + 1)))
                  (fun j =>
                     controlled_phase r (at_index qubits i) (at_index qubits j)
                       (Math_PI / Math_pow 2 (of_nat (j - i)))%float)
                  (fun _ => 5)) as (s0 & Hl0 & Hw0).
      { intros j Hj. apply elem_of_seq in Hj. apply writes_controlled_phase.
        - apply Hai. lia.
        - apply Hai. lia.
        - apply Hdi; lia. }
      exists (([("H", QVal (at_index qubits i), [])] : list Shape) ++ s0). split.
      - rewrite length_app, Hl0. rewrite (sum_of_a_row _ _ _ 5) by reflexivity.
        simpl. lia.
      - apply (writes_bind _ _ _ _ _ _ tt); [|exact Hw0].
        apply writes_gate1. apply Hai. lia. }
    exists (s1 ++ s2). split.
    - rewrite length_app, Hl1, Hl2. replace (n - 0) with n by lia.
      rewrite Hcount by reflexivity. reflexivity.
    - unfold qft. apply (writes_bind _ _ _ _ _ _ tt); [exact Hw1|exact Hw2]. }
  assert (Hinv : usable →
            ∃ sh, length sh = n + 5 * (n * (n - 1) / 2) + n / 2
                  ∧ writes (manager w) (circuit r) sh (inverseQft Math_pow r qubits) tt).
  { intros [Ha Hd]. destruct (index_of_distinct _ _ Ha Hd) as [Hai Hdi].
    destruct (writes_the_swaps (manager w) r qubits Ha Hd) as (s2 & Hl2 & Hw2).
    destruct (counted_forEach (manager w) (circuit r) (rev (seq 0 (n - 0)))
                (fun i =>
                   let* _ := for_range_down (i + 1) n
                               (fun j =>
                                  controlled_phase r (at_index qubits i) (at_index qubits j)
                                    (- Math_PI / Math_pow 2 (of_nat (j - i)))%float) in
                   h r (at_index qubits i))
                (fun i => 1 + 5 * (0 + n - (i + 1)))) as (s1 & Hl1 & Hw1).
    { intros i Hi. apply elem_of_rev_seq in Hi.
      destruct (counted_forEach (manager w) (circuit r) (rev (seq (i + 1) (n - (i + 1))))
                  (fun j =>
                     controlled_phase r (at_index qubits i) (at_index qubits j)
                       (- Math_PI / Math_pow 2 (of_nat (j - i)))%float)
                  (fun _ => 5)) as (s0 & Hl0 & Hw0).
      { intros j Hj. apply elem_of_rev_seq in Hj.
        apply writes_controlled_phase.
        - apply Hai. lia.
        - apply Hai. lia.
        - apply Hdi; lia. }
      exists (s0 ++ [("H", QVal (at_index qubits i), [])]). split.
      - rewrite length_app, Hl0, sum_list_with_rev.
        rewrite (sum_of_a_row _ _ _ 5) by reflexivity. simpl. lia.
      - apply (writes_bind _ _ _ _ _ _ tt); [exact Hw0|].
        apply writes_gate1. apply Hai. lia. }
    exists (s2 ++ s1). split.
    - rewrite length_app, Hl1, Hl2, sum_list_with_rev. replace (n - 0) with n by lia.
      rewrite Hcount by reflexivity. fold n. lia.
    - unfold inverseQft. apply (writes_bind _ _ _ _ _ _ tt); [exact Hw2|exact Hw1]. }
  (* a call that returned was given usable qubits *)
  assert (Hqft' : ∀ w', qft Math_pow r qubits w = Ret tt w' → usable).
  { intros w' Hr. unfold qft in Hr. apply bind_returned in Hr.
    destruct Hr as ([] & w1 & Hloop & _).
    assert (Hbody : ∀ i, i < n →
              isAllocated (at_index qubits i) (manager w) = true
              ∧ ∀ j, i < j < n → at_index qubits i ≠ at_index qubits j).
    { intros i Hi.
      destruct (forEach_returned (circuit r) _ _ _ _ i Hloop) as (w2 & w3 & Hm & Hrun).
      - apply elem_of_seq. fold n. lia.
      - intros y. apply only_appends_bind; [apply only_appends_gate1|]. intros _.
        apply only_appends_forEach. intros j. apply only_appends_controlled_phase.
      - apply bind_returned in Hrun. destruct Hrun as ([] & w4 & Hh & Hin).
        split; [rewrite <- Hm; exact (gate1_returned _ _ _ _ _ Hh)|].
        intros j Hj.
        destruct (forEach_returned (circuit r) _ _ _ _ j Hin) as (w5 & w6 & _ & Hrun').
        + apply elem_of_seq. fold n. lia.
        + intros y. apply only_appends_controlled_phase.
        + exact (controlled_phase_returned _ _ _ _ _ _ Hrun'). }
    apply distinct_by_index.
    - intros i Hi. now apply Hbody.
    - intros i j Hij. apply (proj2 (Hbody i ltac:(fold n in Hij; lia))). exact Hij. }
  assert (Hinv' : ∀ w', inverseQft Math_pow r qubits w = Ret tt w' → usable).
  { intros w' Hr. unfold inverseQft in Hr. apply bind_returned in Hr.
    destruct Hr as ([] & w1 & Hswaps & Hloop).
    assert (Hw1 : manager w1 = manager w)
      by exact (only_appends_manager _ _ _ _ _ (swaps_only_append r qubits _) Hswaps).
    assert (Hbody : ∀ i, i < n →
              isAllocated (at_index qubits i) (manager w) = true
              ∧ ∀ j, i < j < n → at_index qubits i ≠ at_index qubits j).
    { intros i Hi.
      destruct (forEach_returned (circuit r) _ _ _ _ i Hloop) as (w2 & w3 & Hm & Hrun).
      - apply elem_of_rev_seq. fold n. lia.
      - intros y. apply only_appends_bind; [|intros _; apply only_appends_gate1].
        apply only_appends_forEach. intros j. apply only_appends_controlled_phase.
      - apply bind_returned in Hrun. destruct Hrun as ([] & w4 & Hin & Hh).
        split.
        + rewrite <- Hw1, <- Hm.
          rewrite <- (only_appends_manager (circuit r) _ w2 tt w4) with (2 := Hin).
          * exact (gate1_returned _ _ _ _ _ Hh).
          * apply only_appends_forEach. intros j. apply only_appends_controlled_phase.
        + intros j Hj.
          destruct (forEach_returned (circuit r) _ _ _ _ j Hin) as (w5 & w6 & _ & Hrun').
          * apply elem_of_rev_seq. fold n. lia.
          * intros y. apply only_appends_controlled_phase.
          * exact (controlled_phase_returned _ _ _ _ _ _ Hrun'). }
    apply distinct_by_index.
    - intros i Hi. now apply Hbody.
    - intros i j Hij. apply (proj2 (Hbody i ltac:(fold n in Hij; lia))). exact Hij. }
  split; [|split].
  - split; [intros [w' Hr]; now apply (Hqft' w')|].
    intros Hu. destruct (Hqft Hu) as (sh & _ & Hw).
    destruct (Hw w eq_refl) as (w' & Hr & _). now exists w'.
  - split; [intros [w' Hr]; now apply (Hinv' w')|].
    intros Hu. destruct (Hinv Hu) as (sh & _ & Hw).
    destruct (Hw w eq_refl) as (w' & Hr & _). now exists w'.
  - intros w' [Hr|Hr].
    + destruct (Hqft (Hqft' w' Hr)) as (sh & Hl & Hw).
      destruct (Hw w eq_refl) as (w'' & Hr' & Ha). exists sh.
      rewrite Hr in Hr'. injection Hr' as <-. now split.
    + destruct (Hinv (Hinv' w' Hr)) as (sh & Hl & Hw).
      destruct (Hw w eq_refl) as (w'' & Hr' & Ha). exists sh.
      rewrite Hr in Hr'. injection Hr' as <-. now split.
Qed.

End WithEngine.

(** One edge between two allocated qubits. *)
Lemma qaoaLayer_records_witness :
  let E := constant_engine 0.5 in
  let w := {| circuits := {[0 := []]};
              manager := {| registry := {[VSym 0; VSym 1]}; minted := 2 |};
              sim := Simulator.new [VSym 0; VSym 1] None no_options;
              clock := 0 |} in
  let r := {| circuit := 0; onFlush := fun _ => ret None |} in
  ∃ w', qaoaLayer r [VSym 0; VSym 1] [(VSym 0, VSym 1)] 0.25 0.5 w = Ret tt w'
        ∧ length (instructions_of 0 w') = 5 ∧ sim w' = sim w.
Proof.
  intros E w r.
  destruct (@qaoaLayer_records E r [VSym 0; VSym 1] [(VSym 0, VSym 1)] 0.25 0.5 w)
    as (w' & Hr & Hi & _ & Hs & _).
  - apply Forall_cons. split; [|constructor].
    split; [vm_compute; reflexivity|]. split; [vm_compute; reflexivity|discriminate].
  - apply Forall_cons. split; [vm_compute; reflexivity|].
    apply Forall_cons. split; [vm_compute; reflexivity|constructor].
  - exists w'. split; [exact Hr|]. split; [|exact Hs].
    unfold r in Hi. cbn [circuit] in Hi. rewrite Hi. reflexivity.
Defined.

(** An edge from a qubit to itself after a good edge. *)
Lemma qaoaLayer_is_not_atomic_witness :
  let E := constant_engine 0.5 in
  let w := {| circuits := {[0 := []]};
              manager := {| registry := {[VSym 0; VSym 1]}; minted := 2 |};
              sim := Simulator.new [VSym 0; VSym 1] None no_options;
              clock := 0 |} in
  let r := {| circuit := 0; onFlush := fun _ => ret None |} in
  ∃ w', qaoaLayer r [VSym 0; VSym 1] [(VSym 0, VSym 1); (VSym 1, VSym 1)] 0.25 0.5 w
        = Throw (PhysicsError (VSym 1)) w'
        ∧ length (instructions_of 0 w') = 3.
Proof.
  intros E w r.
  destruct (@qaoaLayer_is_not_atomic E r [VSym 0; VSym 1] [(VSym 0, VSym 1)] []
              (VSym 1) (VSym 1) 0.25 0.5 w (PhysicsError (VSym 1)))
    as (w' & Hr & Hi & _).
  - apply Forall_cons. split; [|constructor].
    split; [vm_compute; reflexivity|]. split; [vm_compute; reflexivity|discriminate].
  - vm_compute. reflexivity.
  - exists w'. split; [exact Hr|].
    unfold r in Hi. cbn [circuit] in Hi. rewrite Hi. reflexivity.
Defined.

End AlgorithmFacts.

